(** * Octilinear grid graph and line-ordering ILP: a shallow embedding

    The development follows [octi/gridgraph/GridGraph.cpp] and
    [transitmap/optim/ILPOptimizer.cpp].

    - [double] is IEEE binary64, modelled by Rocq's primitive [float];
    - [size_t] is a [Z] in [0, 2^64) with the wrap-around written out;
    - a [GridNode*] is the identity of the node it points to: a center is
      named by its cell, a port by its cell and direction;
    - the graph container is a finite map from unordered node pairs to edge
      payloads, the spatial index a finite map from cells to centers;
    - a dereferenced null pointer or a failed [assert] is [None]. *)

From Stdlib Require Import ZArith Floats Lia Bool List.
From stdpp Require Import base option list gmap strings.

Local Open Scope Z_scope.

(** ** Machine numbers *)

Definition SIZE_MOD : Z := 2 ^ 64.

(** Arithmetic on [size_t] is modulo [2^64]. *)
Definition wrap (z : Z) : Z := z mod SIZE_MOD.

Definition INF : float := infinity.

(** [size_t] to [double], rounding to nearest even.  [of_uint63] rounds a
    63-bit integer; a 64-bit one is halved first, its lowest bit kept sticky. *)
Definition size_t_to_double (z : Z) : float :=
  if z <? 2 ^ 63 then PrimFloat.of_uint63 (Uint63.of_Z z)
  else (2 * PrimFloat.of_uint63
              (Uint63.of_Z (Z.lor (Z.shiftr z 1) (Z.land z 1))))%float.

(** [int] to [double]. *)
Definition int_to_double (z : Z) : float :=
  if z <? 0 then (- PrimFloat.of_uint63 (Uint63.of_Z (- z)))%float
  else PrimFloat.of_uint63 (Uint63.of_Z z).

(** The integer part of a finite double, rounding toward zero. *)
Definition trunc_double (f : float) : option Z :=
  match Prim2SF f with
  | S754_zero _ => Some 0
  | S754_finite s m e =>
      let a := if 0 <=? e then Z.pos m * 2 ^ e else Z.pos m / 2 ^ (- e) in
      Some (if s then - a else a)
  | _ => None
  end.

(** [double] to [size_t]: defined when the truncated value fits the type,
    undefined behaviour (here [None]) otherwise. *)
Definition double_to_size_t (f : float) : option Z :=
  match trunc_double f with
  | Some z => if (0 <=? z) && (z <? SIZE_MOD) then Some z else None
  | None => None
  end.

(** ** Data model *)

Record Penalties := {
  p_0 : float;
  p_135 : float;
  p_90 : float;
  p_45 : float;
  verticalPen : float;
  horizontalPen : float;
  diagonalPen : float
}.

Record DPoint := { getX : float; getY : float }.

Record DBox := { getLowerLeft : DPoint; getUpperRight : DPoint }.

(** An edge of the input graph, named by its address. *)
Definition CombEdge := Z.

(** Node identities: what a [GridNode*] points to. *)
Inductive GridNode :=
| Center (x y : Z)
| Port (x y : Z) (i : Z).

Global Instance GridNode_eq_dec : EqDecision GridNode.
Proof. solve_decision. Defined.

Definition GridNode_enc (n : GridNode) : (Z * Z) + (Z * Z * Z) :=
  match n with
  | Center x y => inl (x, y)
  | Port x y i => inr (x, y, i)
  end.

Definition GridNode_dec (s : (Z * Z) + (Z * Z * Z)) : GridNode :=
  match s with
  | inl (x, y) => Center x y
  | inr (x, y, i) => Port x y i
  end.

Lemma GridNode_dec_enc (n : GridNode) : GridNode_dec (GridNode_enc n) = n.
Proof. by destruct n. Qed.

Global Instance GridNode_countable : Countable GridNode :=
  inj_countable' GridNode_enc GridNode_dec GridNode_dec_enc.

(** Node payload: position and the closed flag. *)
Record GridNodePL := { getGeom : DPoint; isClosed_ : bool }.

(** Modelled from the spec: the edge payload class (GridEdgePL) is not among
    the sources.  Per the data model every grid edge carries a raw cost, a
    closed flag separate from the cost, and the set of input edges reserved
    on it; a new edge is open and reserves nothing.  [secondary] records the
    second constructor argument. *)
Record GridEdgePL := {
  rawCost : float;
  secondary : bool;
  closed : bool;
  getResEdges : list CombEdge
}.

Definition mkGridEdgePL (c : float) (sec : bool) : GridEdgePL :=
  {| rawCost := c; secondary := sec; closed := false; getResEdges := [] |}.

Definition setCost (c : float) (e : GridEdgePL) : GridEdgePL :=
  {| rawCost := c; secondary := secondary e; closed := closed e;
     getResEdges := getResEdges e |}.

Definition close (e : GridEdgePL) : GridEdgePL :=
  {| rawCost := rawCost e; secondary := secondary e; closed := true;
     getResEdges := getResEdges e |}.

Definition open (e : GridEdgePL) : GridEdgePL :=
  {| rawCost := rawCost e; secondary := secondary e; closed := false;
     getResEdges := getResEdges e |}.

(** Modelled from the spec: the cost vector class (NodeCost) is not among the
    sources.  It is a fixed-length accumulator of eight reals indexed by
    direction, all zero when created.  Every index used below lies in 0..7. *)
Definition NodeCost := list float.

Definition NodeCost0 : NodeCost := replicate 8 0%float.

Definition nc_get (c : NodeCost) (i : Z) : float :=
  default 0%float (c !! Z.to_nat i).

Definition nc_set (c : NodeCost) (i : Z) (v : float) : NodeCost :=
  <[Z.to_nat i := v]> c.

(** Edges are undirected: the key of an edge is its pair of end nodes in a
    fixed order. *)
Definition ekey (a b : GridNode) : GridNode * GridNode :=
  if (encode a <=? encode b)%positive then (a, b) else (b, a).

Record GridGraph := {
  _bbox : DBox;
  _c : Penalties;
  getXWidth : Z;
  getYHeight : Z;
  _grid : gmap (Z * Z) GridNode;
  _cellSize : float;
  _spacer : float;
  nds : gmap GridNode GridNodePL;
  edgs : gmap (GridNode * GridNode) GridEdgePL
}.

Definition set_grid (f : gmap (Z * Z) GridNode → gmap (Z * Z) GridNode)
    (g : GridGraph) : GridGraph :=
  {| _bbox := _bbox g; _c := _c g; getXWidth := getXWidth g;
     getYHeight := getYHeight g; _grid := f (_grid g);
     _cellSize := _cellSize g; _spacer := _spacer g;
     nds := nds g; edgs := edgs g |}.

Definition set_nds (f : gmap GridNode GridNodePL → gmap GridNode GridNodePL)
    (g : GridGraph) : GridGraph :=
  {| _bbox := _bbox g; _c := _c g; getXWidth := getXWidth g;
     getYHeight := getYHeight g; _grid := _grid g;
     _cellSize := _cellSize g; _spacer := _spacer g;
     nds := f (nds g); edgs := edgs g |}.

Definition set_edgs
    (f : gmap (GridNode * GridNode) GridEdgePL →
         gmap (GridNode * GridNode) GridEdgePL)
    (g : GridGraph) : GridGraph :=
  {| _bbox := _bbox g; _c := _c g; getXWidth := getXWidth g;
     getYHeight := getYHeight g; _grid := _grid g;
     _cellSize := _cellSize g; _spacer := _spacer g;
     nds := nds g; edgs := f (edgs g) |}.

(** ** The graph container *)

Definition addNd (n : GridNode) (p : DPoint) (g : GridGraph) : GridGraph :=
  set_nds (<[n := {| getGeom := p; isClosed_ := false |}]>) g.

Definition getEdg (g : GridGraph) (a b : GridNode) : option GridEdgePL :=
  edgs g !! ekey a b.

(** Adding an edge that is already there does nothing. *)
Definition addEdg (a b : GridNode) (pl : GridEdgePL) (g : GridGraph)
    : GridGraph :=
  match getEdg g a b with
  | Some _ => g
  | None => set_edgs (<[ekey a b := pl]>) g
  end.

(** [getEdg(a, b)->pl().f()] for a mutator [f] of the payload. *)
Definition modEdg (a b : GridNode) (f : GridEdgePL → GridEdgePL)
    (g : GridGraph) : GridGraph :=
  set_edgs (alter f (ekey a b)) g.

Definition isClosed (g : GridGraph) (n : GridNode) : bool :=
  match nds g !! n with
  | Some pl => isClosed_ pl
  | None => false
  end.

Definition setClosed (n : GridNode) (b : bool) (g : GridGraph) : GridGraph :=
  set_nds (alter (fun pl => {| getGeom := getGeom pl; isClosed_ := b |}) n) g.

(** [n->pl().getPort(i)]: writeNd sets all eight ports of every center, so
    the port of a center is never null. *)
Definition getPort (n : GridNode) (i : Z) : GridNode :=
  match n with
  | Center x y => Port x y i
  | Port x y _ => Port x y i
  end.

Definition getNodeCoords (n : GridNode) : Z * Z :=
  match n with
  | Center x y => (x, y)
  | Port x y _ => (x, y)
  end.

(** ** Lookup *)

Definition getNode (g : GridGraph) (x y : Z) : option GridNode :=
  if (getXWidth g <=? x) || (getYHeight g <=? y) then None
  else _grid g !! (x, y).

(** The offset of direction [i], as getNeighbor computes it in two [int8_t]
    variables. *)
Definition dirOff (i : Z) : Z * Z :=
  let x := 1 in
  let x := if i mod 4 =? 0 then 0 else x in
  let x := if 4 <? i then -1 else x in
  let y := 1 in
  let y := if (i =? 2) || (i =? 6) then 0 else y in
  let y := if (i =? 3) || (i =? 4) || (i =? 5) then -1 else y in
  (x, y).

Global Arguments dirOff : simpl never.

(** The sums [cx + x] and [cy + y] are taken in [size_t]. *)
Definition getNeighbor (g : GridGraph) (cx cy i : Z) : option GridNode :=
  let '(x, y) := dirOff i in
  getNode g (wrap (cx + x)) (wrap (cy + y)).

(** The loop [for (i = 0; i < 8; i++)] of a procedure that may fail. *)
Fixpoint foldM {A S : Type} (f : A → S → option S) (l : list A) (s : S)
    : option S :=
  match l with
  | [] => Some s
  | a :: l => match f a s with Some s' => foldM f l s' | None => None end
  end.

Definition dirs : list Z := seqZ 0 8.

Fixpoint getNEdge_from (g : GridGraph) (a b : GridNode) (l : list Z)
    : option (GridNode * GridNode) :=
  match l with
  | [] => None
  | i :: l =>
      match getEdg g (getPort a i) (getPort b ((i + 4) mod 8)) with
      | Some _ => Some (getPort a i, getPort b ((i + 4) mod 8))
      | None => getNEdge_from g a b l
      end
  end.

(** [getNEdge(a, b)] for non-null [a] and [b]: the end nodes of the first
    edge found between mirrored ports, so that it can be mutated in place. *)
Definition getNEdge (g : GridGraph) (a b : GridNode)
    : option (GridNode * GridNode) :=
  getNEdge_from g a b dirs.

(** ** Opening and closing nodes *)

Definition closeNodeStep (n : GridNode) (x y : Z) (g : GridGraph) (i : Z)
    : GridGraph :=
  let port := getPort n i in
  match getNeighbor g x y i with
  | None => g
  | Some neigh => modEdg port (getPort neigh ((i + 4) mod 8)) close g
  end.

Definition closeNode (g : GridGraph) (n : GridNode) : GridGraph :=
  if isClosed g n then g
  else
    let '(x, y) := getNodeCoords n in
    let g := foldl (closeNodeStep n x y) g dirs in
    setClosed n true g.

Definition openNodeStep (n : GridNode) (x y : Z) (g : GridGraph) (i : Z)
    : GridGraph :=
  let port := getPort n i in
  match getNeighbor g x y i with
  | None => g
  | Some neigh =>
      if isClosed g neigh then g
      else
        match getEdg g port (getPort neigh ((i + 4) mod 8)) with
        | Some e =>
            if (length (getResEdges e) =? 0)%nat
            then modEdg port (getPort neigh ((i + 4) mod 8)) open g
            else g
        | None => g
        end
  end.

Definition openNode (g : GridGraph) (n : GridNode) : GridGraph :=
  if negb (isClosed g n) then g
  else
    let '(x, y) := getNodeCoords n in
    let g := foldl (openNodeStep n x y) g dirs in
    setClosed n false g.

(** ** Sinks *)

(** The edges between a node and its ports take the given cost, where they
    exist. *)
Definition openNodeSink (g : GridGraph) (n : GridNode) (cost : float)
    : GridGraph :=
  foldl (fun g i => modEdg (getPort n i) n (setCost cost) g) g dirs.

Definition closeNodeSink (g : GridGraph) (n : GridNode) : GridGraph :=
  foldl (fun g i => modEdg (getPort n i) n (setCost INF) g) g dirs.

(** ** Reversible cost vectors *)

Definition addCostStep (n : GridNode) (addC : NodeCost) (i : Z)
    (s : GridGraph * NodeCost) : option (GridGraph * NodeCost) :=
  let '(g, invCost) := s in
  let '(x, y) := getNodeCoords n in
  let p := getPort n i in
  match getNeighbor g x y i with
  | None => Some (g, invCost)
  | Some neigh =>
      let op := getPort neigh ((i + 4) mod 8) in
      if (nc_get addC i <? -1)%float then
        e ← getEdg g p op;
        if closed e then
          (* already closed, so dont remove closedness in inv costs *)
          Some (g, nc_set invCost i 0%float)
        else
          let g := modEdg p op close g in
          nb ← getNeighbor g x y i;
          Some (closeNode g nb, nc_set invCost i (nc_get addC i))
      else
        e ← getEdg g p op;
        Some (modEdg p op (setCost (rawCost e + nc_get addC i)%float) g,
              nc_set invCost i (nc_get addC i))
  end.

Definition addCostVector (g : GridGraph) (n : GridNode) (addC : NodeCost)
    : option (GridGraph * NodeCost) :=
  foldM (addCostStep n addC) dirs (g, NodeCost0).

Definition removeCostStep (n : GridNode) (addC : NodeCost) (i : Z)
    (g : GridGraph) : option GridGraph :=
  let '(x, y) := getNodeCoords n in
  let p := getPort n i in
  match getNeighbor g x y i with
  | None => Some g
  | Some neigh =>
      let op := getPort neigh ((i + 4) mod 8) in
      if (nc_get addC i <? -1)%float then
        _ ← getEdg g p op;
        let g := modEdg p op open g in
        nb ← getNeighbor g x y i;
        Some (openNode g nb)
      else
        e ← getEdg g p op;
        Some (modEdg p op (setCost (rawCost e - nc_get addC i)%float) g)
  end.

Definition removeCostVector (g : GridGraph) (n : GridNode) (addC : NodeCost)
    : option GridGraph :=
  foldM (removeCostStep n addC) dirs g.

(** ** Committing a path *)

(** The loop that looks for the direction from [a] to [b]; 8 when no mirrored
    port pair is connected. *)
Fixpoint balanceDir (g : GridGraph) (a b : GridNode) (l : list Z) : Z :=
  match l with
  | [] => 8
  | dir :: l =>
      match getEdg g (getPort a dir) (getPort b ((dir + 4) mod 8)) with
      | Some _ => dir
      | None => balanceDir g a b l
      end
  end.

Definition balanceEdge (g : GridGraph) (a b : GridNode) : option GridGraph :=
  if decide (a = b) then Some g
  else
    let dir := balanceDir g a b dirs in
    let '(x, y) := getNodeCoords a in
    (* this closes the grid edge *)
    '(p, q) ← getNEdge g a b;
    let g := modEdg p q (setCost INF) g in
    (* this closes both nodes *)
    let g := closeNode g a in
    let g := closeNode g b in
    if (dir =? 1) || (dir =? 3) || (dir =? 5) || (dir =? 7) then
      let na := getNeighbor g x y ((dir + 7) mod 8) in
      let nb := getNeighbor g x y ((dir + 1) mod 8) in
      match na, nb with
      | Some na, Some nb =>
          '(p, q) ← getNEdge g na nb;
          Some (modEdg p q (setCost INF) g)
      | _, _ => Some g
      end
    else Some g.

(** ** Construction *)

(** The bend edges of one cell, as the double loop of writeNd adds them:
    the two port directions and the cost. *)
Definition bendEdges (c : Penalties) : list (Z * Z * float) :=
  let c_0 := (p_45 c - p_135 c)%float in
  let c_135 := p_45 c in
  let c_90 := (p_45 c - p_135 c + p_90 c)%float in
  i ← seqZ 0 8;
  j ← seqZ (i + 1) (8 - (i + 1));
  let d := i - j in
  let deg := Z.abs (Z.rem (Z.rem (d + 4) 8 + 8) 8 - 4) in
  let pen := c_0 in
  if deg =? 1 then []
  else
    let pen := if deg =? 2 then c_90 else pen in
    let pen := if deg =? 3 then c_135 else pen in
    [(i, j, pen)].

(** The unit offset of port [i] along an axis; [sh] is 0 for x and 2 for y. *)
Definition portOff (i sh : Z) : Z :=
  let xi := Z.rem (4 - Z.rem (i + sh) 8) 4 in
  Z.quot xi (Z.abs (Z.abs xi - 1) + 1).

Definition writeNd (x y : Z) (xOff yOff : float) (g : GridGraph)
    : GridGraph :=
  let xPos := (getX (getLowerLeft (_bbox g))
               + size_t_to_double x * _cellSize g)%float in
  let yPos := (getY (getLowerLeft (_bbox g))
               + size_t_to_double y * _cellSize g)%float in
  let n := Center x y in
  let g := addNd n {| getX := (xPos + xOff)%float;
                      getY := (yPos + yOff)%float |} g in
  let g := set_grid (<[(x, y) := n]>) g in
  let g :=
    foldl (fun g i =>
      let xi := portOff i 0 in
      let yi := portOff i 2 in
      let nn := Port x y i in
      let g :=
        addNd nn
          {| getX := (xOff + xPos + int_to_double xi * _spacer g)%float;
             getY := (yOff + yPos + int_to_double yi * _spacer g)%float |}
          g in
      addEdg n nn (mkGridEdgePL INF true) g) g (seqZ 0 8) in
  (* in-node connections *)
  foldl (fun g '(i, j, pen) =>
    addEdg (getPort n i) (getPort n j) (mkGridEdgePL pen true) g)
    g (bendEdges (_c g)).

(** All cells, in the order of the nested loops over x and y. *)
Definition cells (g : GridGraph) : list (Z * Z) :=
  x ← seqZ 0 (getXWidth g);
  y ← seqZ 0 (getYHeight g);
  [(x, y)].

Definition writeInitialCosts (g : GridGraph) : option GridGraph :=
  foldM (fun '(x, y) g =>
    n ← getNode g x y;
    foldM (fun i g =>
      let port := getPort n i in
      match getNeighbor g x y i with
      | None => Some g
      | Some neigh =>
          let q := getPort neigh ((i + 4) mod 8) in
          _ ← getEdg g port q;
          let g := if i mod 4 =? 0
                   then modEdg port q (setCost (verticalPen (_c g))) g
                   else g in
          let g := if (i + 2) mod 4 =? 0
                   then modEdg port q (setCost (horizontalPen (_c g))) g
                   else g in
          let g := if negb (i mod 2 =? 0)
                   then modEdg port q (setCost (diagonalPen (_c g))) g
                   else g in
          Some g
      end) dirs g) (cells g) g.

(** The constructor.  [w] and [h] stand for the numbers of columns and rows
    that the spatial index computes from the box and the cell size. *)
Definition mkGridGraph (bbox : DBox) (cellSize spacer : float)
    (pens : Penalties) (w h : Z) : option GridGraph :=
  let g := {| _bbox := bbox; _c := pens; getXWidth := w; getYHeight := h;
              _grid := ∅; _cellSize := cellSize; _spacer := spacer;
              nds := ∅; edgs := ∅ |} in
  if negb ((p_0 pens <? p_135 pens) && (p_135 pens <? p_90 pens)
           && (p_90 pens <? p_45 pens))%float
  then None
  else
    (* cut off illegal spacer values *)
    let spacer := if (cellSize / 2 <? spacer)%float
                  then (cellSize / 2)%float else spacer in
    (* write nodes *)
    let g := foldl (fun g '(x, y) => writeNd x y 0 0 g) g (cells g) in
    let g :=
      foldl (fun g '(x, y) =>
        match getNode g x y with
        | None => g
        | Some center =>
            foldl (fun g p =>
              let from := getPort center p in
              match getNeighbor g x y p with
              | None => g
              | Some toN =>
                  addEdg from (getPort toN ((p + 4) mod 8))
                    (mkGridEdgePL 0 false) g
              end) g dirs
        end) g (cells g) in
    writeInitialCosts g.


(** ** The A* heuristic *)

(** Subtraction of two [int64_t]; overflow is undefined. *)
Definition sub64 (a b : Z) : option Z :=
  let d := a - b in
  if (- 2 ^ 63 <=? d) && (d <? 2 ^ 63) then Some d else None.

(** [labs]; undefined on the least [int64_t]. *)
Definition labs (d : Z) : option Z :=
  if d =? - 2 ^ 63 then None else Some (Z.abs d).

(** [std::min] on doubles. *)
Definition std_min (a b : float) : float := if (b <? a)%float then b else a.

Definition heurCost (g : GridGraph) (xa ya xb yb : Z) : option float :=
  if (xa =? xb) && (ya =? yb) then Some 0%float
  else
    dx ← sub64 xb xa ≫= labs;
    dy ← sub64 yb ya ≫= labs;
    let minHops := Z.max dx dy in
    edgeCost ← double_to_size_t
      (size_t_to_double minHops
       * std_min (verticalPen (_c g))
           (std_min (horizontalPen (_c g)) (diagonalPen (_c g))))%float;
    hopCost ← double_to_size_t
      (size_t_to_double (wrap (minHops - 1))
       * (p_45 (_c g) - p_135 (_c g)))%float;
    Some (size_t_to_double (wrap (edgeCost + hopCost))).

(** ** Penalties around a node of the input graph *)

(** Modelled from the spec: the input graph is not among the sources.  A node
    of it carries its adjacency list and its edge ordering, a cyclic sequence
    of its incident edges in clockwise order with a membership test [has] and
    [dist a b], the number of clockwise steps from [a] to [b], in [0, deg)
    and 0 from an edge to itself. *)
Record CombNode := {
  cnId : Z;
  getAdjList : list CombEdge;
  getEdgeOrdering : list CombEdge
}.

Definition has (o : list CombEdge) (e : CombEdge) : bool :=
  bool_decide (e ∈ o).

Fixpoint edgePos (o : list CombEdge) (e : CombEdge) : Z :=
  match o with
  | [] => 0
  | f :: o => if decide (f = e) then 0 else 1 + edgePos o e
  end.

Definition dist (o : list CombEdge) (a b : CombEdge) : Z :=
  (edgePos o b - edgePos o a) mod Z.of_nat (length o).

Definition getSettledOutgoingEdges (g : GridGraph) (n : GridNode)
    : list (option CombEdge) :=
  let '(x, y) := getNodeCoords n in
  (* if some outgoing edge is taken, dont put new edge next to it *)
  (fun i =>
     let p := getPort n i in
     match getNeighbor g x y i with
     | None => None
     | Some neigh =>
         match getEdg g p (getPort neigh ((i + 4) mod 8)) with
         | Some e => head (getResEdges e)
         | None => None
         end
     end) <$> dirs.

(** What spacingPenalty writes to the error stream. *)
Inductive LogMsg :=
| WarnEdgeNotInNode (e : CombEdge) (origNode : Z).

(** The closed sentinel, [-1.0 * DBL_MAX]. *)
Definition SENTINEL : float := (-1 * 0x1.fffffffffffffp+1023)%float.

(** [addC[k] += v] unless the slot already holds the sentinel. *)
Definition softAdd (addC : NodeCost) (k : Z) (v : float) : NodeCost :=
  if (nc_get addC k <? -1)%float then addC
  else nc_set addC k (nc_get addC k + v)%float.

Definition spacingStep (pens : Penalties) (o : list CombEdge)
    (optimDistance : Z) (e : CombEdge) (addC : NodeCost)
    (io : Z * option CombEdge) : NodeCost :=
  let '(i, out) := io in
  match out with
  | None => addC
  | Some f =>
      (* the number of edges between the checked edge and the inserted
         edge, in clockwise and counter-clockwise dir *)
      let dCw := dist o f e - 1 in
      let dCCw := dist o e f - 1 in
      let dd := wrap (wrap (Z.rem ((dCw + 1) + dCw) 8) * optimDistance) mod 8 in
      let ddd := Z.rem (6 - dd) 8 in
      let pen := (p_45 pens * 2 - 1)%float in
      let addC :=
        if dd =? 0 then addC
        else
          foldl (fun addC j =>
            softAdd addC (wrap (i + j) mod 8)
              (pen * (1 - (int_to_double j - 1) / int_to_double dd))%float)
            addC (seqZ 1 (dd + 1)) in
      let addC :=
        if ddd =? 0 then addC
        else
          foldl (fun addC j =>
            softAdd addC (wrap (i + wrap (8 - j)) mod 8)
              (pen * (1 - (int_to_double j - 1) / int_to_double ddd))%float)
            addC (seqZ 1 (ddd + 1)) in
      (* negative cost here means that the edge is going to be closed *)
      let addC := nc_set addC i SENTINEL in
      let addC :=
        foldl (fun addC j => nc_set addC (wrap (i + j) mod 8) SENTINEL)
          addC (seqZ 1 dCw) in
      foldl (fun addC j => nc_set addC (wrap (i + wrap (8 - j)) mod 8) SENTINEL)
        addC (seqZ 1 dCCw)
  end.

(** The result is the cost vector and what was logged; [None] is the
    undefined integer division by zero. *)
Definition spacingPenalty (g : GridGraph) (n : GridNode) (origNode : CombNode)
    (e : CombEdge) : option (NodeCost * list LogMsg) :=
  let addC := NodeCost0 in
  let origEdgeNumber := Z.of_nat (length (getAdjList origNode)) in
  if origEdgeNumber =? 0 then None
  else
    let optimDistance := wrap (Z.quot 8 origEdgeNumber - 1) in
    if negb (has (getEdgeOrdering origNode) e) then
      Some (addC, [WarnEdgeNotInNode e (cnId origNode)])
    else
      let outgoing := getSettledOutgoingEdges g n in
      Some (foldl (spacingStep (_c g) (getEdgeOrdering origNode)
                     optimDistance e)
              addC (zip dirs outgoing), []).

(** The inner loop of topoBlockPenalty for the settled edge [f] of direction
    [i], over the directions [js] after [i]: it ends at the first direction
    that holds [f] again. *)
Fixpoint topoBlockFrom (o : list CombEdge) (e : CombEdge)
    (outgoing : list (option CombEdge)) (i : Z) (f : CombEdge)
    (js : list Z) (addC : NodeCost) : NodeCost :=
  match js with
  | [] => addC
  | j :: js =>
      match mjoin (outgoing !! Z.to_nat (j mod 8)) with
      | None => topoBlockFrom o e outgoing i f js addC
      | Some f' =>
          if decide (f' = f) then addC
          else
            let da := dist o f e in
            let db := dist o f' e in
            let addC :=
              if db <? da then
                (* edge does not lie in this segment, block it! *)
                foldl (fun addC x => nc_set addC (x mod 8) SENTINEL) addC
                  (seqZ (i + 1) (j - (i + 1)))
              else addC in
            topoBlockFrom o e outgoing i f js addC
      end
  end.

Definition topoBlockPenalty (g : GridGraph) (n : GridNode)
    (origNode : CombNode) (e : CombEdge) : NodeCost :=
  let addC := NodeCost0 in
  let outgoing := getSettledOutgoingEdges g n in
  (* topological blocking *)
  foldl (fun addC '(i, out) =>
    match out with
    | None => addC
    | Some f =>
        topoBlockFrom (getEdgeOrdering origNode) e outgoing i f
          (seqZ (i + 1) 7) addC
    end) addC (zip dirs outgoing).

(** [double] to [int]: defined when the truncated value fits the type. *)
Definition double_to_int (f : float) : option Z :=
  match trunc_double f with
  | Some z => if (- 2 ^ 31 <=? z) && (z <? 2 ^ 31) then Some z else None
  | None => None
  end.

(** [M_PI] *)
Definition M_PI : float := 0x1.921fb54442d18p+1.

(** The double nearest to [.1]. *)
Definition tenth : float := 0x1.999999999999ap-4.

(** The penalty for leaving a node in a direction other than that of the
    edge in the input.  [degA] is the angle between the two end nodes of
    the edge, which the geometry library computes; [None] is a conversion
    or a sum that does not fit [int]. *)
Definition outDegDeviationPenalty (degA : float) : option NodeCost :=
  let ret := NodeCost0 in
  deg ← double_to_int (- degA * (180 / M_PI))%float;
  let deg := if deg <? 0 then deg + 360 else deg in
  if 2 ^ 31 <=? deg + 90 then None
  else
    let deg := Z.rem (deg + 90) 360 in
    Some (foldl (fun ret i =>
      let diff :=
        int_to_double
          (Z.min (Z.abs (deg - 45 * i)) (360 - Z.abs (deg - 45 * i))) in
      let multiplier := tenth in
      nc_set ret i (nc_get ret i + multiplier * diff)%float) ret dirs).

(** * The line-ordering ILP *)

Module Optim.

(** A transit line, named by its address. *)
Definition Line := Z.

(** A line of a segment with the original lines collapsed into it. *)
Record LineOcc := { line : Line; relatives : list Line }.

(** A reference of a segment to an edge of the original graph. *)
Record EtgPart := { etg : Z; dir : bool; order : nat; wasCut : bool }.

Record OptEdgePL := {
  etgs : list EtgPart;
  getLines : list LineOcc;
  getCardinality : nat;
  getStrRepr : string
}.

Record OptEdge := { edgeAddr : Z; getFrom : Z; getTo : Z; pl : OptEdgePL }.

Record OptNode := { nodeAddr : Z; getAdjList : list OptEdge }.

Definition LinePair : Type := LineOcc * LineOcc.
Definition PosCom : Type := nat * nat.
Definition PosComPair : Type := PosCom * PosCom.
Definition EdgePair : Type := OptEdge * OptEdge.

(** The names of columns and rows, by the values printed into them. *)
Inductive VarName :=
| XVar (seg : string) (r : Line) (p : nat)
| XDec (segA segs : string) (l1 l2 : Line) (node : Z).

Global Instance VarName_eq_dec : EqDecision VarName.
Proof. solve_decision. Defined.

Inductive RowName :=
| SumP (seg : string) (p : nat)
| SumL (seg : string) (l : Line)
| DecSum (segA segs : string) (l1 l2 : Line) (pos : list nat) (node : Z).

(** Modelled from the spec: the solver interface (ILPSolver) is not among the
    sources.  A problem is its columns, binary decision variables with an
    objective coefficient, and its rows, linear constraints over columns
    with a bound: an equation (FIX) or an upper bound (UP).  addCol and
    addRow append and return the new index; getVarByName finds a column by
    its name, if there is one. *)
Inductive ColType := BIN.
Inductive RowType := FIX | UP.

Record Col := { colName : VarName; colType : ColType; objCoef : Z }.

Record Row := {
  rowName : RowName;
  bnd : Z;
  rowType : RowType;
  coefs : list (nat * Z)
}.

Record ILPSolver := { cols : list Col; rows : list Row }.

Definition getSolver : ILPSolver := {| cols := []; rows := [] |}.

Definition getNumConstrs (lp : ILPSolver) : nat := length (rows lp).

Definition addCol (name : VarName) (t : ColType) (obj : Z) (lp : ILPSolver)
    : ILPSolver * nat :=
  ({| cols := cols lp ++ [{| colName := name; colType := t; objCoef := obj |}];
      rows := rows lp |},
   length (cols lp)).

Definition addRow (name : RowName) (b : Z) (t : RowType) (lp : ILPSolver)
    : ILPSolver * nat :=
  ({| cols := cols lp;
      rows := rows lp ++ [{| rowName := name; bnd := b; rowType := t;
                             coefs := [] |}] |},
   length (rows lp)).

Definition addCoef (col : nat) (coef : Z) (r : Row) : Row :=
  {| rowName := rowName r; bnd := bnd r; rowType := rowType r;
     coefs := coefs r ++ [(col, coef)] |}.

Definition addColToRow (row col : nat) (coef : Z) (lp : ILPSolver)
    : ILPSolver :=
  {| cols := cols lp; rows := alter (addCoef col coef) row (rows lp) |}.

Fixpoint findCol (name : VarName) (l : list Col) (i : nat) : option nat :=
  match l with
  | [] => None
  | c :: l => if decide (colName c = name) then Some i
              else findCol name l (S i)
  end.

(** The index of the column of that name; the code receives -1 for none and
    asserts that it did not. *)
Definition getVarByName (lp : ILPSolver) (name : VarName) : option nat :=
  findCol name (cols lp) 0.

(** ** The problem *)

Definition getILPVarName (seg : OptEdge) (r : Line) (p : nat) : VarName :=
  XVar (getStrRepr (pl seg)) r p.

(** The column of line [l] at position [p], entered into the row of the line
    and into the row of the position. *)
Definition addLineVar (e : OptEdge) (l : LineOcc) (row rowA : nat)
    (lp : ILPSolver) (p : nat) : ILPSolver :=
  let '(lp, curCol) := addCol (getILPVarName e (line l) p) BIN 0 lp in
  let lp := addColToRow row curCol 1 lp in
  addColToRow (rowA + p) curCol 1 lp.

(** The row of a line and its columns. *)
Definition addLineVars (e : OptEdge) (rowA : nat) (lp : ILPSolver)
    (l : LineOcc) : ILPSolver :=
  (* constraint: the sum of all x_slp over p must be 1 for equal sl *)
  let '(lp, row) := addRow (SumL (getStrRepr (pl e)) (line l)) 1 FIX lp in
  foldl (addLineVar e l row rowA) lp (seq 0 (getCardinality (pl e))).

(** The rows and columns of one segment: a row for every position, then the
    row and the columns of every line. *)
Definition addSegment (lp : ILPSolver) (e : OptEdge) : ILPSolver :=
  let rowA := getNumConstrs lp in
  let lp :=
    foldl (fun lp p => (addRow (SumP (getStrRepr (pl e)) p) 1 FIX lp).1)
      lp (seq 0 (getCardinality (pl e))) in
  foldl (addLineVars e rowA) lp (getLines (pl e)).

Definition addSegments (g : list OptNode) (lp : ILPSolver) : ILPSolver :=
  foldl (fun lp n =>
    foldl (fun lp e =>
      if decide (getFrom e ≠ nodeAddr n) then lp else addSegment lp e)
      lp (getAdjList n)) lp g.

Definition getPositionCombinations2 (a b : OptEdge) : list PosComPair :=
  posLineAinA ← seq 0 (getCardinality (pl a));
  posLineBinA ← seq 0 (getCardinality (pl a));
  if decide (posLineAinA = posLineBinA) then []
  else
    posLineAinB ← seq 0 (getCardinality (pl b));
    posLineBinB ← seq 0 (getCardinality (pl b));
    if decide (posLineAinB = posLineBinB) then []
    else [((posLineAinA, posLineAinB), (posLineBinA, posLineBinB))].

Definition getPositionCombinations (a : OptEdge) : list PosCom :=
  posLineAinA ← seq 0 (getCardinality (pl a));
  posLineBinA ← seq 0 (getCardinality (pl a));
  if decide (posLineAinA = posLineBinA) then []
  else [(posLineAinA, posLineBinA)].

Section Constraints.

(** What the bundled-graph layer and the scorer supply. *)
Context {OptGraph : Type}.
Context (getLinePairs : OptEdge → list LinePair).
Context (getEdgePartners : OptNode → OptEdge → LinePair → list OptEdge).
Context (getEdgePartnerPairs : OptNode → OptEdge → LinePair → list EdgePair).
Context (crosses2 : OptGraph → OptNode → OptEdge → OptEdge → PosComPair → bool).
Context (crosses3 : OptGraph → OptNode → OptEdge → EdgePair → PosCom → bool).
Context (getCrossingPenaltySameSeg getCrossingPenaltyDiffSeg : OptNode → Z).

Definition sameSegRow (segmentA segmentB : OptEdge) (linepair : LinePair)
    (node : OptNode) (decisionVar : nat) (lp : ILPSolver)
    (poscomb : PosComPair) : option ILPSolver :=
  lineAinAatP ← getVarByName lp
    (getILPVarName segmentA (line linepair.1) poscomb.1.1);
  lineBinAatP ← getVarByName lp
    (getILPVarName segmentA (line linepair.2) poscomb.2.1);
  lineAinBatP ← getVarByName lp
    (getILPVarName segmentB (line linepair.1) poscomb.1.2);
  lineBinBatP ← getVarByName lp
    (getILPVarName segmentB (line linepair.2) poscomb.2.2);
  let '(lp, row) :=
    addRow (DecSum (getStrRepr (pl segmentA)) (getStrRepr (pl segmentB))
              (line linepair.1) (line linepair.2)
              [poscomb.1.1; poscomb.2.1; poscomb.1.2; poscomb.2.2]
              (nodeAddr node)) 3 UP lp in
  let lp := addColToRow row lineAinAatP 1 lp in
  let lp := addColToRow row lineBinAatP 1 lp in
  let lp := addColToRow row lineAinBatP 1 lp in
  let lp := addColToRow row lineBinBatP 1 lp in
  Some (addColToRow row decisionVar (-1) lp).

(** The objective coefficient of a decision variable is the product of the
    [int] penalty and two sizes: the penalty is converted to [size_t] and
    the products are taken there, modulo [2^64]. *)
Definition sameSegPartner (og : OptGraph) (node : OptNode)
    (processed : list Z) (segmentA : OptEdge) (linepair : LinePair)
    (segmentB : OptEdge) (lp : ILPSolver) : option ILPSolver :=
  if decide (edgeAddr segmentB ∈ processed) then Some lp
  else
    (* introduce dec var *)
    let '(lp, decisionVar) :=
      addCol (XDec (getStrRepr (pl segmentA)) (getStrRepr (pl segmentB))
                (line linepair.1) (line linepair.2) (nodeAddr node))
        BIN
        (* multiply the penalty with the number of collapsed lines! *)
        (wrap (wrap (wrap (getCrossingPenaltySameSeg node)
                     * Z.of_nat (length (relatives linepair.1)))
               * Z.of_nat (length (relatives linepair.2)))) lp in
    foldM (fun poscomb lp =>
      if crosses2 og node segmentA segmentB poscomb
      then sameSegRow segmentA segmentB linepair node decisionVar lp poscomb
      else Some lp)
      (getPositionCombinations2 segmentA segmentB) lp.

Definition writeSameSegConstraints (og : OptGraph) (g : list OptNode)
    (lp : ILPSolver) : option ILPSolver :=
  (* go into nodes and build crossing constraints for adjacent *)
  foldM (fun node lp =>
    snd <$>
    foldM (fun segmentA '(processed, lp) =>
      let processed := edgeAddr segmentA :: processed in
      lp ← foldM (fun linepair lp =>
        foldM (sameSegPartner og node processed segmentA linepair)
          (getEdgePartners node segmentA linepair) lp)
        (getLinePairs segmentA) lp;
      Some (processed, lp))
      (getAdjList node) ([], lp)) g lp.

Definition diffSegRow (segmentA : OptEdge) (segments : EdgePair)
    (linepair : LinePair) (node : OptNode) (decisionVar : nat)
    (lp : ILPSolver) (poscomb : PosCom) : option ILPSolver :=
  lineAinAatP ← getVarByName lp
    (getILPVarName segmentA (line linepair.1) poscomb.1);
  lineBinAatP ← getVarByName lp
    (getILPVarName segmentA (line linepair.2) poscomb.2);
  let '(lp, row) :=
    addRow (DecSum (getStrRepr (pl segmentA))
              (getStrRepr (pl segments.1) +:+ getStrRepr (pl segments.2))
              (line linepair.1) (line linepair.2)
              [poscomb.1; poscomb.2] (nodeAddr node)) 1 UP lp in
  let lp := addColToRow row lineAinAatP 1 lp in
  let lp := addColToRow row lineBinAatP 1 lp in
  Some (addColToRow row decisionVar (-1) lp).

Definition diffSegPartners (og : OptGraph) (node : OptNode)
    (segmentA : OptEdge) (linepair : LinePair) (segments : EdgePair)
    (lp : ILPSolver) : option ILPSolver :=
  (* introduce dec var *)
  let '(lp, decisionVar) :=
    addCol (XDec (getStrRepr (pl segmentA))
              (getStrRepr (pl segments.1) +:+ getStrRepr (pl segments.2))
              (line linepair.1) (line linepair.2) (nodeAddr node))
      BIN
      (* multiply the penalty with the number of collapsed lines! *)
      (wrap (wrap (wrap (getCrossingPenaltyDiffSeg node)
                   * Z.of_nat (length (relatives linepair.1)))
             * Z.of_nat (length (relatives linepair.2)))) lp in
  foldM (fun poscomb lp =>
    if crosses3 og node segmentA segments poscomb
    then diffSegRow segmentA segments linepair node decisionVar lp poscomb
    else Some lp)
    (getPositionCombinations segmentA) lp.

Definition writeDiffSegConstraints (og : OptGraph) (g : list OptNode)
    (lp : ILPSolver) : option ILPSolver :=
  foldM (fun node lp =>
    foldM (fun segmentA lp =>
      foldM (fun linepair lp =>
        foldM (diffSegPartners og node segmentA linepair)
          (getEdgePartnerPairs node segmentA linepair) lp)
        (getLinePairs segmentA) lp)
      (getAdjList node) lp) g lp.

Definition createProblem (og : OptGraph) (g : list OptNode)
    : option ILPSolver :=
  let lp := getSolver in
  (* for every segment s, we define |L(s)|^2 decision variables x_slp *)
  let lp := addSegments g lp in
  lp ← writeSameSegConstraints og g lp;
  writeDiffSegConstraints og g lp.

End Constraints.

(** ** Feasible solutions *)

Definition sumZ (l : list Z) : Z := foldr Z.add 0 l.

(** The left-hand side of a row under an assignment of the columns. *)
Definition rowSum (sol : nat → Z) (r : Row) : Z :=
  sumZ ((fun '(c, k) => k * sol c) <$> coefs r).

Definition rowHolds (sol : nat → Z) (r : Row) : Prop :=
  match rowType r with
  | FIX => rowSum sol r = bnd r
  | UP => rowSum sol r ≤ bnd r
  end.

(** Binary columns take 0 or 1 and every row holds. *)
Definition feasible (lp : ILPSolver) (sol : nat → Z) : Prop :=
  (∀ i c, cols lp !! i = Some c → 0 ≤ sol i ≤ 1)
  ∧ ∀ r, r ∈ rows lp → rowHolds sol r.

(** The segments of a component, in the order createProblem meets them. *)
Definition segments (g : list OptNode) : list OptEdge :=
  n ← g;
  filter (fun e => getFrom e = nodeAddr n) (getAdjList n).

(** The value of x(s, l, p): that of the column of this name. *)
Definition xval (lp : ILPSolver) (sol : nat → Z) (e : OptEdge) (l : Line)
    (p : nat) : Z :=
  match getVarByName lp (getILPVarName e l p) with
  | Some c => sol c
  | None => 0
  end.

(** The names of the assignment variables of a list of segments. *)
Definition xnames (es : list OptEdge) : list VarName :=
  e ← es;
  l ← getLines (pl e);
  p ← seq 0 (getCardinality (pl e));
  [getILPVarName e (line l) p].

(** ** Extraction of the order *)

(** The hierarchical order configuration: for an original edge and an order
    index, the list of line positions; entries are created empty on first
    access. *)
Abbreviation HierarOrderCfg := (gmap Z (gmap nat (list nat))).

Definition hcGet (hc : HierarOrderCfg) (e : Z) (o : nat) : list nat :=
  default [] (default ∅ (hc !! e) !! o).

Definition hcSet (hc : HierarOrderCfg) (e : Z) (o : nat) (l : list nat)
    : HierarOrderCfg :=
  <[e := <[o := l]> (default ∅ (hc !! e))]> hc.

(** One relative of the line found at a position is entered into the order
    of [etgp]; [p] is its position in the original edge and [frontDir] the
    direction of the first reference of the segment. *)
Definition placeRelative (etgp : EtgPart) (frontDir : bool) (p : nat)
    (hc : HierarOrderCfg) : HierarOrderCfg :=
  if negb (xorb (dir etgp) frontDir)
  then hcSet hc (etg etgp) (order etgp)
         (p :: hcGet hc (etg etgp) (order etgp))
  else hcSet hc (etg etgp) (order etgp)
         (hcGet hc (etg etgp) (order etgp) ++ [p]).

Section Extraction.

(** The solved values of the variables, and the position of a line in an
    original edge. *)
Context (getVarVal : VarName → float).
Context (linePos : Z → Line → nat).

Definition extractPosition (e : OptEdge) (etgp : EtgPart) (frontDir : bool)
    (tp : nat) (hc : HierarOrderCfg) : option HierarOrderCfg :=
  '(found, hc) ←
    foldM (fun lo '(found, hc) =>
      let val := getVarVal (getILPVarName e (line lo) tp) in
      if (0.5 <? val)%float then
        let hc :=
          foldl (fun hc rel =>
            (* retrieve the original route pos *)
            let p := linePos (etg etgp) rel in
            placeRelative etgp frontDir p hc) hc (relatives lo) in
        (* should be assured by ILP constraints *)
        if found : bool then None else Some (true, hc)
      else Some (found, hc))
      (getLines (pl e)) (false, hc);
  if found : bool then Some hc else None.

Definition getConfigurationFromSolution (hc : HierarOrderCfg)
    (g : list OptNode) : option HierarOrderCfg :=
  foldM (fun n hc =>
    foldM (fun e hc =>
      if decide (getFrom e ≠ nodeAddr n) then Some hc
      else
        match etgs (pl e) with
        | [] => Some hc
        | front :: _ =>
            foldM (fun etgp hc =>
              if wasCut etgp then Some hc
              else
                foldM (extractPosition e etgp (dir front))
                  (seq 0 (getCardinality (pl e))) hc)
              (etgs (pl e)) hc
        end)
      (getAdjList n) hc) g hc.

End Extraction.

End Optim.

(** * Properties of the grid graph *)

(** ** Keys, payloads and the fields an operation leaves alone *)

Lemma ekey_comm (a b : GridNode) : ekey a b = ekey b a.
Proof.
  unfold ekey.
  destruct (Pos.leb_spec (encode a) (encode b)) as [H1|H1],
    (Pos.leb_spec (encode b) (encode a)) as [H2|H2];
    try done; try lia.
  assert (encode a = encode b) as Heq by lia.
  by apply (inj encode) in Heq as ->.
Qed.

Lemma ekey_eq (a b c d : GridNode) :
  ekey a b = ekey c d → (a = c ∧ b = d) ∨ (a = d ∧ b = c).
Proof. unfold ekey. repeat case_match; naive_solver. Qed.

Lemma close_close (o : option GridEdgePL) : close <$> (close <$> o) = close <$> o.
Proof. by destruct o. Qed.

Lemma open_open (o : option GridEdgePL) : open <$> (open <$> o) = open <$> o.
Proof. by destruct o. Qed.

(** Two graphs with the same spatial index answer every node query alike. *)
Definition same_index (g g' : GridGraph) : Prop :=
  getXWidth g' = getXWidth g ∧ getYHeight g' = getYHeight g
  ∧ _grid g' = _grid g.

Lemma same_index_refl (g : GridGraph) : same_index g g.
Proof. by repeat split. Qed.

Lemma same_index_trans (g1 g2 g3 : GridGraph) :
  same_index g1 g2 → same_index g2 g3 → same_index g1 g3.
Proof. intros (?&?&?) (?&?&?). repeat split; congruence. Qed.

Lemma getNode_same_index (g g' : GridGraph) (x y : Z) :
  same_index g g' → getNode g' x y = getNode g x y.
Proof. intros (HW&HH&HG). unfold getNode. by rewrite HW, HH, HG. Qed.

Lemma getNeighbor_same_index (g g' : GridGraph) (x y i : Z) :
  same_index g g' → getNeighbor g' x y i = getNeighbor g x y i.
Proof.
  intros H. unfold getNeighbor. destruct (dirOff i).
  by apply getNode_same_index.
Qed.

Lemma same_index_modEdg (g : GridGraph) a b f : same_index g (modEdg a b f g).
Proof. by repeat split. Qed.

Lemma same_index_setClosed (g : GridGraph) n b :
  same_index g (setClosed n b g).
Proof. by repeat split. Qed.

Lemma edgs_modEdg (g : GridGraph) a b f k :
  edgs (modEdg a b f g) !! k
  = if decide (k = ekey a b) then f <$> edgs g !! k else edgs g !! k.
Proof.
  unfold modEdg; simpl. case_decide as Hk.
  - subst k. by rewrite lookup_alter_eq.
  - by rewrite lookup_alter_ne.
Qed.

Lemma isClosed_setClosed (g : GridGraph) n b m :
  isClosed (setClosed n b g) m
  = if decide (m = n) then (if decide (is_Some (nds g !! n)) then b else false)
    else isClosed g m.
Proof.
  unfold isClosed, setClosed; simpl. case_decide as Hm.
  - subst m. rewrite lookup_alter_eq.
    by destruct (nds g !! n).
  - by rewrite lookup_alter_ne.
Qed.

Lemma nds_setClosed_ne (g : GridGraph) n b m :
  m ≠ n → nds (setClosed n b g) !! m = nds g !! m.
Proof. intros Hm. unfold setClosed; simpl. by rewrite lookup_alter_ne. Qed.

Lemma foldl_invariant {A B : Type} (P : B → Prop) (f : B → A → B)
    (l : list A) (b : B) :
  P b → (∀ b a, a ∈ l → P b → P (f b a)) → P (foldl f b l).
Proof.
  revert b. induction l as [|a l IH]; intros b Hb Hstep; simpl; [done|].
  apply IH.
  - apply Hstep; [left | done].
  - intros b' a' Ha'. apply Hstep. by right.
Qed.

Lemma foldM_invariant {A S : Type} (P : S → Prop) (f : A → S → option S)
    (l : list A) :
  (∀ a s s', a ∈ l → P s → f a s = Some s' → P s') →
  ∀ s s', P s → foldM f l s = Some s' → P s'.
Proof.
  induction l as [|a l IH]; intros Hstep s s' Hs Hf; simpl in Hf.
  - by simplify_eq.
  - destruct (f a s) as [s1|] eqn:E; [|done].
    apply (IH (fun a' s0 s0' Ha' => Hstep a' s0 s0' (list_elem_of_further _ _ _ Ha')) s1 s');
      [|done].
    apply (Hstep a s s1); [by left|done..].
Qed.

(** ** closeNode and openNode, edge by edge *)

(** What an operation centred on node [n] may do to the edge stored under
    key [k]: leave it, or apply [f] to it when it ends in a port of [n]. *)
Definition touched (f : GridEdgePL → GridEdgePL) (n : GridNode)
    (g g' : GridGraph) : Prop :=
  ∀ k, edgs g' !! k = edgs g !! k
       ∨ ((∃ i m, k = ekey (getPort n i) m)
          ∧ edgs g' !! k = f <$> (edgs g !! k)).

Lemma touched_refl f n g : touched f n g g.
Proof. intros k. by left. Qed.

Lemma touched_edgs f n g g1 g2 :
  edgs g2 = edgs g1 → touched f n g g1 → touched f n g g2.
Proof. intros H HT k. rewrite H. apply HT. Qed.

Lemma touched_modEdg f n g g' i m :
  (∀ o : option GridEdgePL, f <$> (f <$> o) = f <$> o) →
  touched f n g g' → touched f n g (modEdg (getPort n i) m f g').
Proof.
  intros Hf HT k. rewrite edgs_modEdg. case_decide as Hk; [|apply HT].
  right. split; [subst k; eauto|].
  destruct (HT k) as [->|[_ ->]]; [done|by rewrite Hf].
Qed.

Lemma edgs_setClosed (g : GridGraph) n b : edgs (setClosed n b g) = edgs g.
Proof. reflexivity. Qed.

Lemma nds_modEdg (g : GridGraph) a b f : nds (modEdg a b f g) = nds g.
Proof. reflexivity. Qed.

Lemma closeNode_loop (n : GridNode) (x y : Z) (g : GridGraph) (l : list Z) :
  let g' := foldl (closeNodeStep n x y) g l in
  same_index g g' ∧ touched close n g g' ∧ nds g' = nds g.
Proof.
  apply (foldl_invariant
    (fun g' => same_index g g' ∧ touched close n g g' ∧ nds g' = nds g)).
  - split; [apply same_index_refl|]. split; [apply touched_refl|done].
  - intros g' i _ (HI & HT & HN). unfold closeNodeStep.
    destruct (getNeighbor g' x y i) as [neigh|]; [|done].
    split; [eapply same_index_trans; [exact HI|apply same_index_modEdg]|].
    split; [|by rewrite nds_modEdg].
    apply touched_modEdg; [apply close_close|done].
Qed.

Lemma closeNode_spec (g : GridGraph) (n : GridNode) :
  same_index g (closeNode g n)
  ∧ touched close n g (closeNode g n)
  ∧ (∀ m, m ≠ n → nds (closeNode g n) !! m = nds g !! m)
  ∧ (is_Some (nds g !! n) → isClosed (closeNode g n) n = true).
Proof.
  unfold closeNode. destruct (isClosed g n) eqn:Hc.
  { split; [apply same_index_refl|]. split; [apply touched_refl|]. done. }
  destruct (getNodeCoords n) as [x y].
  destruct (closeNode_loop n x y g dirs) as (HI & HT & HN).
  revert HI HT HN. generalize (foldl (closeNodeStep n x y) g dirs).
  intros g' HI HT HN.
  split; [eapply same_index_trans; [exact HI|apply same_index_setClosed]|].
  split; [by eapply touched_edgs; [apply edgs_setClosed|]|]. split.
  - intros m Hm. rewrite nds_setClosed_ne by done. by rewrite HN.
  - intros Hpl. rewrite isClosed_setClosed, decide_True by done.
    rewrite HN. by destruct Hpl as [? ->].
Qed.

Lemma openNode_loop (n : GridNode) (x y : Z) (g : GridGraph) (l : list Z) :
  let g' := foldl (openNodeStep n x y) g l in
  same_index g g' ∧ touched open n g g'
  ∧ (∀ k e, edgs g !! k = Some e → getResEdges e ≠ [] →
            edgs g' !! k = Some e)
  ∧ nds g' = nds g.
Proof.
  apply (foldl_invariant
    (fun g' => same_index g g' ∧ touched open n g g'
               ∧ (∀ k e, edgs g !! k = Some e → getResEdges e ≠ [] →
                         edgs g' !! k = Some e)
               ∧ nds g' = nds g)).
  - split; [apply same_index_refl|]. split; [apply touched_refl|done].
  - intros g' i _ (HI & HT & HR & HN). unfold openNodeStep.
    destruct (getNeighbor g' x y i) as [neigh|]; [|done].
    destruct (isClosed g' neigh); [done|].
    destruct (getEdg g' _ _) as [e'|] eqn:He'; [|done].
    destruct (Nat.eqb_spec (length (getResEdges e')) 0) as [Hlen|]; [|done].
    split; [eapply same_index_trans; [exact HI|apply same_index_modEdg]|].
    split; [apply touched_modEdg; [apply open_open|done]|].
    split; [|by rewrite nds_modEdg].
    intros k e Hk Hres. rewrite edgs_modEdg. case_decide as Hk'.
    + subst k. unfold getEdg in He'. rewrite (HR _ _ Hk Hres) in He'.
      simplify_eq. by destruct (getResEdges e').
    + by apply HR.
Qed.

Lemma openNode_spec (g : GridGraph) (n : GridNode) :
  same_index g (openNode g n)
  ∧ touched open n g (openNode g n)
  ∧ (∀ k e, edgs g !! k = Some e → getResEdges e ≠ [] →
            edgs (openNode g n) !! k = Some e)
  ∧ (∀ m, m ≠ n → nds (openNode g n) !! m = nds g !! m).
Proof.
  unfold openNode. destruct (isClosed g n) eqn:Hc; cbn [negb].
  2:{ split; [apply same_index_refl|]. split; [apply touched_refl|]. done. }
  destruct (getNodeCoords n) as [x y].
  destruct (openNode_loop n x y g dirs) as (HI & HT & HR & HN).
  revert HI HT HR HN. generalize (foldl (openNodeStep n x y) g dirs).
  intros g' HI HT HR HN.
  split; [eapply same_index_trans; [exact HI|apply same_index_setClosed]|].
  split; [by eapply touched_edgs; [apply edgs_setClosed|]|].
  split; [intros k e Hk Hres; rewrite edgs_setClosed; by apply HR|].
  intros m Hm. rewrite nds_setClosed_ne by done. by rewrite HN.
Qed.

(** ** Directions and neighbours *)

Lemma wrap_small (z : Z) : 0 ≤ z < SIZE_MOD → wrap z = z.
Proof. intros H. unfold wrap. by apply Z.mod_small. Qed.

Lemma wrap_minus_one : wrap (-1) = SIZE_MOD - 1.
Proof. reflexivity. Qed.

Lemma dirs_spec (i : Z) : i ∈ dirs ↔ 0 ≤ i < 8.
Proof. unfold dirs. rewrite elem_of_seqZ. lia. Qed.

Lemma dirs_NoDup : NoDup dirs.
Proof. apply NoDup_seqZ. Qed.

Lemma dir_cases (i : Z) :
  0 ≤ i < 8 →
  i = 0 ∨ i = 1 ∨ i = 2 ∨ i = 3 ∨ i = 4 ∨ i = 5 ∨ i = 6 ∨ i = 7.
Proof. lia. Qed.

Ltac each_dir i H :=
  let C := fresh in
  pose proof (dir_cases i H) as C;
  repeat (destruct C as [C|C]); subst i.

Lemma dirOff_range (i : Z) :
  -1 ≤ (dirOff i).1 ≤ 1 ∧ -1 ≤ (dirOff i).2 ≤ 1.
Proof. unfold dirOff. repeat case_match; simpl; lia. Qed.

Lemma dirOff_inj (i j : Z) :
  0 ≤ i < 8 → 0 ≤ j < 8 → dirOff i = dirOff j → i = j.
Proof.
  intros Hi Hj. each_dir i Hi; each_dir j Hj; vm_compute; congruence.
Qed.

Lemma dirOff_nonzero (i : Z) : 0 ≤ i < 8 → dirOff i ≠ (0, 0).
Proof. intros Hi. each_dir i Hi; vm_compute; congruence. Qed.

Lemma dirOff_opposite (i : Z) :
  0 ≤ i < 8 →
  dirOff ((i + 4) mod 8) = (- (dirOff i).1, - (dirOff i).2).
Proof. intros Hi. each_dir i Hi; reflexivity. Qed.

Definition in_grid (g : GridGraph) (x y : Z) : Prop :=
  0 ≤ x < getXWidth g ∧ 0 ≤ y < getYHeight g.

(** The spatial index of a grid: its size fits [size_t] and it holds the
    center of every cell. *)
Record indexed (g : GridGraph) : Prop := {
  idx_W : 0 ≤ getXWidth g < SIZE_MOD;
  idx_H : 0 ≤ getYHeight g < SIZE_MOD;
  idx_grid : ∀ x y, in_grid g x y → _grid g !! (x, y) = Some (Center x y)
}.

(** A neighbour that is found lies in the grid, at the offset of the
    direction; nothing wrapped around. *)
Lemma getNeighbor_Some_indexed (g : GridGraph) (cx cy i : Z) (nb : GridNode) :
  indexed g → in_grid g cx cy → getNeighbor g cx cy i = Some nb →
  nb = Center (cx + (dirOff i).1) (cy + (dirOff i).2)
  ∧ in_grid g (cx + (dirOff i).1) (cy + (dirOff i).2).
Proof.
  intros Hwf [Hx Hy] H. unfold getNeighbor in H.
  pose proof (dirOff_range i) as [Hdx Hdy].
  destruct (dirOff i) as [dx dy]; simpl in *.
  pose proof (idx_W g Hwf) as HW. pose proof (idx_H g Hwf) as HH.
  unfold getNode in H.
  destruct (orb _ _) eqn:Hb; [done|].
  apply orb_false_iff in Hb as [Hb1 Hb2].
  apply Z.leb_gt in Hb1, Hb2.
  assert (0 ≤ cx + dx < getXWidth g) as Hx'.
  { destruct (decide (cx + dx = -1)) as [E|E].
    - rewrite E, wrap_minus_one in Hb1. lia.
    - rewrite wrap_small in Hb1 by lia. lia. }
  assert (0 ≤ cy + dy < getYHeight g) as Hy'.
  { destruct (decide (cy + dy = -1)) as [E|E].
    - rewrite E, wrap_minus_one in Hb2. lia.
    - rewrite wrap_small in Hb2 by lia. lia. }
  rewrite !wrap_small in H by lia.
  rewrite (idx_grid g Hwf) in H by done. by simplify_eq.
Qed.

(** Conversely the neighbour is found whenever the offset stays inside. *)
Lemma getNeighbor_in_grid_indexed (g : GridGraph) (cx cy i : Z) :
  indexed g → in_grid g (cx + (dirOff i).1) (cy + (dirOff i).2) →
  getNeighbor g cx cy i
  = Some (Center (cx + (dirOff i).1) (cy + (dirOff i).2)).
Proof.
  intros Hwf [Hx Hy]. unfold getNeighbor.
  destruct (dirOff i) as [dx dy]; simpl in *.
  pose proof (idx_W g Hwf) as HW. pose proof (idx_H g Hwf) as HH.
  rewrite !wrap_small by lia. unfold getNode.
  destruct (Z.leb_spec (getXWidth g) (cx + dx)); [lia|].
  destruct (Z.leb_spec (getYHeight g) (cy + dy)); [lia|]. simpl.
  by apply (idx_grid g Hwf).
Qed.

(** A grid as the constructor leaves it and the operations keep it: the
    index holds the center of every cell, and the traversal edges are those
    between mirrored ports of neighbouring cells. *)
Record wf (g : GridGraph) : Prop := {
  wf_W : 0 ≤ getXWidth g < SIZE_MOD;
  wf_H : 0 ≤ getYHeight g < SIZE_MOD;
  wf_grid : ∀ x y, in_grid g x y → _grid g !! (x, y) = Some (Center x y);
  wf_nds : ∀ x y, in_grid g x y → is_Some (nds g !! Center x y);
  wf_edge : ∀ x y i n',
    in_grid g x y → 0 ≤ i < 8 → getNeighbor g x y i = Some n' →
    is_Some (getEdg g (Port x y i) (getPort n' ((i + 4) mod 8)));
  wf_only : ∀ x y i x' y',
    in_grid g x y → in_grid g x' y' → (x, y) ≠ (x', y') → 0 ≤ i < 8 →
    is_Some (getEdg g (Port x y i) (Port x' y' ((i + 4) mod 8))) →
    getNeighbor g x y i = Some (Center x' y')
}.

Lemma wf_indexed (g : GridGraph) : wf g → indexed g.
Proof. intros H. split; apply H. Qed.

Lemma getNeighbor_Some (g : GridGraph) (cx cy i : Z) (nb : GridNode) :
  wf g → in_grid g cx cy → getNeighbor g cx cy i = Some nb →
  nb = Center (cx + (dirOff i).1) (cy + (dirOff i).2)
  ∧ in_grid g (cx + (dirOff i).1) (cy + (dirOff i).2).
Proof. intros Hwf. by apply getNeighbor_Some_indexed, wf_indexed. Qed.

Lemma getNeighbor_in_grid (g : GridGraph) (cx cy i : Z) :
  wf g → in_grid g (cx + (dirOff i).1) (cy + (dirOff i).2) →
  getNeighbor g cx cy i
  = Some (Center (cx + (dirOff i).1) (cy + (dirOff i).2)).
Proof. intros Hwf. by apply getNeighbor_in_grid_indexed, wf_indexed. Qed.

Lemma getNeighbor_neq_self (g : GridGraph) (x y i : Z) (nb : GridNode) :
  wf g → in_grid g x y → 0 ≤ i < 8 → getNeighbor g x y i = Some nb →
  getNodeCoords nb ≠ (x, y).
Proof.
  intros Hwf Hin Hi H.
  destruct (getNeighbor_Some g x y i nb Hwf Hin H) as [-> _].
  unfold getNodeCoords.
  pose proof (dirOff_nonzero i Hi). destruct (dirOff i) as [dx dy].
  cbn [fst snd]. intros E. injection E as E1 E2.
  assert (dx = 0) by lia. assert (dy = 0) by lia. congruence.
Qed.

Lemma getNeighbor_inj (g : GridGraph) (x y i j : Z) (nb : GridNode) :
  wf g → in_grid g x y → 0 ≤ i < 8 → 0 ≤ j < 8 →
  getNeighbor g x y i = Some nb → getNeighbor g x y j = Some nb → i = j.
Proof.
  intros Hwf Hin Hi Hj H1 H2.
  destruct (getNeighbor_Some g x y i nb Hwf Hin H1) as [-> _].
  destruct (getNeighbor_Some g x y j _ Hwf Hin H2) as [E _].
  apply dirOff_inj; [done..|].
  destruct (dirOff i), (dirOff j); simpl in *. injection E as E1 E2.
  f_equal; lia.
Qed.

(** The shape of a grid: what queries about nodes and about the presence of
    edges depend on.  Operations on costs and flags keep it. *)
Definition same_shape (g g' : GridGraph) : Prop :=
  same_index g g'
  ∧ (∀ n, is_Some (nds g' !! n) ↔ is_Some (nds g !! n))
  ∧ (∀ k, is_Some (edgs g' !! k) ↔ is_Some (edgs g !! k)).

Lemma same_shape_refl (g : GridGraph) : same_shape g g.
Proof. split; [apply same_index_refl|]. by split. Qed.

Lemma same_shape_trans (g1 g2 g3 : GridGraph) :
  same_shape g1 g2 → same_shape g2 g3 → same_shape g1 g3.
Proof.
  intros (HI & HN & HE) (HI' & HN' & HE').
  split; [by eapply same_index_trans|].
  split; intros ?; [rewrite HN'|rewrite HE']; done.
Qed.

Lemma wf_same_shape (g g' : GridGraph) : wf g → same_shape g g' → wf g'.
Proof.
  intros Hwf (HI & HN & HE).
  pose proof HI as (HW & HH & HG).
  assert (∀ x y, in_grid g' x y ↔ in_grid g x y) as Hin.
  { intros x y. unfold in_grid. by rewrite HW, HH. }
  split.
  - rewrite HW. apply Hwf.
  - rewrite HH. apply Hwf.
  - intros x y ?%Hin. rewrite HG. by apply Hwf.
  - intros x y ?%Hin. rewrite HN. by apply Hwf.
  - intros x y i n' ?%Hin Hi Hnb.
    rewrite (getNeighbor_same_index g g') in Hnb by done.
    unfold getEdg. rewrite HE. by apply (wf_edge g Hwf).
  - intros x y i x' y' ?%Hin ?%Hin Hne Hi He.
    rewrite (getNeighbor_same_index g g') by done.
    unfold getEdg in He. rewrite HE in He. by apply (wf_only g Hwf).
Qed.

Lemma same_shape_modEdg (g : GridGraph) a b f : same_shape g (modEdg a b f g).
Proof.
  split; [apply same_index_modEdg|]. split; [done|].
  intros k. rewrite edgs_modEdg. case_decide; [|done].
  by rewrite fmap_is_Some.
Qed.

Lemma touched_same_edges f n g g' :
  touched f n g g' → ∀ k, is_Some (edgs g' !! k) ↔ is_Some (edgs g !! k).
Proof.
  intros HT k. destruct (HT k) as [->|[_ ->]]; [done|].
  by rewrite fmap_is_Some.
Qed.

Lemma same_nodes_alter (m : gmap GridNode GridNodePL) f n k :
  is_Some (alter f n m !! k) ↔ is_Some (m !! k).
Proof.
  destruct (decide (k = n)) as [->|].
  - by rewrite lookup_alter_eq, fmap_is_Some.
  - by rewrite lookup_alter_ne.
Qed.

Lemma same_shape_closeNode (g : GridGraph) (n : GridNode) :
  same_shape g (closeNode g n).
Proof.
  destruct (closeNode_spec g n) as (HI & HT & HN & _).
  split; [done|]. split; [|by eapply touched_same_edges].
  intros m. destruct (decide (m = n)) as [->|]; [|by rewrite HN].
  unfold closeNode. destruct (isClosed g n); [done|].
  destruct (getNodeCoords n) as [x y].
  destruct (closeNode_loop n x y g dirs) as (_ & _ & HN').
  revert HN'. generalize (foldl (closeNodeStep n x y) g dirs).
  intros g' HN'. unfold setClosed; simpl.
  by rewrite same_nodes_alter, HN'.
Qed.

Lemma same_shape_openNode (g : GridGraph) (n : GridNode) :
  same_shape g (openNode g n).
Proof.
  destruct (openNode_spec g n) as (HI & HT & _ & HN).
  split; [done|]. split; [|by eapply touched_same_edges].
  intros m. destruct (decide (m = n)) as [->|]; [|by rewrite HN].
  unfold openNode. destruct (isClosed g n); [|done]. cbn [negb].
  destruct (getNodeCoords n) as [x y].
  destruct (openNode_loop n x y g dirs) as (_ & _ & _ & HN').
  revert HN'. generalize (foldl (openNodeStep n x y) g dirs).
  intros g' HN'. unfold setClosed; simpl.
  by rewrite same_nodes_alter, HN'.
Qed.

(** ** Cost vectors and doubles *)

Lemma sub_zero_r (x : float) : (x - 0)%float = x.
Proof.
  apply Prim2SF_inj. rewrite sub_spec.
  change (Prim2SF 0%float) with (S754_zero false).
  destruct (Prim2SF x) as [[]| [] | | [] m e]; reflexivity.
Qed.

Lemma nc_get_set_eq (c : NodeCost) (i : Z) (v : float) :
  0 ≤ i < Z.of_nat (length c) → nc_get (nc_set c i v) i = v.
Proof.
  intros Hi. unfold nc_get, nc_set, NodeCost in *.
  rewrite list_lookup_insert_eq by lia. done.
Qed.

Lemma nc_get_set_ne (c : NodeCost) (i j : Z) (v : float) :
  0 ≤ i → 0 ≤ j → i ≠ j → nc_get (nc_set c i v) j = nc_get c j.
Proof.
  intros Hi Hj Hne. unfold nc_get, nc_set, NodeCost in *.
  rewrite list_lookup_insert_ne by lia. done.
Qed.

Lemma length_nc_set (c : NodeCost) (i : Z) (v : float) :
  length (nc_set c i v) = length c.
Proof. apply length_insert. Qed.

(** ** What a cost vector does to one traversal edge *)

(** The change that slot value [c] makes to the edge of its direction. *)
Definition addEffect (c : float) (e : GridEdgePL) : GridEdgePL :=
  if (c <? -1)%float then close e else setCost (rawCost e + c)%float e.

(** The slot of the inverse vector. *)
Definition invSlot (c : float) (e : GridEdgePL) : float :=
  if (c <? -1)%float then (if closed e then 0%float else c) else c.

(** The change that slot value [c] of the inverse vector makes on removal. *)
Definition removeEffect (c : float) (e : GridEdgePL) : GridEdgePL :=
  if (c <? -1)%float then open e else setCost (rawCost e - c)%float e.

Lemma close_closed (e : GridEdgePL) : closed e = true → close e = e.
Proof. destruct e; simpl; by intros ->. Qed.

Lemma open_close (e : GridEdgePL) : closed e = false → open (close e) = e.
Proof. destruct e; simpl; by intros ->. Qed.

Lemma key_of_port (a b n m : GridNode) (j : Z) :
  ekey a b = ekey (getPort n j) m →
  getNodeCoords a = getNodeCoords n ∨ getNodeCoords b = getNodeCoords n.
Proof.
  intros [[-> _]|[_ ->]]%ekey_eq; [left|right]; by destruct n.
Qed.

(** The edges of two different directions of one cell have different keys,
    and the edge of one direction does not end in the neighbour of the
    other. *)
Lemma key_other_dir (g : GridGraph) (x y d i dd ii : Z) (nbd nbi : GridNode) :
  wf g → in_grid g x y → 0 ≤ d < 8 → 0 ≤ i < 8 → d ≠ i →
  getNeighbor g x y d = Some nbd → getNeighbor g x y i = Some nbi →
  ekey (Port x y d) (getPort nbd dd) ≠ ekey (Port x y i) (getPort nbi ii)
  ∧ ∀ j m, ekey (Port x y d) (getPort nbd dd) ≠ ekey (getPort nbi j) m.
Proof.
  intros Hwf Hin Hd Hi Hne Hnd Hni.
  pose proof (getNeighbor_neq_self g x y i nbi Hwf Hin Hi Hni) as Hself.
  assert (getNodeCoords nbd ≠ getNodeCoords nbi) as Hdiff.
  { intros E. apply Hne.
    destruct (getNeighbor_Some g x y d nbd Hwf Hin Hnd) as [-> _].
    destruct (getNeighbor_Some g x y i nbi Hwf Hin Hni) as [-> _].
    apply dirOff_inj; [done..|].
    unfold getNodeCoords in E. destruct (dirOff d), (dirOff i).
    cbn [fst snd] in E. injection E as E1 E2. f_equal; lia. }
  assert (∀ n k, getNodeCoords (getPort n k) = getNodeCoords n) as Hport.
  { by intros [] ?. }
  split.
  - intros [[E _]|[E _]]%ekey_eq.
    + injection E as E. done.
    + apply (f_equal getNodeCoords) in E. rewrite Hport in E. done.
  - intros j m [E|E]%key_of_port.
    + done.
    + rewrite Hport in E. done.
Qed.

Section CostVector.

Context (x y : Z) (addC : NodeCost).

Let n := Center x y.

Lemma addCostStep_spec (g : GridGraph) (inv : NodeCost) (i : Z) :
  wf g → in_grid g x y → 0 ≤ i < 8 → length inv = 8%nat →
  ∃ g' inv',
    addCostStep n addC i (g, inv) = Some (g', inv')
    ∧ same_shape g g' ∧ length inv' = 8%nat
    ∧ ∀ d nb e, 0 ≤ d < 8 → getNeighbor g x y d = Some nb →
        getEdg g (Port x y d) (getPort nb ((d + 4) mod 8)) = Some e →
        getEdg g' (Port x y d) (getPort nb ((d + 4) mod 8))
        = Some (if decide (d = i) then addEffect (nc_get addC d) e else e)
        ∧ nc_get inv' d
          = if decide (d = i) then invSlot (nc_get addC d) e
            else nc_get inv d.
Proof.
  intros Hwf Hin Hi Hlen. unfold addCostStep. cbn [n getNodeCoords getPort].
  destruct (getNeighbor g x y i) as [nbi|] eqn:Hnbi.
  2:{ exists g, inv. split; [done|]. split; [apply same_shape_refl|].
      split; [done|]. intros d nb e Hd Hnb He.
      case_decide; [simplify_eq|done]. }
  destruct (wf_edge g Hwf x y i nbi Hin Hi Hnbi) as [ei Hei].
  rewrite Hei. cbn [mbind option_bind].
  assert (∀ d nb, 0 ≤ d < 8 → d ≠ i → getNeighbor g x y d = Some nb →
            ∀ g', (∀ k, k ≠ ekey (Port x y i) (getPort nbi ((i + 4) mod 8)) →
                        (∀ j m, k ≠ ekey (getPort nbi j) m) →
                        edgs g' !! k = edgs g !! k) →
            getEdg g' (Port x y d) (getPort nb ((d + 4) mod 8))
            = getEdg g (Port x y d) (getPort nb ((d + 4) mod 8))) as Hframe.
  { intros d nb Hd Hne Hnb g' Hg'.
    destruct (key_other_dir g x y d i ((d + 4) mod 8) ((i + 4) mod 8)
                nb nbi Hwf Hin Hd Hi Hne Hnb Hnbi) as [K1 K2].
    unfold getEdg. by apply Hg'. }
  destruct (nc_get addC i <? -1)%float eqn:Hc.
  - destruct (closed ei) eqn:Hcl.
    + exists g, (nc_set inv i 0%float).
      split; [done|]. split; [apply same_shape_refl|].
      split; [by rewrite length_nc_set|].
      intros d nb e Hd Hnb He. case_decide as Hdi.
      * subst d. assert (nb = nbi) as -> by congruence.
        assert (e = ei) as -> by congruence. unfold addEffect, invSlot.
        rewrite Hc, Hcl, close_closed by done.
        split; [done|]. apply nc_get_set_eq. lia.
      * split; [done|]. apply nc_get_set_ne; lia.
    + rewrite (getNeighbor_same_index g) by apply same_index_modEdg.
      rewrite Hnbi. cbn [mbind option_bind].
      set (g1 := modEdg (Port x y i) (getPort nbi ((i + 4) mod 8)) close g).
      destruct (closeNode_spec g1 nbi) as (_ & HT & _).
      exists (closeNode g1 nbi), (nc_set inv i (nc_get addC i)).
      split; [done|].
      split; [eapply same_shape_trans;
              [apply same_shape_modEdg|apply same_shape_closeNode]|].
      split; [by rewrite length_nc_set|].
      intros d nb e Hd Hnb He. case_decide as Hdi.
      * subst d. assert (nb = nbi) as -> by congruence.
        assert (e = ei) as -> by congruence. unfold addEffect, invSlot. rewrite Hc, Hcl.
        split; [|apply nc_get_set_eq; lia].
        unfold getEdg in *.
        assert (edgs g1 !! ekey (Port x y i) (getPort nbi ((i + 4) mod 8))
                = Some (close ei)) as E1.
        { unfold g1. rewrite edgs_modEdg, decide_True by done.
          by rewrite He. }
        destruct (HT (ekey (Port x y i) (getPort nbi ((i + 4) mod 8))))
          as [->|[_ ->]]; by rewrite E1.
      * split; [|apply nc_get_set_ne; lia].
        rewrite <- He. apply (Hframe d nb Hd Hdi Hnb).
        intros k Hk1 Hk2. destruct (HT k) as [->|[(j & m & ->) _]].
        -- unfold g1. by rewrite edgs_modEdg, decide_False.
        -- by destruct (Hk2 j m).
  - eexists _, _. split; [done|].
    split; [apply same_shape_modEdg|]. split; [by rewrite length_nc_set|].
    intros d nb e Hd Hnb He. case_decide as Hdi.
    + subst d. assert (nb = nbi) as -> by congruence.
        assert (e = ei) as -> by congruence. unfold addEffect, invSlot. rewrite Hc.
      split; [|apply nc_get_set_eq; lia].
      unfold getEdg in *. rewrite edgs_modEdg, decide_True by done.
      by rewrite He.
    + split; [|apply nc_get_set_ne; lia].
      rewrite <- He. apply (Hframe d nb Hd Hdi Hnb).
      intros k Hk1 Hk2. by rewrite edgs_modEdg, decide_False.
Qed.

Lemma addCost_loop (l : list Z) :
  ∀ (g : GridGraph) (inv : NodeCost),
  wf g → in_grid g x y → (∀ i, i ∈ l → 0 ≤ i < 8) → NoDup l →
  length inv = 8%nat →
  ∃ g' inv',
    foldM (addCostStep n addC) l (g, inv) = Some (g', inv')
    ∧ same_shape g g' ∧ length inv' = 8%nat
    ∧ ∀ d nb e, 0 ≤ d < 8 → getNeighbor g x y d = Some nb →
        getEdg g (Port x y d) (getPort nb ((d + 4) mod 8)) = Some e →
        getEdg g' (Port x y d) (getPort nb ((d + 4) mod 8))
        = Some (if decide (d ∈ l) then addEffect (nc_get addC d) e else e)
        ∧ nc_get inv' d
          = if decide (d ∈ l) then invSlot (nc_get addC d) e
            else nc_get inv d.
Proof.
  induction l as [|i l IH]; intros g inv Hwf Hin Hl Hnd Hlen.
  { exists g, inv. split; [done|]. split; [apply same_shape_refl|].
    split; [done|]. intros d nb e _ _ He.
    rewrite !decide_False by apply not_elem_of_nil. done. }
  apply NoDup_cons in Hnd as [Hi Hnd].
  destruct (addCostStep_spec g inv i Hwf Hin) as (g1 & inv1 & E1 & S1 & L1 & P1);
    [apply Hl; by left|done|].
  assert (wf g1) as Hwf1 by (by eapply wf_same_shape).
  assert (in_grid g1 x y) as Hin1.
  { destruct S1 as ((HW & HH & _) & _). unfold in_grid. by rewrite HW, HH. }
  destruct (IH g1 inv1 Hwf1 Hin1) as (g2 & inv2 & E2 & S2 & L2 & P2);
    [intros; apply Hl; by right|done..|].
  exists g2, inv2. cbn [foldM]. rewrite E1.
  split; [done|]. split; [by eapply same_shape_trans|]. split; [done|].
  intros d nb e Hd Hnb He.
  destruct (P1 d nb e Hd Hnb He) as [He1 Hi1].
  assert (getNeighbor g1 x y d = Some nb) as Hnb1.
  { rewrite (getNeighbor_same_index g); [done|apply S1]. }
  destruct (P2 d nb _ Hd Hnb1 He1) as [He2 Hi2].
  rewrite He2, Hi2, Hi1. clear -Hi.
  destruct (decide (d = i)) as [E|Hne], (decide (d ∈ l)) as [Hdl|Hdl],
    (decide (d ∈ i :: l)) as [Hc|Hc];
    try done; subst; try done; exfalso; rewrite elem_of_cons in Hc; tauto.
Qed.

Lemma removeCostStep_spec (g : GridGraph) (i : Z) :
  wf g → in_grid g x y → 0 ≤ i < 8 →
  ∃ g',
    removeCostStep n addC i g = Some g'
    ∧ same_shape g g'
    ∧ ∀ d nb e, 0 ≤ d < 8 → getNeighbor g x y d = Some nb →
        getEdg g (Port x y d) (getPort nb ((d + 4) mod 8)) = Some e →
        getEdg g' (Port x y d) (getPort nb ((d + 4) mod 8))
        = Some (if decide (d = i) then removeEffect (nc_get addC d) e
                else e).
Proof.
  intros Hwf Hin Hi. unfold removeCostStep. cbn [n getNodeCoords getPort].
  destruct (getNeighbor g x y i) as [nbi|] eqn:Hnbi.
  2:{ exists g. split; [done|]. split; [apply same_shape_refl|].
      intros d nb e Hd Hnb He. case_decide; [congruence|done]. }
  destruct (wf_edge g Hwf x y i nbi Hin Hi Hnbi) as [ei Hei].
  rewrite Hei. cbn [mbind option_bind].
  assert (∀ d nb, 0 ≤ d < 8 → d ≠ i → getNeighbor g x y d = Some nb →
            ∀ g', (∀ k, k ≠ ekey (Port x y i) (getPort nbi ((i + 4) mod 8)) →
                        (∀ j m, k ≠ ekey (getPort nbi j) m) →
                        edgs g' !! k = edgs g !! k) →
            getEdg g' (Port x y d) (getPort nb ((d + 4) mod 8))
            = getEdg g (Port x y d) (getPort nb ((d + 4) mod 8))) as Hframe.
  { intros d nb Hd Hne Hnb g' Hg'.
    destruct (key_other_dir g x y d i ((d + 4) mod 8) ((i + 4) mod 8)
                nb nbi Hwf Hin Hd Hi Hne Hnb Hnbi) as [K1 K2].
    unfold getEdg. by apply Hg'. }
  destruct (nc_get addC i <? -1)%float eqn:Hc.
  - rewrite (getNeighbor_same_index g) by apply same_index_modEdg.
    rewrite Hnbi. cbn [mbind option_bind].
    set (g1 := modEdg (Port x y i) (getPort nbi ((i + 4) mod 8)) open g).
    destruct (openNode_spec g1 nbi) as (_ & HT & _).
    exists (openNode g1 nbi). split; [done|].
    split; [eapply same_shape_trans;
            [apply same_shape_modEdg|apply same_shape_openNode]|].
    intros d nb e Hd Hnb He. case_decide as Hdi.
    + subst d. assert (nb = nbi) as -> by congruence.
      assert (e = ei) as -> by congruence.
      unfold removeEffect. rewrite Hc. unfold getEdg in *.
      assert (edgs g1 !! ekey (Port x y i) (getPort nbi ((i + 4) mod 8))
              = Some (open ei)) as E1.
      { unfold g1. rewrite edgs_modEdg, decide_True by done.
        by rewrite He. }
      destruct (HT (ekey (Port x y i) (getPort nbi ((i + 4) mod 8))))
        as [->|[_ ->]]; by rewrite E1.
    + rewrite <- He. apply (Hframe d nb Hd Hdi Hnb).
      intros k Hk1 Hk2. destruct (HT k) as [->|[(j & m & ->) _]].
      * unfold g1. by rewrite edgs_modEdg, decide_False.
      * by destruct (Hk2 j m).
  - eexists. split; [done|]. split; [apply same_shape_modEdg|].
    intros d nb e Hd Hnb He. case_decide as Hdi.
    + subst d. assert (nb = nbi) as -> by congruence.
      assert (e = ei) as -> by congruence.
      unfold removeEffect. rewrite Hc.
      unfold getEdg in *. rewrite edgs_modEdg, decide_True by done.
      by rewrite He.
    + rewrite <- He. apply (Hframe d nb Hd Hdi Hnb).
      intros k Hk1 Hk2. by rewrite edgs_modEdg, decide_False.
Qed.

Lemma removeCost_loop (l : list Z) :
  ∀ (g : GridGraph),
  wf g → in_grid g x y → (∀ i, i ∈ l → 0 ≤ i < 8) → NoDup l →
  ∃ g',
    foldM (removeCostStep n addC) l g = Some g'
    ∧ same_shape g g'
    ∧ ∀ d nb e, 0 ≤ d < 8 → getNeighbor g x y d = Some nb →
        getEdg g (Port x y d) (getPort nb ((d + 4) mod 8)) = Some e →
        getEdg g' (Port x y d) (getPort nb ((d + 4) mod 8))
        = Some (if decide (d ∈ l) then removeEffect (nc_get addC d) e
                else e).
Proof.
  induction l as [|i l IH]; intros g Hwf Hin Hl Hnd.
  { exists g. split; [done|]. split; [apply same_shape_refl|].
    intros d nb e _ _ He.
    rewrite !decide_False by apply not_elem_of_nil. done. }
  apply NoDup_cons in Hnd as [Hi Hnd].
  destruct (removeCostStep_spec g i Hwf Hin) as (g1 & E1 & S1 & P1);
    [apply Hl; by left|].
  assert (wf g1) as Hwf1 by (by eapply wf_same_shape).
  assert (in_grid g1 x y) as Hin1.
  { destruct S1 as ((HW & HH & _) & _). unfold in_grid. by rewrite HW, HH. }
  destruct (IH g1 Hwf1 Hin1) as (g2 & E2 & S2 & P2);
    [intros; apply Hl; by right|done|].
  exists g2. cbn [foldM]. rewrite E1.
  split; [done|]. split; [by eapply same_shape_trans|].
  intros d nb e Hd Hnb He.
  pose proof (P1 d nb e Hd Hnb He) as He1.
  assert (getNeighbor g1 x y d = Some nb) as Hnb1.
  { rewrite (getNeighbor_same_index g); [done|apply S1]. }
  rewrite (P2 d nb _ Hd Hnb1 He1). clear -Hi.
  destruct (decide (d = i)) as [E|Hne], (decide (d ∈ l)) as [Hdl|Hdl],
    (decide (d ∈ i :: l)) as [Hc|Hc];
    try done; subst; try done; exfalso; rewrite elem_of_cons in Hc; tauto.
Qed.

End CostVector.

(** The net change a slot value makes to the edge of its direction when a
    vector is applied and its inverse removed. *)
Lemma removeEffect_addEffect (c : float) (e : GridEdgePL) :
  let e' := removeEffect (invSlot c e) (addEffect c e) in
  closed e' = closed e
  ∧ getResEdges e' = getResEdges e
  ∧ secondary e' = secondary e
  ∧ rawCost e'
    = (if (c <? -1)%float then rawCost e else (rawCost e + c - c)%float).
Proof.
  unfold removeEffect, invSlot, addEffect.
  destruct (c <? -1)%float eqn:Hc.
  - destruct (closed e) eqn:Hcl.
    + change (0 <? -1)%float with false. cbn [rawCost close setCost closed
        getResEdges secondary]. by rewrite sub_zero_r.
    + rewrite Hc. by rewrite open_close.
  - rewrite Hc. done.
Qed.

(** ** Committing a path: the pieces of balanceEdge *)

Lemma closeNode_frame (g : GridGraph) (n u v : GridNode) :
  getNodeCoords u ≠ getNodeCoords n → getNodeCoords v ≠ getNodeCoords n →
  edgs (closeNode g n) !! ekey u v = edgs g !! ekey u v.
Proof.
  intros Hu Hv. destruct (closeNode_spec g n) as (_ & HT & _).
  destruct (HT (ekey u v)) as [->|[(j & m & E) _]]; [done|].
  by apply key_of_port in E as [E|E].
Qed.

Lemma closeNode_rawCost (g : GridGraph) (n : GridNode) k :
  rawCost <$> edgs (closeNode g n) !! k = rawCost <$> edgs g !! k.
Proof.
  destruct (closeNode_spec g n) as (_ & HT & _).
  destruct (HT k) as [->|[_ ->]]; [done|]. by destruct (edgs g !! k).
Qed.

Lemma isClosed_closeNode_other (g : GridGraph) (n m : GridNode) :
  m ≠ n → isClosed (closeNode g n) m = isClosed g m.
Proof.
  intros Hm. destruct (closeNode_spec g n) as (_ & _ & HN & _).
  unfold isClosed. by rewrite HN.
Qed.

(** Both searches over the mirrored port pairs of two neighbouring cells stop
    at the direction from the first to the second. *)
Lemma edge_search (g : GridGraph) (x y i : Z) (nb : GridNode) (l : list Z) :
  wf g → in_grid g x y → 0 ≤ i < 8 → getNeighbor g x y i = Some nb →
  i ∈ l → (∀ j, j ∈ l → 0 ≤ j < 8) →
  getNEdge_from g (Center x y) nb l
  = Some (Port x y i, getPort nb ((i + 4) mod 8))
  ∧ balanceDir g (Center x y) nb l = i.
Proof.
  intros Hwf Hin Hi Hnb Hil Hl.
  destruct (wf_edge g Hwf x y i nb Hin Hi Hnb) as [e He].
  pose proof (getNeighbor_Some g x y i nb Hwf Hin Hnb) as [Enb Hin'].
  pose proof (getNeighbor_neq_self g x y i nb Hwf Hin Hi Hnb) as Hself.
  induction l as [|j l IH]; [by apply not_elem_of_nil in Hil|].
  cbn [getNEdge_from balanceDir getPort].
  destruct (decide (j = i)) as [->|Hji].
  { by rewrite He. }
  destruct (getEdg g (Port x y j) (getPort nb ((j + 4) mod 8))) eqn:Hj.
  - exfalso. apply Hji. subst nb. cbn [getPort getNodeCoords] in *.
    apply (getNeighbor_inj g x y j i
             (Center (x + (dirOff i).1) (y + (dirOff i).2)) Hwf Hin);
      [apply Hl; by left|done| |done].
    apply (wf_only g Hwf); [done|done|congruence|apply Hl; by left|].
    by rewrite Hj.
  - apply IH.
    + apply elem_of_cons in Hil as [?|?]; [congruence|done].
    + intros k Hk. apply Hl. by right.
Qed.

Lemma odd_dir_cases (d : Z) :
  0 ≤ d < 8 → Z.odd d = true → d = 1 ∨ d = 3 ∨ d = 5 ∨ d = 7.
Proof.
  intros Hd Hodd. each_dir d Hd; try discriminate Hodd; tauto.
Qed.

(** The two off-axis neighbours of a diagonal direction are themselves
    diagonal neighbours, two directions further round. *)
Lemma crossing_neighbor (g : GridGraph) (x y d : Z) (na nb : GridNode) :
  wf g → in_grid g x y → 0 ≤ d < 8 → Z.odd d = true →
  getNeighbor g x y ((d + 7) mod 8) = Some na →
  getNeighbor g x y ((d + 1) mod 8) = Some nb →
  ∃ xa ya, na = Center xa ya ∧ in_grid g xa ya
    ∧ getNeighbor g xa ya ((d + 2) mod 8) = Some nb.
Proof.
  intros Hwf Hin Hd Hodd Hna Hnb.
  destruct (getNeighbor_Some g x y _ na Hwf Hin Hna) as [-> Hina].
  destruct (getNeighbor_Some g x y _ nb Hwf Hin Hnb) as [-> Hinb].
  eexists _, _. split; [done|]. split; [done|].
  rewrite getNeighbor_in_grid; [|done|].
  - f_equal.
    destruct (odd_dir_cases d Hd Hodd) as [-> | [-> | [-> | ->]]];
      vm_compute (dirOff _); cbn [fst snd]; f_equal; lia.
  - revert Hinb.
    destruct (odd_dir_cases d Hd Hodd) as [-> | [-> | [-> | ->]]];
      vm_compute (dirOff _); cbn [fst snd]; unfold in_grid; lia.
Qed.

Lemma odd_dir_test (d : Z) :
  0 ≤ d < 8 → Z.odd d = true →
  (d =? 1) || (d =? 3) || (d =? 5) || (d =? 7) = true.
Proof.
  intros Hd Hodd.
  destruct (odd_dir_cases d Hd Hodd) as [-> | [-> | [-> | ->]]]; reflexivity.
Qed.

Lemma getNeighbor_Center (g : GridGraph) (x y i : Z) (nb : GridNode) :
  wf g → in_grid g x y → getNeighbor g x y i = Some nb →
  ∃ x' y', nb = Center x' y' ∧ in_grid g x' y'.
Proof.
  intros Hwf Hin H.
  destruct (getNeighbor_Some g x y i nb Hwf Hin H) as [-> ?]. eauto.
Qed.

(** ** Checking a concrete grid *)

Definition wf_cell (g : GridGraph) (c : Z * Z) : bool :=
  let '(x, y) := c in
  bool_decide (_grid g !! (x, y) = Some (Center x y))
  && bool_decide (is_Some (nds g !! Center x y))
  && forallb (fun i =>
       match getNeighbor g x y i with
       | Some n' =>
           bool_decide
             (is_Some (getEdg g (Port x y i) (getPort n' ((i + 4) mod 8))))
       | None => true
       end) dirs
  && forallb (fun c' =>
       forallb (fun i =>
         bool_decide ((x, y) = c')
         || negb (bool_decide
                    (is_Some (getEdg g (Port x y i)
                                (Port c'.1 c'.2 ((i + 4) mod 8)))))
         || bool_decide (getNeighbor g x y i = Some (Center c'.1 c'.2)))
         dirs) (cells g).

Definition wfb (g : GridGraph) : bool :=
  bool_decide (0 ≤ getXWidth g < SIZE_MOD)
  && bool_decide (0 ≤ getYHeight g < SIZE_MOD)
  && forallb (wf_cell g) (cells g).

Lemma cells_spec (g : GridGraph) (x y : Z) :
  (x, y) ∈ cells g ↔ in_grid g x y.
Proof.
  unfold cells, in_grid. rewrite list_elem_of_bind. split.
  - intros (x' & (y' & Hy & Hy')%list_elem_of_bind & Hx').
    apply list_elem_of_singleton in Hy. injection Hy as -> ->.
    apply elem_of_seqZ in Hx', Hy'. lia.
  - intros [Hx Hy]. exists x. split; [|apply elem_of_seqZ; lia].
    apply list_elem_of_bind. exists y.
    split; [by apply list_elem_of_singleton|apply elem_of_seqZ; lia].
Qed.

Lemma forallb_elem_of {A : Type} (f : A → bool) (l : list A) (a : A) :
  forallb f l = true → a ∈ l → f a = true.
Proof.
  intros H Ha. rewrite forallb_forall in H. apply H.
  by apply list_elem_of_In.
Qed.

Lemma wfb_wf (g : GridGraph) : wfb g = true → wf g.
Proof.
  unfold wfb. rewrite !andb_true_iff, !bool_decide_eq_true.
  intros [[HW HH] Hcells].
  assert (∀ x y, in_grid g x y → wf_cell g (x, y) = true) as Hcell.
  { intros x y Hin. eapply forallb_elem_of; [done|]. by apply cells_spec. }
  split; try done.
  - intros x y Hin. specialize (Hcell x y Hin). unfold wf_cell in Hcell.
    rewrite !andb_true_iff, !bool_decide_eq_true in Hcell. tauto.
  - intros x y Hin. specialize (Hcell x y Hin). unfold wf_cell in Hcell.
    rewrite !andb_true_iff, !bool_decide_eq_true in Hcell. tauto.
  - intros x y i n' Hin Hi Hn. specialize (Hcell x y Hin).
    unfold wf_cell in Hcell. rewrite !andb_true_iff in Hcell.
    destruct Hcell as [[_ Hc] _].
    apply (forallb_elem_of _ _ i) in Hc; [|by apply dirs_spec].
    cbv beta in Hc. rewrite Hn in Hc. by apply bool_decide_eq_true in Hc.
  - intros x y i x' y' Hin Hin' Hne Hi He. specialize (Hcell x y Hin).
    unfold wf_cell in Hcell. rewrite !andb_true_iff in Hcell.
    destruct Hcell as [_ Hc].
    apply (forallb_elem_of _ _ (x', y')) in Hc; [|by apply cells_spec].
    apply (forallb_elem_of _ _ i) in Hc; [|by apply dirs_spec].
    cbv beta in Hc. cbn [fst snd] in Hc. rewrite !orb_true_iff in Hc.
    destruct Hc as [[Hc|Hc]|Hc].
    + by apply bool_decide_eq_true in Hc.
    + apply negb_true_iff, bool_decide_eq_false in Hc. done.
    + by apply bool_decide_eq_true in Hc.
Qed.

(** ** A 3 x 3 grid *)

Definition pens3 : Penalties :=
  {| p_0 := 0; p_135 := 1; p_90 := 2; p_45 := 3;
     verticalPen := 1; horizontalPen := 1; diagonalPen := 1.5 |}.

Definition box3 : DBox :=
  {| getLowerLeft := {| getX := 0; getY := 0 |};
     getUpperRight := {| getX := 3; getY := 3 |} |}.

Definition emptyGrid : GridGraph :=
  {| _bbox := box3; _c := pens3; getXWidth := 0; getYHeight := 0;
     _grid := ∅; _cellSize := 1; _spacer := 0; nds := ∅; edgs := ∅ |}.

(** Cells of size 1, ports a quarter away from the centers. *)
Definition grid3 : GridGraph :=
  default emptyGrid (mkGridGraph box3 1 0.25 pens3 3 3).

Lemma grid3_built : mkGridGraph box3 1 0.25 pens3 3 3 = Some grid3.
Proof.
  unfold grid3.
  assert (bool_decide (is_Some (mkGridGraph box3 1 0.25 pens3 3 3)) = true)
    as H by (vm_compute; reflexivity).
  apply bool_decide_eq_true in H. by destruct H as [g ->].
Qed.

Lemma grid3_dims : getXWidth grid3 = 3 ∧ getYHeight grid3 = 3.
Proof. vm_compute. done. Qed.

Lemma grid3_wf : wf grid3.
Proof. apply wfb_wf. vm_compute. reflexivity. Qed.

(** The same grid with traversal penalties that are not whole numbers. *)
Definition pensHalf : Penalties :=
  {| p_0 := 0; p_135 := 1; p_90 := 2; p_45 := 3;
     verticalPen := 0.5; horizontalPen := 0.5; diagonalPen := 0.75 |}.

Definition gridHalf : GridGraph :=
  default emptyGrid (mkGridGraph box3 1 0.25 pensHalf 3 3).

Lemma gridHalf_built : mkGridGraph box3 1 0.25 pensHalf 3 3 = Some gridHalf.
Proof.
  unfold gridHalf.
  assert (bool_decide (is_Some (mkGridGraph box3 1 0.25 pensHalf 3 3)) = true)
    as H by (vm_compute; reflexivity).
  apply bool_decide_eq_true in H. by destruct H as [g ->].
Qed.

(** ** Conversions in the heuristic *)

Lemma double_to_size_t_range (f : float) (z : Z) :
  double_to_size_t f = Some z → 0 ≤ z < SIZE_MOD ∧ trunc_double f = Some z.
Proof.
  unfold double_to_size_t. destruct (trunc_double f) as [t|]; [|done].
  destruct (Z.leb_spec 0 t), (Z.ltb_spec t SIZE_MOD); simpl; try done.
  intros [= ->]. done.
Qed.

Lemma sub64_labs (a b : Z) :
  - 2 ^ 62 ≤ a < 2 ^ 62 → - 2 ^ 62 ≤ b < 2 ^ 62 →
  sub64 b a ≫= labs = Some (Z.abs (b - a)).
Proof.
  intros Ha Hb. unfold sub64, labs.
  destruct (Z.leb_spec (- 2 ^ 63) (b - a)); [|exfalso; lia].
  destruct (Z.ltb_spec (b - a) (2 ^ 63)); [|exfalso; lia]. simpl.
  destruct (Z.eqb_spec (b - a) (- 2 ^ 63)); [exfalso; lia|done].
Qed.

(** ** The bend edges of a cell *)

(** Angular distance of two port directions: the number of steps of 45
    degrees between them, the shorter way round. *)
Definition angDist (i j : Z) : Z := Z.min ((i - j) mod 8) ((j - i) mod 8).

(** The cost of a bend by its angular distance; none for a sharp turn. *)
Definition bendCost (c : Penalties) (d : Z) : option float :=
  if d =? 4 then Some (p_45 c - p_135 c)%float
  else if d =? 3 then Some (p_45 c)
  else if d =? 2 then Some (p_45 c - p_135 c + p_90 c)%float
  else None.

(** The bend edge expected between ports [i] and [j] of one center. *)
Definition bendEdge (c : Penalties) (i j : Z) : option GridEdgePL :=
  if (0 <=? i) && (i <? 8) && (0 <=? j) && (j <? 8)
  then pen ← bendCost c (angDist i j); Some (mkGridEdgePL pen true)
  else None.

(** The unordered pairs of port directions. *)
Definition portPairs : list (Z * Z) :=
  i ← seqZ 0 8; j ← seqZ (i + 1) (8 - (i + 1)); [(i, j)].

(** The number of edges between two ports of the center of cell [(x, y)]. *)
Definition countBends (g : GridGraph) (x y : Z) : nat :=
  length (List.filter
            (fun '(i, j) =>
               match getEdg g (Port x y i) (Port x y j) with
               | Some _ => true
               | None => false
               end) portPairs).

(** The first entry for the pair [{i, j}] in a list of bend edges. *)
Fixpoint findBend (l : list (Z * Z * float)) (i j : Z) : option float :=
  match l with
  | [] => None
  | (a, b, pen) :: l =>
      if ((a =? i) && (b =? j)) || ((a =? j) && (b =? i)) then Some pen
      else findBend l i j
  end.

Lemma findBend_outside (l : list (Z * Z * float)) (i j : Z) :
  Forall (fun e => 0 ≤ e.1.1 < 8 ∧ 0 ≤ e.1.2 < 8) l →
  ¬ (0 ≤ i < 8 ∧ 0 ≤ j < 8) → findBend l i j = None.
Proof.
  intros Hl Hij. induction Hl as [|[[a b] pen] l [Ha Hb] _ IH]; [done|].
  simpl in *. destruct (_ || _) eqn:E; [|done]. exfalso. lia.
Qed.

Lemma bendEdges_range (c : Penalties) :
  Forall (fun e => 0 ≤ e.1.1 < 8 ∧ 0 ≤ e.1.2 < 8) (bendEdges c).
Proof.
  apply Forall_forall. intros [[a b] pen] H. simpl.
  unfold bendEdges in H.
  apply list_elem_of_bind in H as (i & H & Hi).
  apply list_elem_of_bind in H as (j & H & Hj).
  apply elem_of_seqZ in Hi, Hj.
  repeat case_match; try by apply elem_of_nil in H.
  all: apply list_elem_of_singleton in H; simplify_eq; lia.
Qed.

Lemma findBend_bendEdges (c : Penalties) (i j : Z) :
  (fun pen => mkGridEdgePL pen true) <$> findBend (bendEdges c) i j
  = bendEdge c i j.
Proof.
  destruct (decide (0 ≤ i < 8 ∧ 0 ≤ j < 8)) as [[Hi Hj]|H].
  - each_dir i Hi; each_dir j Hj; reflexivity.
  - rewrite findBend_outside; [|apply bendEdges_range|done].
    unfold bendEdge. destruct (_ && _) eqn:E; [|done]. exfalso. lia.
Qed.

(** ** Edges while the grid is built *)

Lemma getEdg_addEdg (g : GridGraph) (a b c d : GridNode) (pl : GridEdgePL) :
  getEdg (addEdg a b pl g) c d
  = match getEdg g c d with
    | Some v => Some v
    | None => if decide (ekey c d = ekey a b) then Some pl else None
    end.
Proof.
  unfold addEdg, getEdg.
  destruct (edgs g !! ekey a b) eqn:E.
  - destruct (edgs g !! ekey c d) eqn:E'; [done|].
    case_decide as Hk; [|done]. congruence.
  - cbn. case_decide as Hk.
    + rewrite Hk, lookup_insert_eq. by rewrite E.
    + rewrite lookup_insert_ne by done. by destruct (edgs g !! ekey c d).
Qed.

Lemma getEdg_addNd (g : GridGraph) (n a b : GridNode) (p : DPoint) :
  getEdg (addNd n p g) a b = getEdg g a b.
Proof. reflexivity. Qed.

(** The key of an edge inside a cell is not the key of an edge between a
    center and a port, nor of one between two cells. *)
Lemma ekey_port_center (a b i j x y n : Z) (m : GridNode) :
  ekey (Port a b i) (Port a b j) ≠ ekey (Center x y) m.
Proof. intros H. apply ekey_eq in H as [[? ?]|[? ?]]; congruence. Qed.

Lemma ekey_port_cross (a b i j x y p x' y' q : Z) :
  (x', y') ≠ (x, y) →
  ekey (Port a b i) (Port a b j) ≠ ekey (Port x y p) (Port x' y' q).
Proof. intros Hne H. apply ekey_eq in H as [[? ?]|[? ?]]; congruence. Qed.

Lemma ekey_port_same (a b i j x y p q : Z) :
  ekey (Port a b i) (Port a b j) = ekey (Port x y p) (Port x y q)
  ↔ (a, b) = (x, y) ∧ ((p = i ∧ q = j) ∨ (p = j ∧ q = i)).
Proof.
  split.
  - intros H. apply ekey_eq in H as [[? ?]|[? ?]]; simplify_eq; auto.
  - intros [? [[-> ->]|[-> ->]]]; simplify_eq; [done|apply ekey_comm].
Qed.

(** The second loop of writeNd, seen from a pair of ports of any cell. *)
Lemma getEdg_bends (x y a b i j : Z) (l : list (Z * Z * float))
    (g : GridGraph) :
  getEdg
    (foldl (fun g '(i, j, pen) =>
              addEdg (Port x y i) (Port x y j) (mkGridEdgePL pen true) g) g l)
    (Port a b i) (Port a b j)
  = match getEdg g (Port a b i) (Port a b j) with
    | Some v => Some v
    | None =>
        if decide ((a, b) = (x, y))
        then (fun pen => mkGridEdgePL pen true) <$> findBend l i j
        else None
    end.
Proof.
  revert g. induction l as [|[[p q] pen] l IH]; intros g.
  - cbn [foldl findBend]. destruct (getEdg g _ _); [done|].
    by case_decide.
  - cbn [foldl findBend]. rewrite IH, getEdg_addEdg.
    destruct (getEdg g (Port a b i) (Port a b j)); [done|].
    destruct (decide (ekey (Port a b i) (Port a b j)
                      = ekey (Port x y p) (Port x y q))) as [Hk|Hk].
    + apply ekey_port_same in Hk as [Hab Hpq].
      rewrite decide_True by done.
      destruct (_ || _) eqn:E; [done|]. exfalso. lia.
    + destruct (decide ((a, b) = (x, y))) as [Hab|Hab]; [|done].
      destruct (_ || _) eqn:E; [|done]. exfalso. apply Hk.
      apply ekey_port_same. split; [done|]. lia.
Qed.

(** The parameters of a grid: what the constructor is given. *)
Definition same_params (g g' : GridGraph) : Prop :=
  _bbox g' = _bbox g ∧ _c g' = _c g ∧ _cellSize g' = _cellSize g
  ∧ _spacer g' = _spacer g.

(** What the construction keeps of a grid once its nodes are written: the
    parameters and the index. *)
Definition same_setup (g g' : GridGraph) : Prop :=
  same_params g g' ∧ same_index g g'.

Lemma same_setup_refl (g : GridGraph) : same_setup g g.
Proof. split; [done|apply same_index_refl]. Qed.

Lemma same_setup_trans (g1 g2 g3 : GridGraph) :
  same_setup g1 g2 → same_setup g2 g3 → same_setup g1 g3.
Proof.
  intros [(?&?&?&?) ?] [(?&?&?&?) ?].
  split; [repeat split; congruence|by eapply same_index_trans].
Qed.

Lemma same_setup_addNd (g : GridGraph) n p : same_setup g (addNd n p g).
Proof. by repeat split. Qed.

Lemma same_setup_addEdg (g : GridGraph) a b pl : same_setup g (addEdg a b pl g).
Proof. unfold addEdg. destruct (getEdg g a b); by repeat split. Qed.

Lemma same_setup_modEdg (g : GridGraph) a b f : same_setup g (modEdg a b f g).
Proof. by repeat split. Qed.

(** Same edges between the ports of each cell. *)
Definition same_bends (g g' : GridGraph) : Prop :=
  ∀ a b i j, getEdg g' (Port a b i) (Port a b j)
             = getEdg g (Port a b i) (Port a b j).

Lemma writeNd_setup (x y : Z) (xOff yOff : float) (g : GridGraph) :
  same_params g (writeNd x y xOff yOff g)
  ∧ getXWidth (writeNd x y xOff yOff g) = getXWidth g
  ∧ getYHeight (writeNd x y xOff yOff g) = getYHeight g
  ∧ _grid (writeNd x y xOff yOff g) = <[(x, y) := Center x y]> (_grid g).
Proof.
  unfold writeNd. cbv zeta.
  match goal with
  | |- context [foldl ?F ?g0 (seqZ 0 8)] =>
      generalize (foldl_invariant (same_setup g0) F (seqZ 0 8) g0
                    (same_setup_refl g0));
      generalize (foldl F g0 (seqZ 0 8))
  end.
  intros g1 H1.
  assert (same_setup
            (set_grid <[(x, y):=Center x y]>
               (addNd (Center x y)
                  {| getX := (getX (getLowerLeft (_bbox g))
                              + size_t_to_double x * _cellSize g + xOff)%float;
                     getY := (getY (getLowerLeft (_bbox g))
                              + size_t_to_double y * _cellSize g + yOff)%float
                  |} g)) g1) as ((Hb & Hc & Hz & Hs) & HW & HH & HG).
  { apply H1. intros g' i _ Hg'.
    eapply same_setup_trans; [exact Hg'|].
    eapply same_setup_trans; [apply same_setup_addNd|].
    apply same_setup_addEdg. }
  clear H1. cbn in Hb, Hc, Hz, Hs, HW, HH, HG.
  match goal with
  | |- context [foldl ?F g1 ?l] =>
      pose proof (foldl_invariant (same_setup g1) F l g1
                    (same_setup_refl g1)) as H2;
      revert H2; generalize (foldl F g1 l)
  end.
  intros g2 H2.
  assert (same_setup g1 g2) as ((Hb' & Hc' & Hz' & Hs') & HW' & HH' & HG').
  { apply H2. intros g' [[i j] pen] _ Hg'.
    eapply same_setup_trans; [exact Hg'|]. apply same_setup_addEdg. }
  repeat split; congruence.
Qed.

Lemma writeNd_bends (x y a b i j : Z) (xOff yOff : float) (g : GridGraph) :
  getEdg (writeNd x y xOff yOff g) (Port a b i) (Port a b j)
  = match getEdg g (Port a b i) (Port a b j) with
    | Some v => Some v
    | None => if decide ((a, b) = (x, y)) then bendEdge (_c g) i j else None
    end.
Proof.
  unfold writeNd. cbv zeta.
  match goal with
  | |- context [foldl ?F ?g0 (seqZ 0 8)] =>
      generalize (foldl_invariant
                    (fun g' => same_setup g0 g' ∧ same_bends g0 g')
                    F (seqZ 0 8) g0
                    (conj (same_setup_refl g0) (fun _ _ _ _ => eq_refl)));
      generalize (foldl F g0 (seqZ 0 8))
  end.
  intros g1 H1.
  match type of H1 with
  | _ → same_setup ?g0 _ ∧ _ => assert (same_setup g0 g1 ∧ same_bends g0 g1)
      as [((_ & Hc & _) & _) Hb]
  end.
  { apply H1. intros g' p _ [Hs Hb]. split.
    - eapply same_setup_trans; [exact Hs|].
      eapply same_setup_trans; [apply same_setup_addNd|].
      apply same_setup_addEdg.
    - intros a' b' i' j'. rewrite getEdg_addEdg.
      rewrite decide_False by apply (ekey_port_center a' b' i' j' x y 0).
      rewrite getEdg_addNd, Hb. by destruct (getEdg _ _ _). }
  clear H1. cbn in Hc. rewrite Hc.
  change (fun (g3 : GridGraph) '(i0, j0, pen) =>
            addEdg (getPort (Center x y) i0) (getPort (Center x y) j0)
              (mkGridEdgePL pen true) g3)
    with (fun (g3 : GridGraph) '(i0, j0, pen) =>
            addEdg (Port x y i0) (Port x y j0) (mkGridEdgePL pen true) g3).
  rewrite getEdg_bends, Hb, findBend_bendEdges. reflexivity.
Qed.

(** The index holds, under the coordinates of a cell, the center of that
    cell. *)
Definition centers_indexed (g : GridGraph) : Prop :=
  ∀ k n, _grid g !! k = Some n → n = Center k.1 k.2.

Lemma getNode_center (g : GridGraph) (x y : Z) (n : GridNode) :
  centers_indexed g → getNode g x y = Some n → n = Center x y.
Proof.
  unfold getNode. intros H E. destruct (_ || _); [done|]. apply (H _ _ E).
Qed.

Lemma wrap_shift (z d : Z) : -1 ≤ d ≤ 1 → wrap (z + d) = z → d = 0.
Proof.
  unfold wrap, SIZE_MOD. intros Hd H.
  pose proof (Z.div_mod (z + d) (2 ^ 64)).
  pose proof (Z.mod_pos_bound (z + d) (2 ^ 64)). lia.
Qed.

(** The neighbour of a cell is the center of another cell. *)
Lemma getNeighbor_other (g : GridGraph) (x y p : Z) (n : GridNode) :
  centers_indexed g → 0 ≤ p < 8 → getNeighbor g x y p = Some n →
  ∃ x' y', n = Center x' y' ∧ (x', y') ≠ (x, y).
Proof.
  intros HI Hp H. unfold getNeighbor in H.
  pose proof (dirOff_range p) as [Hx Hy].
  pose proof (dirOff_nonzero p Hp) as Hnz.
  destruct (dirOff p) as [dx dy]. cbn [fst snd] in *.
  apply getNode_center in H; [|done].
  eexists _, _. split; [done|]. intros E. injection E as E1 E2.
  apply wrap_shift in E1, E2; [|done..]. congruence.
Qed.

(** A later stage of the construction keeps the parameters, the index, the
    nodes and the edges inside the cells. *)
Definition kept (g g' : GridGraph) : Prop :=
  same_setup g g' ∧ same_bends g g' ∧ nds g' = nds g.

Lemma kept_refl (g : GridGraph) : kept g g.
Proof. split; [apply same_setup_refl|done]. Qed.

Lemma kept_trans (g1 g2 g3 : GridGraph) :
  kept g1 g2 → kept g2 g3 → kept g1 g3.
Proof.
  intros (S1 & B1 & N1) (S2 & B2 & N2).
  split; [by eapply same_setup_trans|]. split; [|congruence].
  intros a b i j. by rewrite B2, B1.
Qed.

Lemma kept_centers (g g' : GridGraph) :
  kept g g' → centers_indexed g → centers_indexed g'.
Proof. intros [(_ & _ & _ & HG) _] H k n. rewrite HG. apply H. Qed.

Lemma kept_addEdg_cross (g : GridGraph) (x y p x' y' q : Z) pl :
  (x', y') ≠ (x, y) → kept g (addEdg (Port x y p) (Port x' y' q) pl g).
Proof.
  intros Hne. split; [apply same_setup_addEdg|]. split.
  - intros a b i j. rewrite getEdg_addEdg.
    rewrite decide_False by by apply ekey_port_cross.
    by destruct (getEdg _ _ _).
  - unfold addEdg. by destruct (getEdg _ _ _).
Qed.

Lemma kept_modEdg_cross (g : GridGraph) (x y p x' y' q : Z) f :
  (x', y') ≠ (x, y) → kept g (modEdg (Port x y p) (Port x' y' q) f g).
Proof.
  intros Hne. split; [apply same_setup_modEdg|]. split; [|done].
  intros a b i j. unfold getEdg. rewrite edgs_modEdg.
  by rewrite decide_False by by apply ekey_port_cross.
Qed.

(** The edges inside the cells while the cells are written: an edge that is
    there is the expected one, and the cells in [D] have all of theirs. *)
Definition bendInv (pens : Penalties) (D : Z * Z → Prop) (g : GridGraph)
    : Prop :=
  _c g = pens ∧ centers_indexed g
  ∧ (∀ x y i j, getEdg g (Port x y i) (Port x y j) = None
                ∨ getEdg g (Port x y i) (Port x y j) = bendEdge pens i j)
  ∧ (∀ x y i j, D (x, y) →
                getEdg g (Port x y i) (Port x y j) = bendEdge pens i j).

Lemma bendInv_weaken (pens : Penalties) (D D' : Z * Z → Prop) g :
  (∀ c, D' c → D c) → bendInv pens D g → bendInv pens D' g.
Proof. intros H (?&?&?&HD). repeat split; auto. Qed.

Lemma bendInv_kept (pens : Penalties) (D : Z * Z → Prop) g g' :
  kept g g' → bendInv pens D g → bendInv pens D g'.
Proof.
  intros Hk (Hc & HI & HA & HD).
  pose proof (kept_centers _ _ Hk HI) as HI'.
  destruct Hk as (((_ & Hc' & _) & _) & Hb & _).
  split; [congruence|]. split; [done|].
  split; intros x y i j; rewrite Hb; auto.
Qed.

Lemma bendInv_writeNd (pens : Penalties) (D : Z * Z → Prop) g x y xOff yOff :
  bendInv pens D g →
  bendInv pens (fun c => c = (x, y) ∨ D c) (writeNd x y xOff yOff g).
Proof.
  intros (Hc & HI & HA & HD).
  pose proof (writeNd_setup x y xOff yOff g)
    as ((_ & Hc' & _) & _ & _ & HG).
  split; [congruence|]. split.
  { intros k n. rewrite HG. destruct (decide (k = (x, y))) as [->|Hk].
    - rewrite lookup_insert_eq. by intros [= <-].
    - rewrite lookup_insert_ne by done. apply HI. }
  split.
  - intros a b i j. rewrite writeNd_bends, Hc.
    destruct (HA a b i j) as [-> | ->].
    + case_decide; auto.
    + destruct (bendEdge pens i j) eqn:E; [auto|]. case_decide; auto.
  - intros a b i j Hab. rewrite writeNd_bends, Hc.
    destruct Hab as [Hab|Hab].
    + rewrite decide_True by done.
      destruct (HA a b i j) as [-> | ->]; [done|].
      by destruct (bendEdge pens i j).
    + rewrite (HD a b i j Hab).
      destruct (bendEdge pens i j) eqn:E; [done|]. by case_decide.
Qed.

(** The loop over the cells that writes the nodes. *)
Lemma bendInv_cells (pens : Penalties) (l : list (Z * Z)) :
  ∀ (D : Z * Z → Prop) (g : GridGraph),
  bendInv pens D g →
  bendInv pens (fun c => c ∈ l ∨ D c)
    (foldl (fun g '(x, y) => writeNd x y 0 0 g) g l).
Proof.
  induction l as [|[x y] l IH]; intros D g H; cbn [foldl].
  - eapply bendInv_weaken; [|exact H]. intros c [Hc|Hc]; [|done].
    by apply elem_of_nil in Hc.
  - eapply bendInv_weaken; [|apply IH, bendInv_writeNd, H].
    intros c [Hc|Hc]; [|by right; right].
    apply elem_of_cons in Hc as [->|Hc]; [right; by left|by left].
Qed.

(** The loop over the cells that links the mirrored ports of neighbours. *)
Lemma kept_links (l : list (Z * Z)) (g : GridGraph) :
  centers_indexed g →
  kept g
    (foldl (fun g '(x, y) =>
              match getNode g x y with
              | None => g
              | Some center =>
                  foldl (fun g p =>
                    let from := getPort center p in
                    match getNeighbor g x y p with
                    | None => g
                    | Some toN =>
                        addEdg from (getPort toN ((p + 4) mod 8))
                          (mkGridEdgePL 0 false) g
                    end) g dirs
              end) g l).
Proof.
  intros HI.
  apply (foldl_invariant (kept g)); [apply kept_refl|].
  intros g1 [x y] _ H1.
  pose proof (kept_centers _ _ H1 HI) as HI1.
  destruct (getNode g1 x y) as [center|] eqn:E; [|done].
  apply getNode_center in E as ->; [|done].
  apply (foldl_invariant (kept g)); [done|].
  intros g2 p Hp H2. apply dirs_spec in Hp. cbv zeta.
  pose proof (kept_centers _ _ H2 HI) as HI2.
  destruct (getNeighbor g2 x y p) as [toN|] eqn:E; [|done].
  apply getNeighbor_other in E as (x' & y' & -> & Hne); [|done..].
  eapply kept_trans; [exact H2|]. by apply kept_addEdg_cross.
Qed.

Lemma kept_writeInitialCosts (g g' : GridGraph) :
  centers_indexed g → writeInitialCosts g = Some g' → kept g g'.
Proof.
  intros HI. unfold writeInitialCosts.
  apply (foldM_invariant (kept g)); [|apply kept_refl].
  intros [x y] g1 g1' _ H1 E.
  pose proof (kept_centers _ _ H1 HI) as HI1.
  apply bind_Some in E as (n & Hn & E).
  apply getNode_center in Hn as ->; [|done].
  revert E. apply (foldM_invariant (kept g)); [|done].
  intros p g2 g2' Hp H2 E. apply dirs_spec in Hp. cbv zeta in E.
  pose proof (kept_centers _ _ H2 HI) as HI2.
  destruct (getNeighbor g2 x y p) as [neigh|] eqn:En;
    [|by simplify_eq].
  apply getNeighbor_other in En as (x' & y' & -> & Hne); [|done..].
  apply bind_Some in E as (e & _ & E). injection E as <-.
  cbn [getPort].
  eapply kept_trans; [exact H2|].
  repeat case_match;
    repeat (first [apply kept_refl
                  | eapply kept_trans; [|by apply kept_modEdg_cross]]).
Qed.

(** ** The positions of the nodes *)

(** Where writeNd puts the center of cell [(x, y)]. *)
Definition centerGeom (bbox : DBox) (cellSize : float) (x y : Z)
    (xOff yOff : float) : DPoint :=
  {| getX := (getX (getLowerLeft bbox) + size_t_to_double x * cellSize
              + xOff)%float;
     getY := (getY (getLowerLeft bbox) + size_t_to_double y * cellSize
              + yOff)%float |}.

(** Where writeNd puts port [i] of cell [(x, y)]. *)
Definition portGeom (bbox : DBox) (cellSize spacer : float) (x y i : Z)
    (xOff yOff : float) : DPoint :=
  {| getX := (xOff
              + (getX (getLowerLeft bbox) + size_t_to_double x * cellSize)
              + int_to_double (portOff i 0) * spacer)%float;
     getY := (yOff
              + (getY (getLowerLeft bbox) + size_t_to_double y * cellSize)
              + int_to_double (portOff i 2) * spacer)%float |}.

Definition newNode (p : DPoint) : GridNodePL :=
  {| getGeom := p; isClosed_ := false |}.

Lemma nds_addEdg (g : GridGraph) a b pl : nds (addEdg a b pl g) = nds g.
Proof. unfold addEdg. by destruct (getEdg g a b). Qed.

(** The first loop of writeNd: the ports of the cell. *)
Lemma writeNd_ports (x y : Z) (xOff yOff xPos yPos : float) (l : list Z) :
  ∀ g : GridGraph,
  let g' :=
    foldl (fun g i =>
      addEdg (Center x y) (Port x y i) (mkGridEdgePL INF true)
        (addNd (Port x y i)
           {| getX := (xOff + xPos
                       + int_to_double (portOff i 0) * _spacer g)%float;
              getY := (yOff + yPos
                       + int_to_double (portOff i 2) * _spacer g)%float |}
           g)) g l in
  _spacer g' = _spacer g
  ∧ (∀ a b, nds g' !! Center a b = nds g !! Center a b)
  ∧ (∀ a b i,
       nds g' !! Port a b i
       = if decide ((a, b) = (x, y) ∧ i ∈ l)
         then Some (newNode
                {| getX := (xOff + xPos
                            + int_to_double (portOff i 0) * _spacer g)%float;
                   getY := (yOff + yPos
                            + int_to_double (portOff i 2) * _spacer g)%float
                |})
         else nds g !! Port a b i).
Proof.
  induction l as [|i0 l IH]; intros g; cbn [foldl]; cbv zeta.
  - split; [done|]. split; [done|]. intros a b i.
    rewrite decide_False; [done|]. intros [_ H]. by apply elem_of_nil in H.
  - match goal with
    | |- context [foldl ?F ?g1 l] =>
        destruct (IH g1) as (Hs & Hc & Hp)
    end.
    cbv zeta in Hs, Hc, Hp.
    assert (∀ a b pl p, _spacer (addEdg a b pl (addNd (Port x y i0) p g))
                        = _spacer g) as Hs1.
    { intros. unfold addEdg. by destruct (getEdg _ _ _). }
    rewrite Hs1 in Hs, Hp.
    split; [exact Hs|]. split.
    + intros a b. rewrite Hc, nds_addEdg. unfold addNd; cbn.
      by rewrite lookup_insert_ne.
    + intros a b i. rewrite Hp, nds_addEdg.
      destruct (decide ((a, b) = (x, y) ∧ i ∈ l)) as [[E Hi]|Hn].
      * rewrite decide_True; [done|]. split; [done|by right].
      * unfold addNd; cbn.
        destruct (decide (Port a b i = Port x y i0)) as [E|E].
        -- injection E as -> -> ->. rewrite lookup_insert_eq.
           rewrite decide_True; [done|]. split; [done|by left].
        -- rewrite lookup_insert_ne by done.
           rewrite decide_False; [done|]. intros [E' Hi].
           apply elem_of_cons in Hi as [->|Hi]; [|tauto].
           injection E' as -> ->. done.
Qed.

Lemma writeNd_nds (x y : Z) (xOff yOff : float) (g : GridGraph) :
  (∀ a b,
     nds (writeNd x y xOff yOff g) !! Center a b
     = if decide ((a, b) = (x, y))
       then Some (newNode (centerGeom (_bbox g) (_cellSize g) x y xOff yOff))
       else nds g !! Center a b)
  ∧ (∀ a b i,
       nds (writeNd x y xOff yOff g) !! Port a b i
       = if decide ((a, b) = (x, y) ∧ 0 ≤ i < 8)
         then Some (newNode (portGeom (_bbox g) (_cellSize g) (_spacer g)
                               x y i xOff yOff))
         else nds g !! Port a b i).
Proof.
  unfold writeNd. cbv zeta.
  match goal with
  | |- context [foldl ?F ?g0 (seqZ 0 8)] =>
      pose proof (writeNd_ports x y xOff yOff
                    (getX (getLowerLeft (_bbox g))
                     + size_t_to_double x * _cellSize g)%float
                    (getY (getLowerLeft (_bbox g))
                     + size_t_to_double y * _cellSize g)%float
                    (seqZ 0 8) g0) as H1;
      cbv zeta in H1; revert H1; generalize (foldl F g0 (seqZ 0 8))
  end.
  intros g1 (_ & Hc & Hp).
  match goal with
  | |- context [foldl ?F g1 ?l] =>
      pose proof (foldl_invariant (fun g' => nds g' = nds g1) F l g1 eq_refl)
        as H2;
      revert H2; generalize (foldl F g1 l)
  end.
  intros g2 H2.
  assert (nds g2 = nds g1) as ->.
  { apply H2. intros g' [[i j] pen] _ Hg'. by rewrite nds_addEdg. }
  clear H2. split.
  - intros a b. rewrite Hc. cbn.
    destruct (decide ((a, b) = (x, y))) as [E|E].
    + injection E as -> ->. by rewrite lookup_insert_eq.
    + rewrite lookup_insert_ne; [done|]. congruence.
  - intros a b i. rewrite Hp. cbn.
    assert (i ∈ seqZ 0 8 ↔ 0 ≤ i < 8) as Hi
      by (rewrite elem_of_seqZ; lia).
    destruct (decide ((a, b) = (x, y) ∧ 0 ≤ i < 8)) as [[E Hr]|Hn].
    + rewrite decide_True; [done|]. split; [done|by apply Hi].
    + rewrite decide_False by (rewrite Hi; exact Hn).
      by rewrite lookup_insert_ne.
Qed.

(** The nodes while the cells are written: the cells in [D] are in the
    index and have their center and their ports, where writeNd puts them. *)
Definition nodesInv (bbox : DBox) (cellSize spacer : float) (w h : Z)
    (D : Z * Z → Prop) (g : GridGraph) : Prop :=
  _bbox g = bbox ∧ _cellSize g = cellSize ∧ _spacer g = spacer
  ∧ getXWidth g = w ∧ getYHeight g = h
  ∧ ∀ x y, D (x, y) →
      _grid g !! (x, y) = Some (Center x y)
      ∧ nds g !! Center x y = Some (newNode (centerGeom bbox cellSize x y 0 0))
      ∧ ∀ i, 0 ≤ i < 8 →
          nds g !! Port x y i
          = Some (newNode (portGeom bbox cellSize spacer x y i 0 0)).

Lemma nodesInv_weaken bbox cellSize spacer w h (D D' : Z * Z → Prop) g :
  (∀ c, D' c → D c) →
  nodesInv bbox cellSize spacer w h D g →
  nodesInv bbox cellSize spacer w h D' g.
Proof.
  intros H (?&?&?&?&?&HD). repeat (split; [done|]).
  intros x y Hxy. apply HD, H, Hxy.
Qed.

Lemma nodesInv_kept bbox cellSize spacer w h (D : Z * Z → Prop) g g' :
  kept g g' →
  nodesInv bbox cellSize spacer w h D g →
  nodesInv bbox cellSize spacer w h D g'.
Proof.
  intros (((Hb & _ & Hz & Hs) & HW & HH & HG) & _ & Hn) (?&?&?&?&?&HD).
  repeat (split; [congruence|]).
  rewrite Hn, HG. exact HD.
Qed.

Lemma nodesInv_writeNd bbox cellSize spacer w h (D : Z * Z → Prop) g x y :
  nodesInv bbox cellSize spacer w h D g →
  nodesInv bbox cellSize spacer w h (fun c => c = (x, y) ∨ D c)
    (writeNd x y 0 0 g).
Proof.
  intros (Hb & Hz & Hs & HW & HH & HD).
  pose proof (writeNd_setup x y 0 0 g)
    as ((Hb' & _ & Hz' & Hs') & HW' & HH' & HG).
  pose proof (writeNd_nds x y 0 0 g) as [Hc Hp].
  rewrite Hb, Hz in Hc. rewrite Hb, Hz, Hs in Hp.
  repeat (split; [congruence|]).
  intros a b Hab. split; [|split].
  - rewrite HG. destruct (decide ((a, b) = (x, y))) as [E|E].
    + injection E as -> ->. by rewrite lookup_insert_eq.
    + rewrite lookup_insert_ne by done.
      destruct Hab as [?|Hab]; [done|]. by apply HD.
  - rewrite Hc. case_decide as E; [by injection E as -> ->|].
    destruct Hab as [?|Hab]; [done|]. by apply HD.
  - intros i Hi. rewrite Hp.
    destruct (decide ((a, b) = (x, y) ∧ 0 ≤ i < 8)) as [[E _]|Hn].
    + by injection E as -> ->.
    + destruct Hab as [?|Hab]; [tauto|]. by apply HD.
Qed.

Lemma nodesInv_cells bbox cellSize spacer w h (l : list (Z * Z)) :
  ∀ (D : Z * Z → Prop) (g : GridGraph),
  nodesInv bbox cellSize spacer w h D g →
  nodesInv bbox cellSize spacer w h (fun c => c ∈ l ∨ D c)
    (foldl (fun g '(x, y) => writeNd x y 0 0 g) g l).
Proof.
  induction l as [|[x y] l IH]; intros D g H; cbn [foldl].
  - eapply nodesInv_weaken; [|exact H]. intros c [Hc|Hc]; [|done].
    by apply elem_of_nil in Hc.
  - eapply nodesInv_weaken; [|apply IH, nodesInv_writeNd, H].
    intros c [Hc|Hc]; [|by right; right].
    apply elem_of_cons in Hc as [->|Hc]; [right; by left|by left].
Qed.

(** The constructor: every cell of the grid has its bend edges and its
    nodes, placed with the spacer that was passed. *)
Lemma mkGridGraph_built (bbox : DBox) (cellSize spacer : float)
    (pens : Penalties) (w h : Z) (g : GridGraph) :
  mkGridGraph bbox cellSize spacer pens w h = Some g →
  bendInv pens (fun c => 0 ≤ c.1 < w ∧ 0 ≤ c.2 < h) g
  ∧ nodesInv bbox cellSize spacer w h
      (fun c => 0 ≤ c.1 < w ∧ 0 ≤ c.2 < h) g.
Proof.
  intros H. unfold mkGridGraph in H. cbv zeta in H.
  destruct (negb _); [done|].
  match type of H with
  | writeInitialCosts (foldl ?F2 (foldl ?F1 ?g0 ?l1) ?l2) = _ =>
      pose proof (bendInv_cells pens l1 (fun _ => False) g0) as H1;
      pose proof (nodesInv_cells bbox cellSize spacer w h l1
                    (fun _ => False) g0) as Hn;
      pose proof (cells_spec g0) as Hin;
      revert H H1 Hn; generalize l2; generalize (foldl F1 g0 l1)
  end.
  intros g1 l2 H H1 Hn.
  apply (bendInv_weaken _ _ (fun c => 0 ≤ c.1 < w ∧ 0 ≤ c.2 < h)) in H1.
  - pose proof (kept_links l2 g1 (proj1 (proj2 H1))) as H2.
    assert (kept g1 g) as Hk.
    { eapply kept_trans; [exact H2|].
      apply kept_writeInitialCosts; [|exact H].
      by eapply kept_centers; [exact H2|apply H1]. }
    split; [by eapply bendInv_kept|].
    eapply nodesInv_kept; [exact Hk|].
    eapply nodesInv_weaken; [|apply Hn].
    + intros [x y] Hc. left. by apply Hin.
    + do 5 (split; [done|]). by intros ? ? [].
  - intros [x y] Hc. left. by apply Hin.
  - split; [done|]. split.
    + intros k n Hk. cbn in Hk. by rewrite lookup_empty in Hk.
    + split; [|done]. intros ????. left. apply lookup_empty.
Qed.

Lemma countBends_expected (pens : Penalties) (g : GridGraph) (x y : Z) :
  (∀ i j, getEdg g (Port x y i) (Port x y j) = bendEdge pens i j) →
  countBends g x y = 20%nat.
Proof.
  intros H. unfold countBends.
  rewrite (List.filter_ext _
             (fun '(i, j) => match bendEdge pens i j with
                             | Some _ => true
                             | None => false
                             end)).
  - reflexivity.
  - intros [i j]. by rewrite H.
Qed.

(** ** The traversal edges while the grid is built *)

Lemma getNode_indexed (g : GridGraph) (x y : Z) :
  indexed g → in_grid g x y → getNode g x y = Some (Center x y).
Proof.
  intros Hi [Hx Hy]. unfold getNode.
  destruct (Z.leb_spec (getXWidth g) x); [lia|].
  destruct (Z.leb_spec (getYHeight g) y); [lia|].
  by apply (idx_grid g Hi).
Qed.

(** A neighbour has the cell as its neighbour in the opposite direction. *)
Lemma getNeighbor_back (g : GridGraph) (x y p x' y' : Z) :
  indexed g → in_grid g x y → 0 ≤ p < 8 →
  getNeighbor g x y p = Some (Center x' y') →
  in_grid g x' y'
  ∧ getNeighbor g x' y' ((p + 4) mod 8) = Some (Center x y).
Proof.
  intros Hi Hin Hp H.
  destruct (getNeighbor_Some_indexed g x y p _ Hi Hin H) as [E Hin'].
  injection E as -> ->. split; [done|].
  pose proof (getNeighbor_in_grid_indexed g (x + (dirOff p).1)
                (y + (dirOff p).2) ((p + 4) mod 8) Hi) as Hb.
  rewrite dirOff_opposite in Hb by done. cbn [fst snd] in Hb.
  replace (x + (dirOff p).1 + - (dirOff p).1) with x in Hb by lia.
  replace (y + (dirOff p).2 + - (dirOff p).2) with y in Hb by lia.
  by apply Hb.
Qed.

(** writeNd adds no edge between ports of two cells. *)
Lemma writeNd_cross (x y a b i a' b' j : Z) (xOff yOff : float)
    (g : GridGraph) :
  (a, b) ≠ (a', b') →
  getEdg (writeNd x y xOff yOff g) (Port a b i) (Port a' b' j)
  = getEdg g (Port a b i) (Port a' b' j).
Proof.
  intros Hne. unfold writeNd. cbv zeta.
  match goal with
  | |- context [foldl ?F ?g0 (seqZ 0 8)] =>
      generalize (foldl_invariant
                    (fun g' => getEdg g' (Port a b i) (Port a' b' j)
                               = getEdg g (Port a b i) (Port a' b' j))
                    F (seqZ 0 8) g0 eq_refl);
      generalize (foldl F g0 (seqZ 0 8))
  end.
  intros g1 H1.
  assert (getEdg g1 (Port a b i) (Port a' b' j)
          = getEdg g (Port a b i) (Port a' b' j)) as E1.
  { apply H1. intros g' p _ Hg'. rewrite getEdg_addEdg, getEdg_addNd, Hg'.
    rewrite decide_False; [by destruct (getEdg _ _ _)|].
    intros H. apply ekey_eq in H as [[? ?]|[? ?]]; congruence. }
  clear H1. rewrite <- E1.
  match goal with
  | |- context [foldl ?F g1 ?l] =>
      apply (foldl_invariant
               (fun g' => getEdg g' (Port a b i) (Port a' b' j)
                          = getEdg g1 (Port a b i) (Port a' b' j)) F l g1)
  end; [done|].
  intros g' [[p q] pen] _ Hg'. rewrite getEdg_addEdg, Hg'.
  rewrite decide_False; [by destruct (getEdg _ _ _)|].
  intros H. cbn [getPort] in H.
  apply ekey_eq in H as [[? ?]|[? ?]]; congruence.
Qed.

Lemma cross_cells (l : list (Z * Z)) (g : GridGraph) (a b i a' b' j : Z) :
  (a, b) ≠ (a', b') →
  getEdg (foldl (fun g '(x, y) => writeNd x y 0 0 g) g l)
    (Port a b i) (Port a' b' j)
  = getEdg g (Port a b i) (Port a' b' j).
Proof.
  intros Hne.
  apply (foldl_invariant
           (fun g' => getEdg g' (Port a b i) (Port a' b' j)
                      = getEdg g (Port a b i) (Port a' b' j))); [done|].
  intros g' [x y] _ Hg'. by rewrite writeNd_cross.
Qed.

(** The traversal edge from port [i] of cell [(x, y)] to port [j] of cell
    [(x', y')]: the second cell is the neighbour of the first in direction
    [i], and [j] is the opposite direction. *)
Definition link (g : GridGraph) (x y i x' y' j : Z) : Prop :=
  in_grid g x y ∧ 0 ≤ i < 8
  ∧ getNeighbor g x y i = Some (Center x' y') ∧ j = (i + 4) mod 8.

(** The traversal edges while the ports of neighbours are linked, on the
    grid [g1] with all nodes written: the edges between two cells are
    links, and the links of the triples in [Dn] are there. *)
Definition linkInv (g1 : GridGraph) (Dn : Z * Z * Z → Prop) (g : GridGraph)
    : Prop :=
  kept g1 g
  ∧ (∀ x y i x' y' j,
       (x, y) ≠ (x', y') →
       is_Some (getEdg g (Port x y i) (Port x' y' j)) →
       link g1 x y i x' y' j ∨ link g1 x' y' j x y i)
  ∧ (∀ x y p x' y',
       Dn (x, y, p) → getNeighbor g1 x y p = Some (Center x' y') →
       is_Some (getEdg g (Port x y p) (Port x' y' ((p + 4) mod 8)))).

Lemma linkInv_weaken g1 (Dn Dn' : Z * Z * Z → Prop) g :
  (∀ t, Dn' t → Dn t) → linkInv g1 Dn g → linkInv g1 Dn' g.
Proof.
  intros H (Hk & H1 & H2). split; [done|]. split; [done|].
  intros x y p x' y' Ht. by apply H2, H.
Qed.

(** The body of the loop over the directions of one cell. *)
Definition linkStep (x y : Z) (center : GridNode) (g : GridGraph) (p : Z)
    : GridGraph :=
  let from := getPort center p in
  match getNeighbor g x y p with
  | None => g
  | Some toN =>
      addEdg from (getPort toN ((p + 4) mod 8)) (mkGridEdgePL 0 false) g
  end.

Lemma linkInv_step g1 (Dn : Z * Z * Z → Prop) g x y p :
  centers_indexed g1 → in_grid g1 x y → 0 ≤ p < 8 →
  linkInv g1 Dn g →
  linkInv g1 (fun t => t = (x, y, p) ∨ Dn t) (linkStep x y (Center x y) g p).
Proof.
  intros HI Hin Hp (Hk & H1 & H2). unfold linkStep. cbv zeta.
  pose proof Hk as ((_ & Hidx) & _).
  rewrite (getNeighbor_same_index g1 g) by done.
  destruct (getNeighbor g1 x y p) as [toN|] eqn:E.
  - destruct (getNeighbor_other g1 x y p toN HI Hp E)
      as (x' & y' & -> & Hne).
    cbn [getPort]. split; [|split].
    + eapply kept_trans; [exact Hk|]. by apply kept_addEdg_cross.
    + intros a b i a' b' j Hab. rewrite getEdg_addEdg.
      destruct (getEdg g (Port a b i) (Port a' b' j)) eqn:Eg.
      { intros _. apply H1; [done|]. by rewrite Eg. }
      case_decide as Hkey; [|by intros [? ?]]. intros _.
      apply ekey_eq in Hkey as [[? ?]|[? ?]]; simplify_eq.
      * left. split; [done|]. split; [done|]. by split.
      * right. split; [done|]. split; [done|]. by split.
    + intros a b q a' b' [Ht|Ht] Hnb.
      * injection Ht as -> -> ->. rewrite E in Hnb. injection Hnb as <- <-.
        rewrite getEdg_addEdg. destruct (getEdg g _ _); [done|].
        by rewrite decide_True.
      * rewrite getEdg_addEdg.
        destruct (H2 a b q a' b' Ht Hnb) as [e ->]. done.
  - split; [done|]. split; [done|].
    intros a b q a' b' [Ht|Ht] Hnb; [|by apply H2].
    injection Ht as -> -> ->. congruence.
Qed.

Lemma linkInv_dirs g1 x y (lp : list Z) :
  centers_indexed g1 → in_grid g1 x y → (∀ p, p ∈ lp → 0 ≤ p < 8) →
  ∀ (Dn : Z * Z * Z → Prop) (g : GridGraph),
  linkInv g1 Dn g →
  linkInv g1 (fun t => (t.1 = (x, y) ∧ t.2 ∈ lp) ∨ Dn t)
    (foldl (linkStep x y (Center x y)) g lp).
Proof.
  intros HI Hin. induction lp as [|p lp IH]; intros Hlp Dn g H; cbn [foldl].
  - eapply linkInv_weaken; [|exact H]. intros t [[_ Ht]|Ht]; [|done].
    by apply elem_of_nil in Ht.
  - eapply linkInv_weaken;
      [|apply IH; [|apply (linkInv_step g1 Dn g x y p); [done..| |exact H]]].
    + intros [[a b] q] [[Ha Hq]|Ht]; [|by right; right].
      cbn [fst snd] in *. apply elem_of_cons in Hq as [->|Hq].
      * right. left. by rewrite Ha.
      * left. by split.
    + intros q Hq. apply Hlp. by right.
    + apply Hlp. by left.
Qed.

(** The loop over the cells that links the mirrored ports of neighbours. *)
Lemma linkInv_cells g1 (l : list (Z * Z)) :
  indexed g1 → centers_indexed g1 → (∀ x y, (x, y) ∈ l → in_grid g1 x y) →
  ∀ (Dn : Z * Z * Z → Prop) (g : GridGraph),
  linkInv g1 Dn g →
  linkInv g1 (fun t => (t.1 ∈ l ∧ 0 ≤ t.2 < 8) ∨ Dn t)
    (foldl (fun g '(x, y) =>
              match getNode g x y with
              | None => g
              | Some center =>
                  foldl (fun g p =>
                    let from := getPort center p in
                    match getNeighbor g x y p with
                    | None => g
                    | Some toN =>
                        addEdg from (getPort toN ((p + 4) mod 8))
                          (mkGridEdgePL 0 false) g
                    end) g dirs
              end) g l).
Proof.
  intros Hidx HI. induction l as [|[x y] l IH]; intros Hl Dn g H; cbn [foldl].
  - eapply linkInv_weaken; [|exact H]. intros t [[Ht _]|Ht]; [|done].
    by apply elem_of_nil in Ht.
  - assert (in_grid g1 x y) as Hin by (apply Hl; by left).
    pose proof H as (((_ & Hsi) & _) & _).
    rewrite (getNode_same_index g1 g), (getNode_indexed g1) by done.
    eapply linkInv_weaken;
      [|apply IH; [|apply (linkInv_dirs g1 x y dirs HI Hin); [|exact H]]].
    + intros [[a b] q] [[Ha Hq]|Ht]; [|by right; right].
      cbn [fst snd] in *. apply elem_of_cons in Ha as [Ha|Ha].
      * right. left. split; [done|]. by apply dirs_spec.
      * left. by split.
    + intros a b Hab. apply Hl. by right.
    + intros p. apply dirs_spec.
Qed.

(** ** The costs of the traversal edges *)

Lemma foldM_total {A S : Type} (P : S → Prop) (f : A → S → option S)
    (l : list A) :
  (∀ a s, a ∈ l → P s → ∃ s', f a s = Some s' ∧ P s') →
  ∀ s, P s → ∃ s', foldM f l s = Some s' ∧ P s'.
Proof.
  induction l as [|a l IH]; intros Hstep s Hs; cbn [foldM].
  - by exists s.
  - destruct (Hstep a s) as (s1 & -> & H1); [by left|done|].
    apply IH; [|done]. intros a' s' Ha'. apply Hstep. by right.
Qed.

Lemma writeInitialCosts_total (g : GridGraph) :
  wf g → ∃ g', writeInitialCosts g = Some g' ∧ same_shape g g'.
Proof.
  intros Hwf. unfold writeInitialCosts.
  apply (foldM_total (same_shape g)); [|apply same_shape_refl].
  intros [x y] g1 Hxy H1. apply cells_spec in Hxy.
  pose proof (wf_same_shape _ _ Hwf H1) as Hwf1.
  pose proof H1 as (Hsi & _).
  rewrite (getNode_same_index g g1), (getNode_indexed g) by
    (done || by apply wf_indexed).
  cbn [mbind option_bind].
  assert (in_grid g1 x y) as Hin1.
  { destruct Hsi as (HW & HH & _). unfold in_grid. by rewrite HW, HH. }
  apply (foldM_total (same_shape g)); [|done].
  intros p g2 Hp H2. apply dirs_spec in Hp. cbv zeta.
  pose proof (wf_same_shape _ _ Hwf H2) as Hwf2.
  assert (in_grid g2 x y) as Hin2.
  { destruct H2 as ((HW & HH & _) & _). unfold in_grid. by rewrite HW, HH. }
  destruct (getNeighbor g2 x y p) as [neigh|] eqn:En; [|by exists g2].
  destruct (wf_edge g2 Hwf2 x y p neigh Hin2 Hp En) as [e He].
  cbn [getPort] in *. rewrite He. cbn [mbind option_bind].
  eexists. split; [done|].
  eapply same_shape_trans; [exact H2|].
  repeat case_match;
    repeat (first [apply same_shape_refl
                  | eapply same_shape_trans; [|apply same_shape_modEdg]]).
Qed.

(** Once every direction of every cell is linked, the grid is well formed. *)
Lemma linkInv_wf g1 (Dn : Z * Z * Z → Prop) g :
  indexed g1 → centers_indexed g1 →
  (∀ x y, in_grid g1 x y → is_Some (nds g1 !! Center x y)) →
  (∀ x y p, in_grid g1 x y → 0 ≤ p < 8 → Dn (x, y, p)) →
  linkInv g1 Dn g → wf g.
Proof.
  intros Hidx HI Hnds HDn (Hk & H1 & H2).
  pose proof Hk as ((_ & Hsi) & _ & Hn).
  pose proof Hsi as (HW & HH & HG).
  assert (∀ x y, in_grid g x y ↔ in_grid g1 x y) as Hin.
  { intros x y. unfold in_grid. by rewrite HW, HH. }
  split.
  - rewrite HW. apply Hidx.
  - rewrite HH. apply Hidx.
  - intros x y ?%Hin. rewrite HG. by apply (idx_grid g1 Hidx).
  - intros x y ?%Hin. rewrite Hn. by apply Hnds.
  - intros x y i n' Hxy%Hin Hi Hnb.
    rewrite (getNeighbor_same_index g1 g) in Hnb by done.
    destruct (getNeighbor_other g1 x y i n' HI Hi Hnb) as (x' & y' & -> & _).
    cbn [getPort]. apply H2; [|done]. by apply HDn.
  - intros x y i x' y' Hxy%Hin Hxy'%Hin Hne Hi He.
    rewrite (getNeighbor_same_index g1 g) by done.
    destruct (H1 x y i x' y' _ Hne He)
      as [(_ & _ & Hnb & _)|(_ & Hj & Hnb & Hi')]; [done|].
    destruct (getNeighbor_back g1 x' y' _ x y Hidx Hxy' Hj Hnb) as [_ Hb].
    by rewrite <- Hi' in Hb.
Qed.

(** ** The stages of the constructor *)

(** The grid before any node is written. *)
Definition grid0 (bbox : DBox) (cellSize spacer : float) (pens : Penalties)
    (w h : Z) : GridGraph :=
  {| _bbox := bbox; _c := pens; getXWidth := w; getYHeight := h;
     _grid := ∅; _cellSize := cellSize; _spacer := spacer;
     nds := ∅; edgs := ∅ |}.

(** The first loop of the constructor. *)
Definition writeNodes (g : GridGraph) : GridGraph :=
  foldl (fun g '(x, y) => writeNd x y 0 0 g) g (cells g).

(** The second loop of the constructor. *)
Definition linkPorts (g : GridGraph) : GridGraph :=
  foldl (fun g '(x, y) =>
    match getNode g x y with
    | None => g
    | Some center =>
        foldl (fun g p =>
          let from := getPort center p in
          match getNeighbor g x y p with
          | None => g
          | Some toN =>
              addEdg from (getPort toN ((p + 4) mod 8))
                (mkGridEdgePL 0 false) g
          end) g dirs
    end) g (cells g).

Lemma mkGridGraph_stages (bbox : DBox) (cellSize spacer : float)
    (pens : Penalties) (w h : Z) :
  mkGridGraph bbox cellSize spacer pens w h
  = if negb ((p_0 pens <? p_135 pens) && (p_135 pens <? p_90 pens)
             && (p_90 pens <? p_45 pens))%float
    then None
    else writeInitialCosts
           (linkPorts (writeNodes (grid0 bbox cellSize spacer pens w h))).
Proof. reflexivity. Qed.

(** The body of the loop over the directions in writeInitialCosts. *)
Definition costStep (x y : Z) (n : GridNode) (i : Z) (g : GridGraph)
    : option GridGraph :=
  let port := getPort n i in
  match getNeighbor g x y i with
  | None => Some g
  | Some neigh =>
      let q := getPort neigh ((i + 4) mod 8) in
      _ ← getEdg g port q;
      let g := if i mod 4 =? 0
               then modEdg port q (setCost (verticalPen (_c g))) g
               else g in
      let g := if (i + 2) mod 4 =? 0
               then modEdg port q (setCost (horizontalPen (_c g))) g
               else g in
      let g := if negb (i mod 2 =? 0)
               then modEdg port q (setCost (diagonalPen (_c g))) g
               else g in
      Some g
  end.

Lemma writeInitialCosts_steps (g : GridGraph) :
  writeInitialCosts g
  = foldM (fun '(x, y) g =>
             n ← getNode g x y; foldM (costStep x y n) dirs g) (cells g) g.
Proof. reflexivity. Qed.

(** The cost writeInitialCosts gives to a traversal edge in direction [i]. *)
Definition initCost (c : Penalties) (i : Z) : float :=
  if Z.odd i then diagonalPen c
  else if i mod 4 =? 0 then verticalPen c else horizontalPen c.

Lemma initCost_opposite (c : Penalties) (i : Z) :
  0 ≤ i < 8 → initCost c ((i + 4) mod 8) = initCost c i.
Proof. intros Hi. each_dir i Hi; reflexivity. Qed.

Lemma costStep_found (x y : Z) (n neigh : GridNode) (i : Z) (g : GridGraph)
    (e : GridEdgePL) :
  0 ≤ i < 8 → getNeighbor g x y i = Some neigh →
  getEdg g (getPort n i) (getPort neigh ((i + 4) mod 8)) = Some e →
  costStep x y n i g
  = Some (modEdg (getPort n i) (getPort neigh ((i + 4) mod 8))
            (setCost (initCost (_c g) i)) g).
Proof.
  intros Hi Hn He. unfold costStep. rewrite Hn. cbv zeta. rewrite He.
  cbn [mbind option_bind]. each_dir i Hi; reflexivity.
Qed.

(** ** Edges the later stages leave alone *)

(** The key of an edge between ports of two cells. *)
Definition cross_key (k : GridNode * GridNode) : Prop :=
  ∃ x y p x' y' q, (x, y) ≠ (x', y') ∧ k = ekey (Port x y p) (Port x' y' q).

Definition same_inner (g g' : GridGraph) : Prop :=
  ∀ k, ¬ cross_key k → edgs g' !! k = edgs g !! k.

Lemma edgs_addEdg_ne (g : GridGraph) a b pl k :
  k ≠ ekey a b → edgs (addEdg a b pl g) !! k = edgs g !! k.
Proof.
  intros Hk. unfold addEdg. destruct (getEdg g a b); [done|].
  cbn. by rewrite lookup_insert_ne.
Qed.

Lemma same_inner_trans (g1 g2 g3 : GridGraph) :
  same_inner g1 g2 → same_inner g2 g3 → same_inner g1 g3.
Proof. intros H1 H2 k Hk. by rewrite H2, H1. Qed.

Lemma same_inner_addEdg (g : GridGraph) (x y p x' y' q : Z) pl :
  (x', y') ≠ (x, y) → same_inner g (addEdg (Port x y p) (Port x' y' q) pl g).
Proof.
  intros Hne k Hk. apply edgs_addEdg_ne. intros ->. apply Hk.
  exists x, y, p, x', y', q. split; [congruence|done].
Qed.

Lemma same_inner_modEdg (g : GridGraph) (x y p x' y' q : Z) f :
  (x', y') ≠ (x, y) → same_inner g (modEdg (Port x y p) (Port x' y' q) f g).
Proof.
  intros Hne k Hk. rewrite edgs_modEdg. rewrite decide_False; [done|].
  intros ->. apply Hk. exists x, y, p, x', y', q. split; [congruence|done].
Qed.

Lemma linkPorts_inner (g : GridGraph) :
  centers_indexed g → kept g (linkPorts g) ∧ same_inner g (linkPorts g).
Proof.
  intros HI. unfold linkPorts.
  apply (foldl_invariant (fun g' => kept g g' ∧ same_inner g g'));
    [split; [apply kept_refl|done]|].
  intros g1 [x y] _ [H1 S1].
  pose proof (kept_centers _ _ H1 HI) as HI1.
  destruct (getNode g1 x y) as [center|] eqn:E; [|done].
  apply getNode_center in E as ->; [|done].
  apply (foldl_invariant (fun g' => kept g g' ∧ same_inner g g')); [done|].
  intros g2 p Hp [H2 S2]. apply dirs_spec in Hp. cbv zeta.
  pose proof (kept_centers _ _ H2 HI) as HI2.
  destruct (getNeighbor g2 x y p) as [toN|] eqn:E; [|done].
  apply getNeighbor_other in E as (x' & y' & -> & Hne); [|done..].
  split.
  - eapply kept_trans; [exact H2|]. by apply kept_addEdg_cross.
  - eapply same_inner_trans; [exact S2|]. by apply same_inner_addEdg.
Qed.

Lemma writeInitialCosts_inner (g g' : GridGraph) :
  centers_indexed g → writeInitialCosts g = Some g' → same_inner g g'.
Proof.
  intros HI. unfold writeInitialCosts. intros H.
  assert (kept g g' ∧ same_inner g g') as [_ ?]; [|done].
  revert H.
  apply (foldM_invariant (fun g' => kept g g' ∧ same_inner g g'));
    [|split; [apply kept_refl|done]].
  intros [x y] g1 g1' _ [H1 S1] E.
  pose proof (kept_centers _ _ H1 HI) as HI1.
  apply bind_Some in E as (n & Hn & E).
  apply getNode_center in Hn as ->; [|done].
  revert E.
  apply (foldM_invariant (fun g' => kept g g' ∧ same_inner g g')); [|done].
  intros p g2 g2' Hp [H2 S2] E. apply dirs_spec in Hp. cbv zeta in E.
  pose proof (kept_centers _ _ H2 HI) as HI2.
  destruct (getNeighbor g2 x y p) as [neigh|] eqn:En;
    [|by simplify_eq].
  pose proof En as En'.
  apply getNeighbor_other in En' as (x' & y' & -> & Hne); [|done..].
  apply bind_Some in E as (e & He & E).
  assert (costStep x y (Center x y) p g2 = Some g2') as Hstep.
  { unfold costStep. rewrite En. cbv zeta. rewrite He. exact E. }
  rewrite (costStep_found x y _ _ p g2 e Hp En He) in Hstep.
  injection Hstep as <-. cbn [getPort]. split.
  - eapply kept_trans; [exact H2|]. by apply kept_modEdg_cross.
  - eapply same_inner_trans; [exact S2|]. by apply same_inner_modEdg.
Qed.

(** ** The edges between a center and its ports *)

Lemma writeNd_sink_loop (x y : Z) (xOff yOff xPos yPos : float)
    (l : list Z) :
  ∀ (g : GridGraph) (a b a' b' i : Z),
  getEdg
    (foldl (fun g i =>
      addEdg (Center x y) (Port x y i) (mkGridEdgePL INF true)
        (addNd (Port x y i)
           {| getX := (xOff + xPos
                       + int_to_double (portOff i 0) * _spacer g)%float;
              getY := (yOff + yPos
                       + int_to_double (portOff i 2) * _spacer g)%float |}
           g)) g l)
    (Center a b) (Port a' b' i)
  = match getEdg g (Center a b) (Port a' b' i) with
    | Some v => Some v
    | None =>
        if decide ((a, b) = (x, y) ∧ (a', b') = (x, y) ∧ i ∈ l)
        then Some (mkGridEdgePL INF true) else None
    end.
Proof.
  induction l as [|i0 l IH]; intros g a b a' b' i; cbn [foldl].
  - destruct (getEdg g _ _); [done|]. rewrite decide_False; [done|].
    intros (_ & _ & H). by apply elem_of_nil in H.
  - rewrite IH, getEdg_addEdg, getEdg_addNd.
    destruct (getEdg g (Center a b) (Port a' b' i)); [done|].
    destruct (decide (ekey (Center a b) (Port a' b' i)
                      = ekey (Center x y) (Port x y i0))) as [Hk|Hk].
    + apply ekey_eq in Hk as [[? ?]|[? ?]]; [|congruence].
      simplify_eq. rewrite decide_True; [done|].
      split; [done|]. split; [done|by left].
    + destruct (decide ((a, b) = (x, y) ∧ (a', b') = (x, y) ∧ i ∈ l))
        as [(?&?&?)|Hn].
      * rewrite decide_True; [done|]. split; [done|]. split; [done|by right].
      * rewrite decide_False; [done|]. intros (E1 & E2 & Hi).
        apply elem_of_cons in Hi as [->|Hi]; [|tauto].
        by simplify_eq.
Qed.

Lemma writeNd_sinks (x y a b a' b' i : Z) (xOff yOff : float)
    (g : GridGraph) :
  getEdg (writeNd x y xOff yOff g) (Center a b) (Port a' b' i)
  = match getEdg g (Center a b) (Port a' b' i) with
    | Some v => Some v
    | None =>
        if decide ((a, b) = (x, y) ∧ (a', b') = (x, y) ∧ 0 ≤ i < 8)
        then Some (mkGridEdgePL INF true) else None
    end.
Proof.
  unfold writeNd. cbv zeta.
  match goal with
  | |- context [foldl ?F ?g0 (seqZ 0 8)] =>
      pose proof (writeNd_sink_loop x y xOff yOff
                    (getX (getLowerLeft (_bbox g))
                     + size_t_to_double x * _cellSize g)%float
                    (getY (getLowerLeft (_bbox g))
                     + size_t_to_double y * _cellSize g)%float
                    (seqZ 0 8) g0 a b a' b' i) as H1;
      revert H1; generalize (foldl F g0 (seqZ 0 8))
  end.
  intros g1 H1.
  match goal with
  | |- context [foldl ?F g1 ?l] =>
      pose proof (foldl_invariant
                    (fun g' => getEdg g' (Center a b) (Port a' b' i)
                               = getEdg g1 (Center a b) (Port a' b' i))
                    F l g1 eq_refl) as H2;
      revert H2; generalize (foldl F g1 l)
  end.
  intros g2 H2. rewrite H2, H1.
  - change (getEdg (set_grid _ (addNd _ _ g)) (Center a b) (Port a' b' i))
      with (getEdg g (Center a b) (Port a' b' i)).
    destruct (getEdg g _ _); [done|].
    assert (i ∈ seqZ 0 8 ↔ 0 ≤ i < 8) as Hi by (rewrite elem_of_seqZ; lia).
    destruct (decide ((a, b) = (x, y) ∧ (a', b') = (x, y) ∧ 0 ≤ i < 8))
      as [(?&?&?)|Hn].
    + rewrite decide_True; [done|]. by rewrite Hi.
    + rewrite decide_False; [done|]. rewrite Hi. exact Hn.
  - intros g' [[p q] pen] _ Hg'. rewrite getEdg_addEdg, Hg'.
    rewrite decide_False; [by destruct (getEdg _ _ _)|].
    intros H. cbn [getPort] in H.
    apply ekey_eq in H as [[? ?]|[? ?]]; congruence.
Qed.

Lemma writeNodes_sinks (l : list (Z * Z)) :
  ∀ (g : GridGraph) (a b a' b' i : Z),
  getEdg (foldl (fun g '(x, y) => writeNd x y 0 0 g) g l)
    (Center a b) (Port a' b' i)
  = match getEdg g (Center a b) (Port a' b' i) with
    | Some v => Some v
    | None =>
        if decide ((a, b) ∈ l ∧ (a', b') = (a, b) ∧ 0 ≤ i < 8)
        then Some (mkGridEdgePL INF true) else None
    end.
Proof.
  induction l as [|[x y] l IH]; intros g a b a' b' i; cbn [foldl].
  - destruct (getEdg g _ _); [done|]. rewrite decide_False; [done|].
    intros (H & _). by apply elem_of_nil in H.
  - rewrite IH, writeNd_sinks.
    destruct (getEdg g (Center a b) (Port a' b' i)); [done|].
    destruct (decide ((a, b) = (x, y) ∧ (a', b') = (x, y) ∧ 0 ≤ i < 8))
      as [(E1 & E2 & Hi)|Hn].
    + rewrite decide_True; [done|]. split; [rewrite E1; by left|].
      split; [congruence|done].
    + destruct (decide ((a, b) ∈ l ∧ (a', b') = (a, b) ∧ 0 ≤ i < 8))
        as [(?&?&?)|Hn'].
      * rewrite decide_True; [done|]. split; [by right|done].
      * rewrite decide_False; [done|]. intros (Hin & E & Hi).
        apply elem_of_cons in Hin as [Hin|Hin]; [|tauto].
        apply Hn. split; [done|]. split; [congruence|done].
Qed.

(** The edges between a center and a port in the grid that is returned. *)
Lemma built_sinks (bbox : DBox) (cellSize spacer : float)
    (pens : Penalties) (w h : Z) (g : GridGraph) (a b a' b' i : Z) :
  mkGridGraph bbox cellSize spacer pens w h = Some g →
  getEdg g (Center a b) (Port a' b' i)
  = if decide ((0 ≤ a < w ∧ 0 ≤ b < h) ∧ (a', b') = (a, b) ∧ 0 ≤ i < 8)
    then Some (mkGridEdgePL INF true) else None.
Proof.
  rewrite mkGridGraph_stages. destruct (negb _); [done|]. intros H.
  set (g0 := grid0 bbox cellSize spacer pens w h) in *.
  assert (centers_indexed (writeNodes g0)) as HI.
  { apply (bendInv_cells pens (cells g0) (fun _ => False) g0).
    split; [done|]. split.
    - intros k n Hk. cbn in Hk. by rewrite lookup_empty in Hk.
    - split; [|done]. intros ????. left. apply lookup_empty. }
  destruct (linkPorts_inner _ HI) as [Hk S2].
  pose proof (writeInitialCosts_inner _ _ (kept_centers _ _ Hk HI) H) as S3.
  unfold getEdg. rewrite S3, S2.
  - fold (getEdg (writeNodes g0) (Center a b) (Port a' b' i)).
    unfold writeNodes. rewrite writeNodes_sinks.
    unfold getEdg at 1. cbn [edgs g0 grid0]. rewrite lookup_empty.
    destruct (decide ((a, b) ∈ cells g0 ∧ (a', b') = (a, b) ∧ 0 ≤ i < 8))
      as [(Hc & ? & ?)|Hn].
    + rewrite decide_True; [done|]. by apply cells_spec in Hc.
    + rewrite decide_False; [done|]. intros (Hc & ? & ?). apply Hn.
      split; [|done]. by apply cells_spec.
  - intros (x & y & p & x' & y' & q & _ & E).
    apply ekey_eq in E as [[? ?]|[? ?]]; congruence.
  - intros (x & y & p & x' & y' & q & _ & E).
    apply ekey_eq in E as [[? ?]|[? ?]]; congruence.
Qed.

(** ** The initial costs, edge by edge *)

(** A loop that passes [a] establishes what the step at [a] establishes,
    if the later steps keep it. *)
Lemma foldM_reach {A S : Type} (P Q : S → Prop) (f : A → S → option S)
    (l : list A) (a : A) :
  a ∈ l →
  (∀ b s s', b ∈ l → P s → f b s = Some s' → P s') →
  (∀ s s', P s → f a s = Some s' → Q s') →
  (∀ b s s', b ∈ l → P s → Q s → f b s = Some s' → Q s') →
  ∀ s s', P s → foldM f l s = Some s' → Q s'.
Proof.
  intros Ha HP Hest Hstab.
  assert (∀ l', (∀ b, b ∈ l' → b ∈ l) →
                ∀ s s', P s → Q s → foldM f l' s = Some s' → Q s') as Hrest.
  { intros l' Hl' s s' Hs Hq H.
    assert (P s' ∧ Q s') as [_ ?]; [|done]. revert H.
    apply (foldM_invariant (fun s => P s ∧ Q s)); [|done].
    intros b t t' Hb [Ht Hq'] E. split.
    - eapply HP; [by apply Hl'|done..].
    - eapply Hstab; [by apply Hl'|done..]. }
  revert Ha HP Hstab Hrest. induction l as [|b l IH];
    intros Ha HP Hstab Hrest s s' Hs H.
  - by apply elem_of_nil in Ha.
  - cbn [foldM] in H. destruct (f b s) as [s1|] eqn:E; [|done].
    assert (P s1) as Hs1 by (eapply HP; [by left|done..]).
    apply elem_of_cons in Ha as [->|Ha].
    + apply (Hrest l) with s1; [intros; by right|done| |done].
      exact (Hest s s1 Hs E).
    + apply (IH Ha) with s1; [| | |done..].
      * intros c t t' Hc. apply HP. by right.
      * intros c t t' Hc. apply Hstab. by right.
      * intros l' Hl'. apply Hrest. intros c Hc. right. by apply Hl'.
Qed.

(** What an edge can be once it has been added. *)
Lemma linkPorts_payload (g : GridGraph) (a b : GridNode) (e : GridEdgePL) :
  getEdg (linkPorts g) a b = Some e →
  getEdg g a b = Some e ∨ e = mkGridEdgePL 0 false.
Proof.
  unfold linkPorts.
  apply (foldl_invariant
           (fun g' => getEdg g' a b = Some e →
                      getEdg g a b = Some e ∨ e = mkGridEdgePL 0 false));
    [by left|].
  intros g1 [x y] _ H1. destruct (getNode g1 x y) as [center|]; [|done].
  apply (foldl_invariant
           (fun g' => getEdg g' a b = Some e →
                      getEdg g a b = Some e ∨ e = mkGridEdgePL 0 false));
    [done|].
  intros g2 p _ H2. cbv zeta. destruct (getNeighbor g2 x y p); [|done].
  rewrite getEdg_addEdg. destruct (getEdg g2 a b) eqn:E; [done|].
  case_decide; [|done]. intros [= <-]. by right.
Qed.

Section InitialCosts.

Variables (g2 : GridGraph) (pens : Penalties).
Variables (x0 y0 i0 x0' y0' : Z).

Hypothesis Hwf : wf g2.
Hypothesis Hc : _c g2 = pens.
Hypothesis Hin0 : in_grid g2 x0 y0.
Hypothesis Hi0 : 0 ≤ i0 < 8.
Hypothesis Hnb0 : getNeighbor g2 x0 y0 i0 = Some (Center x0' y0').

(** Every traversal edge is a plain edge with some cost. *)
Definition plainLinks (s : GridGraph) : Prop :=
  same_shape g2 s ∧ _c s = pens
  ∧ ∀ x y i x' y' j e,
      (x, y) ≠ (x', y') →
      getEdg s (Port x y i) (Port x' y' j) = Some e →
      ∃ c, e = mkGridEdgePL c false.

(** The edge in direction [i0] has its cost. *)
Definition costSet (s : GridGraph) : Prop :=
  getEdg s (Port x0 y0 i0) (Port x0' y0' ((i0 + 4) mod 8))
  = Some (mkGridEdgePL (initCost pens i0) false).

Lemma costStep_effect (x y p : Z) (s s' : GridGraph) :
  in_grid g2 x y → 0 ≤ p < 8 → plainLinks s →
  costStep x y (Center x y) p s = Some s' →
  match getNeighbor g2 x y p with
  | Some nb =>
      ∃ x' y', nb = Center x' y' ∧ (x', y') ≠ (x, y)
        ∧ is_Some (getEdg s (Port x y p) (Port x' y' ((p + 4) mod 8)))
        ∧ s' = modEdg (Port x y p) (Port x' y' ((p + 4) mod 8))
                 (setCost (initCost pens p)) s
  | None => s' = s
  end.
Proof.
  intros Hin Hp (Hs & Hcs & _) E.
  pose proof (wf_same_shape _ _ Hwf Hs) as Hwfs.
  assert (in_grid s x y) as Hins.
  { destruct Hs as ((HW & HH & _) & _). unfold in_grid. by rewrite HW, HH. }
  rewrite <- (getNeighbor_same_index g2 s) by apply Hs.
  destruct (getNeighbor s x y p) as [neigh|] eqn:En.
  - destruct (getNeighbor_Center s x y p neigh Hwfs Hins En)
      as (x' & y' & -> & _).
    pose proof (getNeighbor_neq_self s x y p _ Hwfs Hins Hp En) as Hne.
    destruct (wf_edge s Hwfs x y p _ Hins Hp En) as [e He].
    rewrite (costStep_found x y (Center x y) _ p s e Hp En He) in E.
    injection E as <-. exists x', y'. split; [done|]. split; [exact Hne|].
    split; [by exists e|]. by rewrite Hcs.
  - unfold costStep in E. rewrite En in E. by injection E.
Qed.

Lemma plainLinks_step (x y p : Z) (s s' : GridGraph) :
  in_grid g2 x y → 0 ≤ p < 8 → plainLinks s →
  costStep x y (Center x y) p s = Some s' → plainLinks s'.
Proof.
  intros Hin Hp Hs E.
  pose proof (costStep_effect x y p s s' Hin Hp Hs E) as H.
  destruct (getNeighbor g2 x y p) as [nb|]; [|by subst].
  destruct H as (x' & y' & _ & Hne & _ & ->).
  destruct Hs as (Hs & Hcs & Hpl). split; [|split; [done|]].
  - eapply same_shape_trans; [exact Hs|apply same_shape_modEdg].
  - intros a b i a' b' j e Hab. unfold getEdg. rewrite edgs_modEdg.
    case_decide as Hk; [|by apply Hpl].
    destruct (edgs s !! ekey (Port a b i) (Port a' b' j)) as [e0|] eqn:E0;
      [|done].
    intros [= <-]. destruct (Hpl a b i a' b' j e0 Hab E0) as [c ->].
    by eexists.
Qed.

Lemma costSet_here (s s' : GridGraph) :
  plainLinks s → costStep x0 y0 (Center x0 y0) i0 s = Some s' → costSet s'.
Proof.
  intros Hs E.
  pose proof (costStep_effect x0 y0 i0 s s' Hin0 Hi0 Hs E) as H.
  rewrite Hnb0 in H. destruct H as (x' & y' & [= <- <-] & Hne & [e He] & ->).
  unfold costSet, getEdg. rewrite edgs_modEdg, decide_True by done.
  unfold getEdg in He. rewrite He.
  destruct Hs as (_ & _ & Hpl).
  destruct (Hpl x0 y0 i0 x0' y0' ((i0 + 4) mod 8) e) as [c ->];
    [congruence|done|done].
Qed.

Lemma costSet_stable (x y p : Z) (s s' : GridGraph) :
  in_grid g2 x y → 0 ≤ p < 8 → plainLinks s → costSet s →
  costStep x y (Center x y) p s = Some s' → costSet s'.
Proof.
  intros Hin Hp Hs Hq E.
  pose proof (costStep_effect x y p s s' Hin Hp Hs E) as H.
  destruct (getNeighbor g2 x y p) as [nb|]; [|by subst].
  destruct H as (x' & y' & _ & Hne & _ & ->).
  unfold costSet, getEdg in *. rewrite edgs_modEdg.
  case_decide as Hk; [|done]. rewrite Hq. cbn.
  apply ekey_eq in Hk as [[Ha Hb]|[Ha Hb]].
  - injection Ha as _ _ ->. done.
  - injection Ha as _ _ ->. by rewrite initCost_opposite.
Qed.

(** writeInitialCosts gives the edge its cost. *)
Lemma writeInitialCosts_costSet (g : GridGraph) :
  (∀ x y i x' y' j e,
      (x, y) ≠ (x', y') →
      getEdg g2 (Port x y i) (Port x' y' j) = Some e →
      e = mkGridEdgePL 0 false) →
  writeInitialCosts g2 = Some g → costSet g.
Proof.
  intros Hpl. rewrite writeInitialCosts_steps.
  assert (plainLinks g2) as H2.
  { split; [apply same_shape_refl|]. split; [done|].
    intros x y i x' y' j e Hne He. exists 0%float. by eapply Hpl. }
  assert (∀ x y s, in_grid g2 x y → plainLinks s →
                   getNode s x y = Some (Center x y)) as Hnode.
  { intros x y s Hin (Hs & _).
    rewrite (getNode_same_index g2 s) by apply Hs.
    by apply getNode_indexed; [apply wf_indexed|]. }
  apply (foldM_reach plainLinks costSet _ _ (x0, y0));
    [by apply cells_spec| | | |exact H2].
  - intros [x y] s s' Hxy%cells_spec Hs E.
    rewrite (Hnode x y s Hxy Hs) in E. cbn [mbind option_bind] in E.
    revert E. apply (foldM_invariant plainLinks); [|done].
    intros p t t' Hp%dirs_spec Ht. by apply plainLinks_step.
  - intros s s' Hs E.
    rewrite (Hnode x0 y0 s Hin0 Hs) in E. cbn [mbind option_bind] in E.
    revert E. apply (foldM_reach plainLinks costSet _ _ i0);
      [by apply dirs_spec| | | |done].
    + intros p t t' Hp%dirs_spec Ht. by apply plainLinks_step.
    + apply costSet_here.
    + intros p t t' Hp%dirs_spec Ht Hq. by apply costSet_stable.
  - intros [x y] s s' Hxy%cells_spec Hs Hq E.
    rewrite (Hnode x y s Hxy Hs) in E. cbn [mbind option_bind] in E.
    assert (plainLinks s' ∧ costSet s') as [_ ?]; [|done]. revert E.
    apply (foldM_invariant (fun t => plainLinks t ∧ costSet t)); [|done].
    intros p t t' Hp%dirs_spec [Ht Hq'] E. split.
    + by eapply plainLinks_step.
    + by eapply costSet_stable.
Qed.

End InitialCosts.

(** The grid after the ports are linked: well formed, every traversal edge
    still without a cost. *)
Lemma linked_wf (bbox : DBox) (cellSize spacer : float) (pens : Penalties)
    (w h : Z) :
  0 ≤ w < SIZE_MOD → 0 ≤ h < SIZE_MOD →
  let g2 := linkPorts (writeNodes (grid0 bbox cellSize spacer pens w h)) in
  wf g2 ∧ _c g2 = pens ∧ getXWidth g2 = w ∧ getYHeight g2 = h
  ∧ centers_indexed g2
  ∧ ∀ x y i x' y' j e,
      (x, y) ≠ (x', y') →
      getEdg g2 (Port x y i) (Port x' y' j) = Some e →
      e = mkGridEdgePL 0 false.
Proof.
  intros Hw Hh. cbv zeta.
  set (g0 := grid0 bbox cellSize spacer pens w h).
  set (g1 := writeNodes g0).
  pose proof (bendInv_cells pens (cells g0) (fun _ => False) g0) as Hb.
  pose proof (nodesInv_cells bbox cellSize spacer w h (cells g0)
                (fun _ => False) g0) as Hn.
  change (foldl (fun g '(x, y) => writeNd x y 0 0 g) g0 (cells g0))
    with g1 in Hb, Hn.
  assert (∀ a b i a' b' j, (a, b) ≠ (a', b') →
            getEdg g1 (Port a b i) (Port a' b' j) = None) as Hx.
  { intros a b i a' b' j Hne. unfold g1, writeNodes.
    rewrite cross_cells by done. apply lookup_empty. }
  destruct Hb as (Hc1 & HI & _).
  { split; [done|]. split.
    - intros k n Hk. cbn in Hk. by rewrite lookup_empty in Hk.
    - split; [|done]. intros ????. left. apply lookup_empty. }
  destruct Hn as (_ & _ & _ & HW & HH & Hc).
  { do 5 (split; [done|]). by intros ? ? []. }
  assert (∀ x y, in_grid g1 x y → (x, y) ∈ cells g0) as Hcell.
  { intros x y [Hx' Hy']. apply cells_spec. rewrite HW in Hx'.
    rewrite HH in Hy'. by split. }
  assert (indexed g1) as Hidx.
  { split; [by rewrite HW|by rewrite HH|].
    intros x y Hxy. apply Hc. left. by apply Hcell. }
  assert (linkInv g1 (fun _ => False) g1) as Hl.
  { split; [apply kept_refl|]. split; [|done].
    intros x y i x' y' j Hne [e He]. by rewrite Hx in He. }
  apply (linkInv_cells g1 (cells g1) Hidx HI) in Hl;
    [|intros x y; apply cells_spec].
  change (foldl _ g1 (cells g1)) with (linkPorts g1) in Hl.
  pose proof Hl as (Hk & _).
  pose proof Hk as (((_ & Hc2 & _) & HW2 & HH2 & _) & _).
  apply (linkInv_wf g1) in Hl; [|done..| |].
  - split; [exact Hl|]. split; [congruence|]. split; [congruence|].
    split; [congruence|]. split; [by eapply kept_centers|].
    intros x y i x' y' j e Hne He.
    apply linkPorts_payload in He as [He| ->]; [|done].
    by rewrite Hx in He.
  - intros x y Hxy. destruct (Hc x y) as (_ & -> & _); [|done].
    left. by apply Hcell.
  - intros x y p Hxy Hp. left. split; [|done]. by apply cells_spec.
Qed.

(** The edges between ports of two cells after the second loop of the
    constructor: each joins port i of a cell with port (i + 4) mod 8 of its
    neighbour in direction i. *)
Lemma linked_cross (bbox : DBox) (cellSize spacer : float) (pens : Penalties)
    (w h : Z) :
  0 ≤ w < SIZE_MOD → 0 ≤ h < SIZE_MOD →
  let g2 := linkPorts (writeNodes (grid0 bbox cellSize spacer pens w h)) in
  ∀ x y i x' y' j,
    (x, y) ≠ (x', y') →
    is_Some (getEdg g2 (Port x y i) (Port x' y' j)) →
    link g2 x y i x' y' j.
Proof.
  intros Hw Hh. cbv zeta.
  set (g0 := grid0 bbox cellSize spacer pens w h).
  set (g1 := writeNodes g0).
  pose proof (bendInv_cells pens (cells g0) (fun _ => False) g0) as Hb.
  pose proof (nodesInv_cells bbox cellSize spacer w h (cells g0)
                (fun _ => False) g0) as Hn.
  change (foldl (fun g '(x, y) => writeNd x y 0 0 g) g0 (cells g0))
    with g1 in Hb, Hn.
  assert (∀ a b i a' b' j, (a, b) ≠ (a', b') →
            getEdg g1 (Port a b i) (Port a' b' j) = None) as Hx.
  { intros a b i a' b' j Hne. unfold g1, writeNodes.
    rewrite cross_cells by done. apply lookup_empty. }
  destruct Hb as (Hc1 & HI & _).
  { split; [done|]. split.
    - intros k n Hk. cbn in Hk. by rewrite lookup_empty in Hk.
    - split; [|done]. intros ????. left. apply lookup_empty. }
  destruct Hn as (_ & _ & _ & HW & HH & Hc).
  { do 5 (split; [done|]). by intros ? ? []. }
  assert (∀ x y, in_grid g1 x y → (x, y) ∈ cells g0) as Hcell.
  { intros x y [Hx' Hy']. apply cells_spec. rewrite HW in Hx'.
    rewrite HH in Hy'. by split. }
  assert (indexed g1) as Hidx.
  { split; [by rewrite HW|by rewrite HH|].
    intros x y Hxy. apply Hc. left. by apply Hcell. }
  assert (linkInv g1 (fun _ => False) g1) as Hl.
  { split; [apply kept_refl|]. split; [|done].
    intros x y i x' y' j Hne [e He]. by rewrite Hx in He. }
  apply (linkInv_cells g1 (cells g1) Hidx HI) in Hl;
    [|intros x y; apply cells_spec].
  change (foldl _ g1 (cells g1)) with (linkPorts g1) in Hl.
  destruct Hl as (((_ & Hsi) & _) & Hcross & _).
  pose proof Hsi as (HW2 & HH2 & _).
  assert (∀ a b i a' b' j, link g1 a b i a' b' j →
            link (linkPorts g1) a b i a' b' j) as Hlink.
  { intros a b i a' b' j (Hin & Hi & Hnb & Hj).
    split; [unfold in_grid in *; by rewrite HW2, HH2|].
    split; [done|]. split; [|done].
    by rewrite (getNeighbor_same_index g1). }
  intros x y i x' y' j Hne He.
  destruct (Hcross x y i x' y' j Hne He) as [H|H]; [by apply Hlink|].
  destruct H as (Hin' & Hj & Hnb & Hi).
  destruct (getNeighbor_back g1 x' y' j x y Hidx Hin' Hj Hnb) as [Hin Hback].
  apply Hlink. split; [done|].
  assert (0 ≤ i < 8) as Hi8 by (subst i; apply Z.mod_pos_bound; lia).
  split; [done|]. rewrite <- Hi in Hback. split; [done|].
  subst i. each_dir j Hj; reflexivity.
Qed.

(** ** The sink edges of a center *)

Lemma GridGraph_eq (g g' : GridGraph) :
  _bbox g' = _bbox g → _c g' = _c g → getXWidth g' = getXWidth g →
  getYHeight g' = getYHeight g → _grid g' = _grid g →
  _cellSize g' = _cellSize g → _spacer g' = _spacer g →
  nds g' = nds g → edgs g' = edgs g → g' = g.
Proof. destruct g, g'; cbn. intros. by subst. Qed.

(** A loop of [modEdg] with an idempotent change, seen from one key. *)
Lemma modEdg_loop {A : Type} (f : GridEdgePL → GridEdgePL)
    (key : A → GridNode * GridNode) (l : list A) :
  (∀ e, f (f e) = f e) →
  ∀ (g : GridGraph),
  let g' := foldl (fun g i => set_edgs (alter f (key i)) g) g l in
  (_bbox g' = _bbox g ∧ _c g' = _c g ∧ getXWidth g' = getXWidth g
   ∧ getYHeight g' = getYHeight g ∧ _grid g' = _grid g
   ∧ _cellSize g' = _cellSize g ∧ _spacer g' = _spacer g
   ∧ nds g' = nds g)
  ∧ ∀ k, edgs g' !! k
         = if decide (k ∈ key <$> l) then f <$> edgs g !! k
           else edgs g !! k.
Proof.
  intros Hf. induction l as [|i l IH]; intros g; cbn [foldl]; cbv zeta.
  - split; [done|]. intros k. rewrite decide_False; [done|].
    apply not_elem_of_nil.
  - destruct (IH (set_edgs (alter f (key i)) g)) as [Hfr Hk].
    cbv zeta in Hfr, Hk. split; [exact Hfr|].
    intros k. rewrite Hk. cbn [set_edgs edgs]. rewrite fmap_cons.
    destruct (decide (k = key i)) as [->|Hne].
    + rewrite lookup_alter_eq, (decide_True (P := _ ∈ _ :: _)) by by left.
      case_decide; [|done]. destruct (edgs g !! key i); [|done].
      cbn. by rewrite Hf.
    + rewrite lookup_alter_ne by done.
      destruct (decide (k ∈ key <$> l)) as [Hin|Hin].
      * rewrite decide_True; [done|by right].
      * rewrite decide_False; [done|].
        intros [?|?]%elem_of_cons; done.
Qed.

Lemma sink_keys (x y : Z) (k : GridNode * GridNode) :
  k ∈ (fun i => ekey (getPort (Center x y) i) (Center x y)) <$> dirs
  ↔ ∃ i, 0 ≤ i < 8 ∧ k = ekey (Port x y i) (Center x y).
Proof.
  rewrite list_elem_of_fmap. split.
  - intros (i & -> & Hi%dirs_spec). by exists i.
  - intros (i & Hi & ->). exists i. split; [done|by apply dirs_spec].
Qed.

Lemma openNodeSink_loop (g : GridGraph) (x y : Z) (cost : float) :
  let g' := openNodeSink g (Center x y) cost in
  (_bbox g' = _bbox g ∧ _c g' = _c g ∧ getXWidth g' = getXWidth g
   ∧ getYHeight g' = getYHeight g ∧ _grid g' = _grid g
   ∧ _cellSize g' = _cellSize g ∧ _spacer g' = _spacer g
   ∧ nds g' = nds g)
  ∧ ∀ k, edgs g' !! k
         = if decide (k ∈ (fun i => ekey (getPort (Center x y) i)
                                      (Center x y)) <$> dirs)
           then setCost cost <$> edgs g !! k
           else edgs g !! k.
Proof.
  apply (modEdg_loop (setCost cost)
           (fun i => ekey (getPort (Center x y) i) (Center x y)) dirs).
  by intros [].
Qed.

Lemma closeNodeSink_open (g : GridGraph) (n : GridNode) :
  closeNodeSink g n = openNodeSink g n INF.
Proof. reflexivity. Qed.

(** ** Searching the edge between two centers *)

Lemma getNEdge_from_none (g : GridGraph) (x y x' y' : Z) (l : list Z) :
  wf g → in_grid g x y → in_grid g x' y' → (x, y) ≠ (x', y') →
  (∀ i, i ∈ l → 0 ≤ i < 8) →
  (∀ i, 0 ≤ i < 8 → getNeighbor g x y i ≠ Some (Center x' y')) →
  getNEdge_from g (Center x y) (Center x' y') l = None.
Proof.
  intros Hwf Hin Hin' Hne Hl Hnb.
  induction l as [|i l IH]; [done|]. cbn [getNEdge_from getPort].
  destruct (getEdg g (Port x y i) (Port x' y' ((i + 4) mod 8))) eqn:E.
  - exfalso. apply (Hnb i); [apply Hl; by left|].
    apply (wf_only g Hwf); [done..|apply Hl; by left|by rewrite E].
  - apply IH. intros j Hj. apply Hl. by right.
Qed.

Lemma same_shape_addCostStep (n : GridNode) (addC : NodeCost) (i : Z)
    (g g' : GridGraph) (inv inv' : NodeCost) :
  addCostStep n addC i (g, inv) = Some (g', inv') →
  same_shape g g' ∧ length inv' = length inv.
Proof.
  unfold addCostStep. destruct (getNodeCoords n) as [x y].
  destruct (getNeighbor g x y i) as [neigh|]; [|by intros [= <- <-]].
  cbv zeta. destruct (_ <? _)%float.
  - intros H. apply bind_Some in H as (e & _ & H).
    destruct (closed e).
    + injection H as <- <-. split; [apply same_shape_refl|].
      apply length_nc_set.
    + apply bind_Some in H as (nb & _ & H). injection H as <- <-. split.
      * eapply same_shape_trans;
          [apply same_shape_modEdg|apply same_shape_closeNode].
      * apply length_nc_set.
  - intros H. apply bind_Some in H as (e & _ & H). injection H as <- <-.
    split; [apply same_shape_modEdg|apply length_nc_set].
Qed.

Lemma same_shape_removeCostStep (n : GridNode) (addC : NodeCost) (i : Z)
    (g g' : GridGraph) :
  removeCostStep n addC i g = Some g' → same_shape g g'.
Proof.
  unfold removeCostStep. destruct (getNodeCoords n) as [x y].
  destruct (getNeighbor g x y i) as [neigh|];
    [|intros [= <-]; apply same_shape_refl].
  cbv zeta. destruct (_ <? _)%float.
  - intros H. apply bind_Some in H as (e & _ & H).
    apply bind_Some in H as (nb & _ & H). injection H as <-.
    eapply same_shape_trans;
      [apply same_shape_modEdg|apply same_shape_openNode].
  - intros H. apply bind_Some in H as (e & _ & H). injection H as <-.
    apply same_shape_modEdg.
Qed.

Lemma same_shape_balanceEdge (g g' : GridGraph) (a b : GridNode) :
  balanceEdge g a b = Some g' → same_shape g g'.
Proof.
  unfold balanceEdge. case_decide as Hab; [intros [= <-]; apply same_shape_refl|].
  destruct (getNodeCoords a) as [x y]. cbv zeta.
  intros H. apply bind_Some in H as ([p q] & _ & H).
  set (g1 := closeNode (closeNode (modEdg p q (setCost INF) g) a) b) in *.
  assert (same_shape g g1) as H1.
  { eapply same_shape_trans; [apply same_shape_modEdg|].
    eapply same_shape_trans; apply same_shape_closeNode. }
  destruct (_ || _); [|by injection H as <-].
  destruct (getNeighbor g1 x y _) as [na|]; [|by injection H as <-].
  destruct (getNeighbor g1 x y _) as [nb|]; [|by injection H as <-].
  apply bind_Some in H as ([p' q'] & _ & H). injection H as <-.
  eapply same_shape_trans; [exact H1|apply same_shape_modEdg].
Qed.

Lemma sub64_labs_sym (a b : Z) : sub64 a b ≫= labs = sub64 b a ≫= labs.
Proof.
  unfold sub64, labs. cbv zeta.
  destruct (Z.leb_spec (- 2 ^ 63) (a - b)), (Z.ltb_spec (a - b) (2 ^ 63)),
    (Z.leb_spec (- 2 ^ 63) (b - a)), (Z.ltb_spec (b - a) (2 ^ 63));
    cbn [andb mbind option_bind];
    repeat match goal with
           | |- context [?u =? ?v] => destruct (Z.eqb_spec u v)
           end;
    try done; try lia; f_equal; lia.
Qed.

(** ** Closing and opening a node, exactly *)

(** The key of the traversal edge of cell [(x, y)] in direction [i]. *)
Definition linkKey (g : GridGraph) (x y i : Z)
    : option (GridNode * GridNode) :=
  nb ← getNeighbor g x y i;
  Some (ekey (Port x y i) (getPort nb ((i + 4) mod 8))).

Lemma omap_cons_linkKey (g : GridGraph) (x y i : Z) (l : list Z) :
  omap (linkKey g x y) (i :: l)
  = match linkKey g x y i with
    | Some k => k :: omap (linkKey g x y) l
    | None => omap (linkKey g x y) l
    end.
Proof. reflexivity. Qed.

Lemma closeNode_loop_exact (g0 : GridGraph) (x y : Z) (l : list Z) :
  ∀ g, same_index g0 g →
  foldl (closeNodeStep (Center x y) x y) g l
  = foldl (fun g k => set_edgs (alter close k) g) g
      (omap (linkKey g0 x y) l).
Proof.
  induction l as [|i l IH]; intros g Hg; [done|].
  rewrite omap_cons_linkKey. cbn [foldl].
  assert (closeNodeStep (Center x y) x y g i
          = match linkKey g0 x y i with
            | Some k => set_edgs (alter close k) g
            | None => g
            end) as ->.
  { unfold closeNodeStep, linkKey. cbv zeta.
    rewrite (getNeighbor_same_index g0 g) by done.
    by destruct (getNeighbor g0 x y i). }
  destruct (linkKey g0 x y i) as [k|]; [|by apply IH].
  cbn [foldl]. apply IH. by destruct Hg as (? & ? & ?).
Qed.

Lemma openNode_loop_exact (g0 : GridGraph) (x y : Z) (l : list Z) :
  ∀ s, same_index g0 s →
  (∀ i nb, i ∈ l → getNeighbor g0 x y i = Some nb →
     isClosed s nb = false
     ∧ ∃ e, getEdg s (Port x y i) (getPort nb ((i + 4) mod 8)) = Some e
            ∧ getResEdges e = []) →
  foldl (openNodeStep (Center x y) x y) s l
  = foldl (fun g k => set_edgs (alter open k) g) s
      (omap (linkKey g0 x y) l).
Proof.
  induction l as [|i l IH]; intros s Hs Hl; [done|].
  rewrite omap_cons_linkKey. cbn [foldl].
  assert (openNodeStep (Center x y) x y s i
          = match linkKey g0 x y i with
            | Some k => set_edgs (alter open k) s
            | None => s
            end) as E.
  { unfold openNodeStep, linkKey. cbv zeta.
    rewrite (getNeighbor_same_index g0 s) by done.
    destruct (getNeighbor g0 x y i) as [nb|] eqn:En; [|done].
    destruct (Hl i nb) as (Hc & e & He & Hr); [by left|done|].
    cbn [getPort mbind option_bind] in *. by rewrite Hc, He, Hr. }
  rewrite E.
  destruct (linkKey g0 x y i) as [k|] eqn:Ek.
  - cbn [foldl]. apply IH; [by destruct Hs as (? & ? & ?)|].
    intros j nb' Hj Hnb'. destruct (Hl j nb') as (Hc' & e' & He' & Hr');
      [by right|done|].
    split; [done|]. unfold getEdg in *. cbn [set_edgs edgs].
    destruct (decide (ekey (Port x y j) (getPort nb' ((j + 4) mod 8)) = k))
      as [<-|Hk].
    + rewrite lookup_alter_eq, He'. by eexists.
    + rewrite lookup_alter_ne by done. by eexists.
  - apply IH; [done|]. intros j nb' Hj. apply Hl. by right.
Qed.

Lemma alter_loop (f : GridEdgePL → GridEdgePL)
    (l : list (GridNode * GridNode)) :
  (∀ e, f (f e) = f e) →
  ∀ (g : GridGraph),
  let g' := foldl (fun g k => set_edgs (alter f k) g) g l in
  (_bbox g' = _bbox g ∧ _c g' = _c g ∧ getXWidth g' = getXWidth g
   ∧ getYHeight g' = getYHeight g ∧ _grid g' = _grid g
   ∧ _cellSize g' = _cellSize g ∧ _spacer g' = _spacer g
   ∧ nds g' = nds g)
  ∧ ∀ k, edgs g' !! k
         = if decide (k ∈ l) then f <$> edgs g !! k else edgs g !! k.
Proof.
  intros Hf g. pose proof (modEdg_loop f id l Hf g) as H.
  rewrite list_fmap_id in H. exact H.
Qed.

Lemma linkKey_elem (g : GridGraph) (x y : Z) (k : GridNode * GridNode) :
  k ∈ omap (linkKey g x y) dirs
  ↔ ∃ i nb, 0 ≤ i < 8 ∧ getNeighbor g x y i = Some nb
            ∧ k = ekey (Port x y i) (getPort nb ((i + 4) mod 8)).
Proof.
  rewrite list_elem_of_omap. split.
  - intros (i & Hi%dirs_spec & Hk). unfold linkKey in Hk.
    apply bind_Some in Hk as (nb & Hnb & [= <-]). by exists i, nb.
  - intros (i & nb & Hi & Hnb & ->). exists i.
    split; [by apply dirs_spec|]. unfold linkKey. by rewrite Hnb.
Qed.

(** ** Slots of a cost vector that stay closed *)

(** [c'] has the length of [c] and the sentinel wherever [c] has it. *)
Definition sticky (c c' : NodeCost) : Prop :=
  length c' = length c
  ∧ ∀ k : nat, c !! k = Some SENTINEL → c' !! k = Some SENTINEL.

Lemma sticky_refl (c : NodeCost) : sticky c c.
Proof. by split. Qed.

Lemma sticky_trans (c1 c2 c3 : NodeCost) :
  sticky c1 c2 → sticky c2 c3 → sticky c1 c3.
Proof. intros [L1 H1] [L2 H2]. split; [congruence|]. intros k Hk. auto. Qed.

Lemma sticky_nc_set (c : NodeCost) (k : Z) : sticky c (nc_set c k SENTINEL).
Proof.
  split; [apply length_nc_set|]. intros j Hj. unfold nc_set, NodeCost in *.
  destruct (decide (Z.to_nat k = j)) as [<-|Hne].
  - apply list_lookup_insert_eq. by eapply lookup_lt_Some.
  - by rewrite list_lookup_insert_ne.
Qed.

Lemma sticky_softAdd (c : NodeCost) (k : Z) (v : float) :
  sticky c (softAdd c k v).
Proof.
  unfold softAdd. destruct (nc_get c k <? -1)%float eqn:E;
    [apply sticky_refl|].
  split; [apply length_nc_set|]. intros j Hj. unfold nc_set, NodeCost in *.
  destruct (decide (Z.to_nat k = j)) as [<-|Hne].
  - unfold nc_get in E. unfold NodeCost in *. rewrite Hj in E. cbn in E. done.
  - by rewrite list_lookup_insert_ne.
Qed.

Lemma sticky_foldl {A : Type} (f : NodeCost → A → NodeCost) (l : list A) :
  (∀ c a, sticky c (f c a)) → ∀ c, sticky c (foldl f c l).
Proof.
  intros Hf. induction l as [|a l IH]; intros c; [apply sticky_refl|].
  cbn [foldl]. eapply sticky_trans; [apply Hf|apply IH].
Qed.

Lemma sticky_if (b : bool) (c c1 c2 : NodeCost) :
  sticky c c1 → sticky c c2 → sticky c (if b then c1 else c2).
Proof. by destruct b. Qed.

(** A step of spacingPenalty at a settled direction: what it does before
    and after it closes the slot of the direction. *)
Lemma spacingStep_shape (pens : Penalties) (o : list CombEdge)
    (optimDistance : Z) (e : CombEdge) (c : NodeCost) (i : Z) (f : CombEdge) :
  ∃ c2, sticky c c2
        ∧ sticky (nc_set c2 i SENTINEL)
            (spacingStep pens o optimDistance e c (i, Some f)).
Proof.
  unfold spacingStep. cbv zeta. eexists. split.
  2:{ eapply sticky_trans;
        [|apply sticky_foldl; intros; apply sticky_nc_set].
      apply sticky_foldl; intros; apply sticky_nc_set. }
  eapply sticky_trans;
    [|apply sticky_if;
      [apply sticky_refl|apply sticky_foldl; intros; apply sticky_softAdd]].
  apply sticky_if;
    [apply sticky_refl|apply sticky_foldl; intros; apply sticky_softAdd].
Qed.

Lemma spacingStep_sticky (pens : Penalties) (o : list CombEdge)
    (optimDistance : Z) (e : CombEdge) (c : NodeCost)
    (io : Z * option CombEdge) :
  sticky c (spacingStep pens o optimDistance e c io).
Proof.
  destruct io as [i [f|]]; [|apply sticky_refl].
  destruct (spacingStep_shape pens o optimDistance e c i f)
    as (c2 & H1 & H2).
  eapply sticky_trans; [exact H1|].
  eapply sticky_trans; [apply sticky_nc_set|exact H2].
Qed.

Lemma settled_lookup (g : GridGraph) (n : GridNode) (x y i : Z) :
  getNodeCoords n = (x, y) → 0 ≤ i < 8 →
  getSettledOutgoingEdges g n !! Z.to_nat i
  = Some match getNeighbor g x y i with
         | None => None
         | Some neigh =>
             match getEdg g (getPort n i) (getPort neigh ((i + 4) mod 8)) with
             | Some e => head (getResEdges e)
             | None => None
             end
         end.
Proof.
  intros Hn Hi. unfold getSettledOutgoingEdges. rewrite Hn.
  each_dir i Hi; reflexivity.
Qed.

Lemma settled_length (g : GridGraph) (n : GridNode) :
  length (getSettledOutgoingEdges g n) = 8%nat.
Proof.
  unfold getSettledOutgoingEdges. destruct (getNodeCoords n).
  by rewrite length_fmap.
Qed.

(** ** Slots that topoBlockPenalty writes *)

Definition blocked_or_free (c : NodeCost) : Prop :=
  length c = 8%nat ∧ Forall (fun v => v = 0%float ∨ v = SENTINEL) c.

Lemma blocked_or_free_nc_set (c : NodeCost) (k : Z) :
  blocked_or_free c → blocked_or_free (nc_set c k SENTINEL).
Proof.
  intros [L F]. split; [by rewrite length_nc_set|].
  unfold nc_set. apply Forall_insert; [done|by right].
Qed.

Lemma topoBlockFrom_slots (o : list CombEdge) (e : CombEdge)
    (outgoing : list (option CombEdge)) (i : Z) (f : CombEdge)
    (js : list Z) :
  ∀ c, blocked_or_free c →
       blocked_or_free (topoBlockFrom o e outgoing i f js c).
Proof.
  induction js as [|j js IH]; intros c Hc; [done|].
  cbn [topoBlockFrom]. destruct (mjoin _) as [f'|]; [|by apply IH].
  case_decide; [done|]. cbv zeta. apply IH.
  destruct (_ <? _); [|done].
  apply foldl_invariant; [done|]. intros c' x _.
  apply blocked_or_free_nc_set.
Qed.

Lemma topoBlockFrom_same (o : list CombEdge) (e : CombEdge)
    (outgoing : list (option CombEdge)) (i : Z) (f : CombEdge)
    (js : list Z) (c : NodeCost) :
  (∀ k f', outgoing !! k = Some (Some f') → f' = f) →
  topoBlockFrom o e outgoing i f js c = c.
Proof.
  intros Hall. induction js as [|j js IH]; [done|].
  cbn [topoBlockFrom].
  destruct (outgoing !! Z.to_nat (j mod 8)) as [[f'|]|] eqn:E;
    cbn [mjoin option_join mbind option_bind]; [|done..].
  rewrite decide_True; [done|]. by eapply Hall.
Qed.

(** ** The traversal edges of a new grid *)

Lemma built_links (bbox : DBox) (cellSize spacer : float)
    (pens : Penalties) (w h : Z) (g : GridGraph) :
  0 ≤ w < SIZE_MOD → 0 ≤ h < SIZE_MOD →
  mkGridGraph bbox cellSize spacer pens w h = Some g →
  wf g ∧ getXWidth g = w ∧ getYHeight g = h
  ∧ ∀ x y i x' y',
      in_grid g x y → 0 ≤ i < 8 →
      getNeighbor g x y i = Some (Center x' y') →
      getEdg g (Port x y i) (Port x' y' ((i + 4) mod 8))
      = Some (mkGridEdgePL (initCost pens i) false).
Proof.
  intros Hw Hh H.
  rewrite mkGridGraph_stages in H. destruct (negb _); [done|].
  destruct (linked_wf bbox cellSize spacer pens w h Hw Hh)
    as (Hwf & Hc & HW & HH & HI & Hpl).
  set (g2 := linkPorts (writeNodes (grid0 bbox cellSize spacer pens w h)))
    in *.
  pose proof (kept_writeInitialCosts _ _ HI H) as ((_ & Hidx) & _).
  destruct (writeInitialCosts_total g2 Hwf) as (g' & Hg' & Hs).
  assert (g' = g) as -> by congruence.
  pose proof Hidx as (HW' & HH' & _).
  split; [by eapply wf_same_shape|]. split; [congruence|].
  split; [congruence|].
  intros x y i x' y' Hin Hi Hnb.
  rewrite (getNeighbor_same_index g2 g) in Hnb by done.
  apply (writeInitialCosts_costSet g2 pens x y i x' y' Hwf Hc); try done.
  unfold in_grid in *. by rewrite <- HW', <- HH'.
Qed.

(** ** The deviation from the direction of an edge *)

(** The angle between two directions given in degrees in [0, 360). *)
Definition angleBetween (a b : Z) : Z :=
  Z.min (Z.abs (a - b)) (360 - Z.abs (a - b)).

Lemma deviation_values (k : Z) :
  0 ≤ k ≤ 180 →
  let v := (0 + tenth * int_to_double k)%float in
  (0 <=? v)%float = true ∧ (v <=? 18)%float = true
  ∧ (v <? -1)%float = false.
Proof.
  intros Hk.
  assert (forallb (fun k =>
            let v := (0 + tenth * int_to_double k)%float in
            (0 <=? v)%float && (v <=? 18)%float && negb (v <? -1)%float)
            (seqZ 0 181) = true) as H by (vm_compute; reflexivity).
  rewrite forallb_forall in H.
  assert (In k (seqZ 0 181)) as Hin
    by (apply list_elem_of_In, elem_of_seqZ; lia).
  apply H in Hin. cbv zeta in *.
  apply andb_true_iff in Hin as [Hin H3].
  apply andb_true_iff in Hin as [H1 H2].
  by apply negb_true_iff in H3.
Qed.

Lemma deviation_loop (deg : Z) (l : list Z) :
  (∀ i, i ∈ l → 0 ≤ i < 8) → NoDup l →
  ∀ ret, length ret = 8%nat →
    let ret' :=
      foldl (fun ret i =>
        let diff :=
          int_to_double
            (Z.min (Z.abs (deg - 45 * i)) (360 - Z.abs (deg - 45 * i))) in
        let multiplier := tenth in
        nc_set ret i (nc_get ret i + multiplier * diff)%float) ret l in
    length ret' = 8%nat
    ∧ ∀ i, 0 ≤ i < 8 →
        nc_get ret' i
        = if decide (i ∈ l)
          then (nc_get ret i + tenth * int_to_double (angleBetween deg (45 * i)))%float
          else nc_get ret i.
Proof.
  induction l as [|j l IH]; intros Hl Hnd ret Hlen; cbv zeta.
  { split; [done|]. intros i Hi. rewrite decide_False; [done|].
    apply not_elem_of_nil. }
  apply NoDup_cons in Hnd as [Hj Hnd]. cbn [foldl].
  assert (0 ≤ j < 8) as Hj8 by (apply Hl; by left).
  destruct (IH (fun i Hi => Hl i ltac:(by right)) Hnd
              (nc_set ret j (nc_get ret j + tenth * int_to_double
                 (Z.min (Z.abs (deg - 45 * j)) (360 - Z.abs (deg - 45 * j)))))%float)
    as [L H]; [by rewrite length_nc_set|].
  cbv zeta in L, H. split; [exact L|].
  intros i Hi. rewrite (H i Hi).
  destruct (decide (i = j)) as [->|Hne].
  - rewrite decide_False by done. rewrite decide_True by (by left).
    rewrite nc_get_set_eq by lia. done.
  - rewrite nc_get_set_ne by lia.
    destruct (decide (i ∈ l)) as [Hin|Hin].
    + by rewrite decide_True by (by right).
    + rewrite decide_False; [done|]. intros [?|?]%elem_of_cons; done.
Qed.

(** * Main results on the grid graph *)

Definition applyThenRemove (g : GridGraph) (n : GridNode) (addC : NodeCost)
    : option GridGraph :=
  '(g1, inv) ← addCostVector g n addC;
  removeCostVector g1 n inv.

(** The vector of scenario S2: two additive slots and one sentinel. *)
Definition addC3 : NodeCost := [0.5; 0; 1; 0; SENTINEL; 0; 0; 0]%float.

(** C1, as amended.  On a well-formed grid, applying a cost vector at a
    center and then removing the inverse vector it returned succeeds, and
    every traversal edge at a port of the center has its closed flag and
    its reserved edges back; its raw cost is unchanged where the slot is a
    sentinel (below -1) and is ((r + c) - c), computed in doubles, where
    the slot c is additive. *)
Theorem addCostVector_removeCostVector (g : GridGraph) (x y : Z)
    (addC : NodeCost) :
  wf g → in_grid g x y →
  ∃ g1 inv g2,
    addCostVector g (Center x y) addC = Some (g1, inv)
    ∧ removeCostVector g1 (Center x y) inv = Some g2
    ∧ ∀ d nb e, 0 ≤ d < 8 → getNeighbor g x y d = Some nb →
        getEdg g (Port x y d) (getPort nb ((d + 4) mod 8)) = Some e →
        ∃ e2,
          getEdg g2 (Port x y d) (getPort nb ((d + 4) mod 8)) = Some e2
          ∧ closed e2 = closed e
          ∧ getResEdges e2 = getResEdges e
          ∧ rawCost e2
            = (if (nc_get addC d <? -1)%float then rawCost e
               else (rawCost e + nc_get addC d - nc_get addC d)%float).
Proof.
  intros Hwf Hin. unfold addCostVector, removeCostVector.
  destruct (addCost_loop x y addC dirs g NodeCost0 Hwf Hin)
    as (g1 & inv & E1 & S1 & L1 & P1);
    [intros i; apply dirs_spec|apply dirs_NoDup|done|].
  assert (wf g1) as Hwf1 by (by eapply wf_same_shape).
  assert (in_grid g1 x y) as Hin1.
  { destruct S1 as ((HW & HH & _) & _). unfold in_grid. by rewrite HW, HH. }
  destruct (removeCost_loop x y inv dirs g1 Hwf1 Hin1)
    as (g2 & E2 & S2 & P2); [intros i; apply dirs_spec|apply dirs_NoDup|].
  exists g1, inv, g2. split; [done|]. split; [done|].
  intros d nb e Hd Hnb He.
  destruct (P1 d nb e Hd Hnb He) as [He1 Hinv].
  rewrite decide_True in He1 by (by apply dirs_spec).
  rewrite decide_True in Hinv by (by apply dirs_spec).
  assert (getNeighbor g1 x y d = Some nb) as Hnb1.
  { rewrite (getNeighbor_same_index g); [done|apply S1]. }
  pose proof (P2 d nb _ Hd Hnb1 He1) as He2.
  rewrite decide_True in He2 by (by apply dirs_spec).
  rewrite Hinv in He2.
  eexists. split; [exact He2|].
  destruct (removeEffect_addEffect (nc_get addC d) e) as (H1 & H2 & _ & H4).
  done.
Qed.

Lemma addCostVector_removeCostVector_grid3 :
  wf grid3 ∧ in_grid grid3 1 1
  ∧ ∃ g1 inv g2,
      addCostVector grid3 (Center 1 1) addC3 = Some (g1, inv)
      ∧ removeCostVector g1 (Center 1 1) inv = Some g2
      ∧ ∀ d nb e, 0 ≤ d < 8 → getNeighbor grid3 1 1 d = Some nb →
          getEdg grid3 (Port 1 1 d) (getPort nb ((d + 4) mod 8)) = Some e →
          ∃ e2,
            getEdg g2 (Port 1 1 d) (getPort nb ((d + 4) mod 8)) = Some e2
            ∧ closed e2 = closed e
            ∧ getResEdges e2 = getResEdges e
            ∧ rawCost e2
              = (if (nc_get addC3 d <? -1)%float then rawCost e
                 else (rawCost e + nc_get addC3 d - nc_get addC3 d)%float).
Proof.
  assert (in_grid grid3 1 1) as Hin by (vm_compute; done).
  split; [exact grid3_wf|]. split; [exact Hin|].
  exact (addCostVector_removeCostVector grid3 1 1 addC3 grid3_wf Hin).
Defined.

(** C1 as stated fails on doubles: on the 3 x 3 grid the edge north of the
    middle cell costs 1; after adding 0.4 to it (an additive slot) and
    removing the inverse vector it costs 0.99999999999999989. *)
Lemma applyThenRemove_inexact :
  (rawCost <$> getEdg grid3 (Port 1 1 0) (Port 1 2 4)) = Some 1%float
  ∧ (g2 ← applyThenRemove grid3 (Center 1 1)
            [(4 / 10); 0; 0; 0; 0; 0; 0; 0]%float;
     rawCost <$> getEdg g2 (Port 1 1 0) (Port 1 2 4))
    = Some 0x1.fffffffffffffp-1%float
  ∧ (0x1.fffffffffffffp-1 =? 1)%float = false.
Proof. vm_compute. done. Qed.

(** C3.  openNode leaves closed every edge at a port of the node that is
    closed and has a non-empty set of reserved edges. *)
Theorem openNode_keeps_reserved_closed (g : GridGraph) (n : GridNode)
    (i : Z) (m : GridNode) (e : GridEdgePL) :
  getEdg g (getPort n i) m = Some e →
  getResEdges e ≠ [] →
  closed e = true →
  closed <$> getEdg (openNode g n) (getPort n i) m = Some true.
Proof.
  intros He Hres Hcl.
  destruct (openNode_spec g n) as (_ & _ & HR & _).
  unfold getEdg in *. by rewrite (HR _ _ He Hres), <- Hcl.
Qed.

(** The 3 x 3 grid with the middle cell closed and input edge 7 routed over
    the traversal edge north of it. *)
Definition grid3_reserved : GridGraph :=
  modEdg (Port 1 1 0) (Port 1 2 4)
    (fun e => {| rawCost := rawCost e; secondary := secondary e;
                 closed := closed e; getResEdges := [7] |})
    (closeNode grid3 (Center 1 1)).

Lemma openNode_keeps_reserved_closed_grid3 :
  let e := {| rawCost := 1; secondary := false; closed := true;
              getResEdges := [7] |} in
  getEdg grid3_reserved (Port 1 1 0) (Port 1 2 4) = Some e
  ∧ isClosed grid3_reserved (Center 1 1) = true
  ∧ closed <$> getEdg (openNode grid3_reserved (Center 1 1))
                 (Port 1 1 0) (Port 1 2 4) = Some true.
Proof.
  assert (getEdg grid3_reserved (Port 1 1 0) (Port 1 2 4)
          = Some {| rawCost := 1; secondary := false; closed := true;
                    getResEdges := [7] |}) as He
    by (vm_compute; reflexivity).
  split; [exact He|]. split; [vm_compute; reflexivity|].
  exact (openNode_keeps_reserved_closed grid3_reserved (Center 1 1) 0
           (Port 1 2 4) _ He ltac:(discriminate) eq_refl).
Defined.

(** C10.  getNode finds nothing at a column or row outside the grid, and so
    getNeighbor finds nothing from a cell of the grid in a direction whose
    offset leaves the grid, also when the sum wraps around below zero. *)
Theorem getNeighbor_off_grid (g : GridGraph) :
  getXWidth g < SIZE_MOD → getYHeight g < SIZE_MOD →
  (∀ x y, getXWidth g ≤ x ∨ getYHeight g ≤ y → getNode g x y = None)
  ∧ (∀ cx cy d,
       in_grid g cx cy →
       ¬ in_grid g (cx + (dirOff d).1) (cy + (dirOff d).2) →
       getNeighbor g cx cy d = None).
Proof.
  intros HW HH.
  assert (∀ x y, getXWidth g ≤ x ∨ getYHeight g ≤ y → getNode g x y = None)
    as Hnode.
  { intros x y Hxy. unfold getNode.
    destruct (Z.leb_spec (getXWidth g) x), (Z.leb_spec (getYHeight g) y);
      try done; lia. }
  split; [exact Hnode|].
  intros cx cy d [Hx Hy] Hout. unfold getNeighbor.
  pose proof (dirOff_range d) as [Hdx Hdy].
  destruct (dirOff d) as [dx dy]. cbn [fst snd] in *.
  apply Hnode. unfold in_grid in Hout.
  destruct (decide (cx + dx = -1)) as [E|E].
  { left. rewrite E, wrap_minus_one. lia. }
  destruct (decide (cy + dy = -1)) as [E'|E'].
  { right. rewrite E', wrap_minus_one. lia. }
  rewrite !wrap_small by lia. lia.
Qed.

Lemma getNeighbor_off_grid_grid3 :
  getXWidth grid3 < SIZE_MOD ∧ getYHeight grid3 < SIZE_MOD
  ∧ getNode grid3 3 0 = None
  ∧ getNeighbor grid3 0 2 6 = None
  ∧ getNeighbor grid3 2 2 1 = None.
Proof.
  assert (getXWidth grid3 < SIZE_MOD) as HW by (vm_compute; done).
  assert (getYHeight grid3 < SIZE_MOD) as HH by (vm_compute; done).
  destruct (getNeighbor_off_grid grid3 HW HH) as [Hnode Hnb].
  split; [exact HW|]. split; [exact HH|]. split; [|split].
  - apply Hnode. vm_compute. left. discriminate.
  - apply Hnb; vm_compute; intuition discriminate.
  - apply Hnb; vm_compute; intuition discriminate.
Defined.

(** C8, as amended.  Let b be the diagonal neighbour of a in direction d and
    let both off-axis neighbours of a exist.  After balanceEdge(a, b) the
    traversal edge between a and b has raw cost infinity, a and b are
    closed, and the traversal edge between the two off-axis neighbours has
    raw cost infinity while its closed flag is what it was. *)
Theorem balanceEdge_diagonal (g : GridGraph) (x y d : Z) (b na nb : GridNode) :
  wf g → in_grid g x y → 0 ≤ d < 8 → Z.odd d = true →
  getNeighbor g x y d = Some b →
  getNeighbor g x y ((d + 7) mod 8) = Some na →
  getNeighbor g x y ((d + 1) mod 8) = Some nb →
  ∃ g' p q,
    balanceEdge g (Center x y) b = Some g'
    ∧ rawCost <$> getEdg g' (Port x y d) (getPort b ((d + 4) mod 8)) = Some INF
    ∧ isClosed g' (Center x y) = true
    ∧ isClosed g' b = true
    ∧ getNEdge g na nb = Some (p, q)
    ∧ rawCost <$> getEdg g' p q = Some INF
    ∧ closed <$> getEdg g' p q = closed <$> getEdg g p q.
Proof.
  intros Hwf Hin Hd Hodd Hb Hna Hnb.
  assert (0 ≤ (d + 7) mod 8 < 8 ∧ 0 ≤ (d + 1) mod 8 < 8
          ∧ 0 ≤ (d + 2) mod 8 < 8 ∧ (d + 7) mod 8 ≠ d ∧ (d + 1) mod 8 ≠ d)
    as (Hd7 & Hd1 & Hd2 & Hne7 & Hne1) by (Z.div_mod_to_equations; lia).
  destruct (getNeighbor_Center g x y d b Hwf Hin Hb) as (xb & yb & -> & Hinb).
  destruct (crossing_neighbor g x y d na nb Hwf Hin Hd Hodd Hna Hnb)
    as (xa & ya & -> & Hina & Hcross).
  destruct (getNeighbor_Center g x y _ nb Hwf Hin Hnb) as (xn & yn & -> & Hinn).
  (* the five cells are pairwise apart where it matters *)
  pose proof (getNeighbor_neq_self g x y d _ Hwf Hin Hd Hb) as Hba.
  pose proof (getNeighbor_neq_self g x y _ _ Hwf Hin Hd7 Hna) as Hnaa.
  pose proof (getNeighbor_neq_self g x y _ _ Hwf Hin Hd1 Hnb) as Hnba.
  assert ((xa, ya) ≠ (xb, yb)) as Hnab.
  { intros [= -> ->]. apply Hne7.
    by apply (getNeighbor_inj g x y _ _ (Center xb yb) Hwf Hin). }
  assert ((xn, yn) ≠ (xb, yb)) as Hnbb.
  { intros [= -> ->]. apply Hne1.
    by apply (getNeighbor_inj g x y _ _ (Center xb yb) Hwf Hin). }
  cbn [getNodeCoords getPort] in *.
  destruct (edge_search g x y d (Center xb yb) dirs Hwf Hin Hd Hb)
    as [Hs1 Hs2]; [by apply dirs_spec|intros j; apply dirs_spec|].
  destruct (edge_search g xa ya _ (Center xn yn) dirs Hwf Hina Hd2 Hcross)
    as [Hc1 _]; [by apply dirs_spec|intros j; apply dirs_spec|].
  cbn [getPort] in Hs1, Hc1.
  set (p1 := Port x y d) in *.
  set (q1 := Port xb yb ((d + 4) mod 8)) in *.
  set (pc := Port xa ya ((d + 2) mod 8)) in *.
  set (qc := Port xn yn (((d + 2) mod 8 + 4) mod 8)) in *.
  set (g1 := modEdg p1 q1 (setCost INF) g).
  set (g2 := closeNode g1 (Center x y)).
  set (g3 := closeNode g2 (Center xb yb)).
  assert (same_shape g g1) as S1 by apply same_shape_modEdg.
  assert (same_shape g g2) as S2.
  { eapply same_shape_trans; [exact S1|apply same_shape_closeNode]. }
  assert (same_shape g g3) as S3.
  { eapply same_shape_trans; [exact S2|apply same_shape_closeNode]. }
  assert (wf g3) as Hwf3 by (by eapply wf_same_shape).
  assert (∀ cx cy i, getNeighbor g3 cx cy i = getNeighbor g cx cy i) as Hnb3.
  { intros. apply getNeighbor_same_index, S3. }
  assert (in_grid g3 xa ya) as Hina3.
  { destruct S3 as ((HW & HH & _) & _). unfold in_grid. by rewrite HW, HH. }
  assert (getNEdge g3 (Center xa ya) (Center xn yn) = Some (pc, qc)) as Hc3.
  { apply (edge_search g3 xa ya _ (Center xn yn) dirs Hwf3 Hina3 Hd2);
      [by rewrite Hnb3|by apply dirs_spec|intros j; apply dirs_spec]. }
  exists (modEdg pc qc (setCost INF) g3), pc, qc.
  assert (ekey pc qc ≠ ekey p1 q1) as Hkeys.
  { intros [[E _]|[E _]]%ekey_eq; injection E; intros; congruence. }
  split.
  { unfold balanceEdge. rewrite decide_False by congruence.
    cbn [getNodeCoords]. rewrite Hs2.
    change (getNEdge g (Center x y) (Center xb yb))
      with (getNEdge_from g (Center x y) (Center xb yb) dirs).
    rewrite Hs1. cbn [mbind option_bind]. fold g1. fold g2. fold g3.
    rewrite (odd_dir_test d Hd Hodd), !Hnb3, Hna, Hnb, Hc3. done. }
  assert (∀ k, rawCost <$> edgs g3 !! k = rawCost <$> edgs g1 !! k) as Hraw.
  { intros k. unfold g3, g2. by rewrite !closeNode_rawCost. }
  destruct (wf_edge g Hwf x y d _ Hin Hd Hb) as [e1 He1].
  destruct (wf_edge g Hwf xa ya _ _ Hina Hd2 Hcross) as [ec Hec].
  cbn [getPort] in He1, Hec. fold p1 q1 in He1. fold pc qc in Hec.
  unfold getEdg in *.
  split.
  { rewrite edgs_modEdg, decide_False by done.
    rewrite Hraw. unfold g1. rewrite edgs_modEdg, decide_True by done.
    by rewrite He1. }
  split.
  { unfold isClosed. rewrite nds_modEdg. fold (isClosed g3 (Center x y)).
    unfold g3. rewrite isClosed_closeNode_other by congruence.
    apply closeNode_spec. unfold g1. rewrite nds_modEdg.
    by apply (wf_nds g Hwf). }
  split.
  { unfold isClosed. rewrite nds_modEdg. fold (isClosed g3 (Center xb yb)).
    apply closeNode_spec.
    destruct S2 as (_ & HN & _). rewrite HN. by apply (wf_nds g Hwf). }
  split; [exact Hc1|].
  assert (edgs g3 !! ekey pc qc = edgs g !! ekey pc qc) as Hframe.
  { unfold g3, g2. rewrite !closeNode_frame; cbn [getNodeCoords]; try done.
    unfold g1. by rewrite edgs_modEdg, decide_False. }
  rewrite edgs_modEdg, decide_True by done. rewrite Hframe, Hec. done.
Qed.


Lemma balanceEdge_diagonal_grid3 :
  wf grid3 ∧ in_grid grid3 0 0
  ∧ ∃ g' p q,
      balanceEdge grid3 (Center 0 0) (Center 1 1) = Some g'
      ∧ rawCost <$> getEdg g' (Port 0 0 1) (getPort (Center 1 1) ((1 + 4) mod 8))
        = Some INF
      ∧ isClosed g' (Center 0 0) = true
      ∧ isClosed g' (Center 1 1) = true
      ∧ getNEdge grid3 (Center 0 1) (Center 1 0) = Some (p, q)
      ∧ rawCost <$> getEdg g' p q = Some INF
      ∧ closed <$> getEdg g' p q = closed <$> getEdg grid3 p q.
Proof.
  assert (in_grid grid3 0 0) as Hin by (vm_compute; done).
  split; [exact grid3_wf|]. split; [exact Hin|].
  refine (balanceEdge_diagonal grid3 0 0 1 (Center 1 1) (Center 0 1)
            (Center 1 0) grid3_wf Hin _ eq_refl _ _ _);
    [lia|vm_compute; reflexivity..].
Defined.

(** C8 as stated fails: in the 3 x 3 grid, after balanceEdge from cell (0,0)
    to its north-east neighbour (1,1), the edge between the northern
    neighbour (0,1) and the eastern neighbour (1,0) has infinite raw cost
    but its closed flag is not set. *)
Lemma balanceEdge_crossing_not_closed :
  getNeighbor grid3 0 0 1 = Some (Center 1 1)
  ∧ getNeighbor grid3 0 0 0 = Some (Center 0 1)
  ∧ getNeighbor grid3 0 0 2 = Some (Center 1 0)
  ∧ getNEdge grid3 (Center 0 1) (Center 1 0) = Some (Port 0 1 3, Port 1 0 7)
  ∧ (g' ← balanceEdge grid3 (Center 0 0) (Center 1 1);
     e ← getEdg g' (Port 0 1 3) (Port 1 0 7);
     Some (closed e, (rawCost e =? INF)%float)) = Some (false, true).
Proof. vm_compute. done. Qed.

(** C6, as amended.  For cells whose coordinates are far from the ends of
    [int64_t]: heurCost returns 0 for equal cells; for distinct cells, with
    minHops = max(|xb-xa|, |yb-ya|), it returns the double of the unsigned
    integer e + h, where e is the product minHops * min(verticalPen,
    horizontalPen, diagonalPen) and h is the product
    (minHops - 1) * (p_45 - p_135), each computed in doubles and then
    truncated to an unsigned integer.  The value is a non-negative whole
    number, not the sum of the two products themselves. *)
Theorem heurCost_truncates (g : GridGraph) (xa ya xb yb : Z) :
  - 2 ^ 62 ≤ xa < 2 ^ 62 → - 2 ^ 62 ≤ ya < 2 ^ 62 →
  - 2 ^ 62 ≤ xb < 2 ^ 62 → - 2 ^ 62 ≤ yb < 2 ^ 62 →
  (xa = xb ∧ ya = yb → heurCost g xa ya xb yb = Some 0%float)
  ∧ (¬ (xa = xb ∧ ya = yb) →
     ∀ e h,
       double_to_size_t
         (size_t_to_double (Z.max (Z.abs (xb - xa)) (Z.abs (yb - ya)))
          * std_min (verticalPen (_c g))
              (std_min (horizontalPen (_c g)) (diagonalPen (_c g))))%float
       = Some e →
       double_to_size_t
         (size_t_to_double (Z.max (Z.abs (xb - xa)) (Z.abs (yb - ya)) - 1)
          * (p_45 (_c g) - p_135 (_c g)))%float
       = Some h →
       heurCost g xa ya xb yb = Some (size_t_to_double (wrap (e + h)))
       ∧ 0 ≤ e ∧ 0 ≤ h ∧ 0 ≤ wrap (e + h) < SIZE_MOD).
Proof.
  intros Hxa Hya Hxb Hyb. split.
  - intros [-> ->]. unfold heurCost. by rewrite !Z.eqb_refl.
  - intros Hne e h He Hh. unfold heurCost.
    destruct (andb _ _) eqn:Heq.
    { apply andb_true_iff in Heq as [?%Z.eqb_eq ?%Z.eqb_eq]. tauto. }
    rewrite !sub64_labs by done. cbn [mbind option_bind].
    set (minHops := Z.max (Z.abs (xb - xa)) (Z.abs (yb - ya))) in *.
    assert (1 ≤ minHops < 2 ^ 63) as Hm by (unfold minHops; lia).
    rewrite He. cbn [mbind option_bind].
    rewrite (wrap_small (minHops - 1)) by (unfold SIZE_MOD; lia).
    rewrite Hh. cbn [mbind option_bind].
    apply double_to_size_t_range in He as [He _], Hh as [Hh _].
    split; [done|]. split; [lia|]. split; [lia|].
    unfold wrap. apply Z.mod_pos_bound. done.
Qed.


Lemma heurCost_truncates_gridHalf :
  heurCost gridHalf 0 0 3 0 = Some (size_t_to_double (wrap (1 + 4)))
  ∧ 0 ≤ 1 ∧ 0 ≤ 4 ∧ 0 ≤ wrap (1 + 4) < SIZE_MOD.
Proof.
  refine (proj2 (heurCost_truncates gridHalf 0 0 3 0 _ _ _ _) _ 1 4 _ _);
    try (vm_compute; intuition discriminate);
    try (vm_compute; reflexivity).
Defined.


(** C6 as stated fails: with traversal penalties 0.5, 0.5 and 0.75 and three
    hops, heurCost returns 5, while the stated formula
    3 * 0.5 + (3 - 1) * (3 - 1) is 5.5. *)
Lemma heurCost_not_exact :
  heurCost gridHalf 0 0 3 0 = Some 5%float
  ∧ (3 * std_min (verticalPen (_c gridHalf))
           (std_min (horizontalPen (_c gridHalf)) (diagonalPen (_c gridHalf)))
     + (3 - 1) * (p_45 (_c gridHalf) - p_135 (_c gridHalf)))%float = 5.5%float
  ∧ (5 =? 5.5)%float = false.
Proof. vm_compute. done. Qed.


(** C5 fails on the code: the constructor initialises the member [_spacer]
    from its parameter and then clamps the parameter only; writeNd places
    the ports with [_spacer].  Built with cell size 1 and spacer 2, the grid
    keeps spacer 2 and the east port of cell (0,0) lies 2 to the right of
    its center, more than half the cell size. *)
Lemma mkGridGraph_spacer_not_clamped :
  (g ← mkGridGraph box3 1 2 pens3 3 3;
   c ← nds g !! Center 0 0;
   p ← nds g !! Port 0 0 2;
   Some (_spacer g, getX (getGeom p) - getX (getGeom c),
         (_cellSize g / 2 <? getX (getGeom p) - getX (getGeom c)))%float)
  = Some (2, 2, true)%float.
Proof. vm_compute. reflexivity. Qed.


(** For a node with at least one adjacent edge, an edge outside its ordering
    is answered with a warning and the zero vector. *)
Lemma spacingPenalty_not_member (g : GridGraph) (n : GridNode)
    (origNode : CombNode) (e : CombEdge) :
  getAdjList origNode ≠ [] →
  has (getEdgeOrdering origNode) e = false →
  spacingPenalty g n origNode e
  = Some (NodeCost0, [WarnEdgeNotInNode e (cnId origNode)]).
Proof.
  intros Hadj Hhas. unfold spacingPenalty.
  destruct (getAdjList origNode); [done|]. by rewrite Hhas.
Qed.

Lemma spacingPenalty_not_member_one_edge :
  getAdjList {| cnId := 1; getAdjList := [5]; getEdgeOrdering := [5] |} ≠ []
  ∧ has [5] 7 = false
  ∧ spacingPenalty grid3 (Center 1 1)
      {| cnId := 1; getAdjList := [5]; getEdgeOrdering := [5] |} 7
    = Some (NodeCost0, [WarnEdgeNotInNode 7 1]).
Proof.
  split; [discriminate|]. split; [reflexivity|].
  apply (spacingPenalty_not_member grid3 (Center 1 1)
           {| cnId := 1; getAdjList := [5]; getEdgeOrdering := [5] |} 7);
    [discriminate|reflexivity].
Defined.

(** C9 fails on the code for a node without adjacent edges: the division
    [8 / origEdgeNumber] comes before the membership test, so neither the
    warning nor the zero vector is reached. *)
Lemma spacingPenalty_no_edges (g : GridGraph) (n : GridNode)
    (id : Z) (o : list CombEdge) (e : CombEdge) :
  spacingPenalty g n
    {| cnId := id; getAdjList := []; getEdgeOrdering := o |} e = None.
Proof. reflexivity. Qed.

(** The 3 x 3 grid of cells of size 1, built with spacer 2. *)
Definition gridWide : GridGraph :=
  default emptyGrid (mkGridGraph box3 1 2 pens3 3 3).

Lemma gridWide_built : mkGridGraph box3 1 2 pens3 3 3 = Some gridWide.
Proof.
  unfold gridWide.
  assert (bool_decide (is_Some (mkGridGraph box3 1 2 pens3 3 3)) = true)
    as H by (vm_compute; reflexivity).
  apply bool_decide_eq_true in H. by destruct H as [g ->].
Qed.

(** The constructor places the nodes with the spacer it was given, whatever
    the cell size: in the grid it returns, the spacer is the argument, the
    center of a cell lies at the corner of the box plus the cell size times
    its coordinates, and port i of the cell lies at that point plus the
    unit offset of direction i times the spacer. *)
Theorem mkGridGraph_port_position (bbox : DBox) (cellSize spacer : float)
    (pens : Penalties) (w h : Z) (g : GridGraph) (x y i : Z) :
  mkGridGraph bbox cellSize spacer pens w h = Some g →
  0 ≤ x < w → 0 ≤ y < h → 0 ≤ i < 8 →
  _spacer g = spacer
  ∧ getGeom <$> nds g !! Center x y = Some (centerGeom bbox cellSize x y 0 0)
  ∧ getGeom <$> nds g !! Port x y i
    = Some (portGeom bbox cellSize spacer x y i 0 0).
Proof.
  intros H Hx Hy Hi.
  destruct (mkGridGraph_built _ _ _ _ _ _ _ H)
    as [_ (_ & _ & Hs & _ & _ & HD)].
  destruct (HD x y (conj Hx Hy)) as (_ & Hc & Hp).
  split; [exact Hs|]. by rewrite Hc, (Hp i Hi).
Qed.

Lemma mkGridGraph_port_position_gridWide :
  _spacer gridWide = 2%float
  ∧ getGeom <$> nds gridWide !! Center 0 0 = Some (centerGeom box3 1 0 0 0 0)
  ∧ getGeom <$> nds gridWide !! Port 0 0 2
    = Some (portGeom box3 1 2 0 0 2 0 0).
Proof.
  apply (mkGridGraph_port_position box3 1 2 pens3 3 3 gridWide 0 0 2
           gridWide_built); lia.
Defined.

(** The constructor succeeds and returns a well-formed grid, for penalties
    in the order its assertions ask for and a grid whose size fits
    [size_t]; in it, the edges between ports of two different cells are
    exactly the traversal edges: an edge joins port i of a cell and port j
    of another one exactly when the second cell is the neighbour of the
    first in direction i and j is (i + 4) mod 8. *)
Theorem mkGridGraph_wf (bbox : DBox) (cellSize spacer : float)
    (pens : Penalties) (w h : Z) :
  0 ≤ w < SIZE_MOD → 0 ≤ h < SIZE_MOD →
  (p_0 pens <? p_135 pens)%float = true →
  (p_135 pens <? p_90 pens)%float = true →
  (p_90 pens <? p_45 pens)%float = true →
  ∃ g,
    mkGridGraph bbox cellSize spacer pens w h = Some g
    ∧ wf g
    ∧ ∀ x y i x' y' j,
        (x, y) ≠ (x', y') →
        is_Some (getEdg g (Port x y i) (Port x' y' j))
        ↔ in_grid g x y ∧ 0 ≤ i < 8
          ∧ getNeighbor g x y i = Some (Center x' y')
          ∧ j = (i + 4) mod 8.
Proof.
  intros Hw Hh Hp1 Hp2 Hp3. rewrite mkGridGraph_stages.
  rewrite Hp1, Hp2, Hp3. cbn [negb andb].
  destruct (linked_wf bbox cellSize spacer pens w h Hw Hh)
    as (Hwf2 & _).
  pose proof (linked_cross bbox cellSize spacer pens w h Hw Hh) as Hcross.
  cbv zeta in Hcross.
  set (g2 := linkPorts (writeNodes (grid0 bbox cellSize spacer pens w h)))
    in *.
  destruct (writeInitialCosts_total g2 Hwf2) as (g & Hg & Hs).
  exists g. split; [exact Hg|].
  assert (wf g) as Hwf by (by eapply wf_same_shape).
  split; [exact Hwf|].
  destruct Hs as (Hsi & _ & Hedges). pose proof Hsi as (HW & HH & _).
  intros x y i x' y' j Hne. split.
  - intros He. unfold getEdg in He. apply Hedges in He.
    destruct (Hcross x y i x' y' j Hne He) as (Hin & Hi & Hnb & Hj).
    split; [unfold in_grid in *; by rewrite HW, HH|].
    split; [done|]. split; [|done].
    by rewrite (getNeighbor_same_index g2).
  - intros (Hin & Hi & Hnb & ->).
    exact (wf_edge g Hwf x y i (Center x' y') Hin Hi Hnb).
Qed.

Lemma mkGridGraph_wf_grid3 :
  ∃ g,
    mkGridGraph box3 1 0.25 pens3 3 3 = Some g
    ∧ wf g
    ∧ ∀ x y i x' y' j,
        (x, y) ≠ (x', y') →
        is_Some (getEdg g (Port x y i) (Port x' y' j))
        ↔ in_grid g x y ∧ 0 ≤ i < 8
          ∧ getNeighbor g x y i = Some (Center x' y')
          ∧ j = (i + 4) mod 8.
Proof.
  apply mkGridGraph_wf; try reflexivity; unfold SIZE_MOD; lia.
Defined.

(** C7: in a grid as the constructor returns it, the edges between two ports
    of the center of a cell are those between directions at angular distance
    2, 3 or 4, none between directions at distance 1; there are 20 of them;
    and the cost of one is p_45 - p_135 at distance 4, p_45 at distance 3 and
    p_45 - p_135 + p_90 at distance 2. *)
Theorem mkGridGraph_bend_edges (bbox : DBox) (cellSize spacer : float)
    (pens : Penalties) (w h : Z) (g : GridGraph) (x y : Z) :
  mkGridGraph bbox cellSize spacer pens w h = Some g →
  0 ≤ x < w → 0 ≤ y < h →
  (∀ i j, getEdg g (Port x y i) (Port x y j) = bendEdge pens i j)
  ∧ countBends g x y = 20%nat.
Proof.
  intros H Hx Hy.
  destruct (mkGridGraph_built _ _ _ _ _ _ _ H) as [(_ & _ & _ & HD) _].
  assert (∀ i j, getEdg g (Port x y i) (Port x y j) = bendEdge pens i j)
    as Hb by (intros i j; by apply HD).
  split; [exact Hb|]. by eapply countBends_expected.
Qed.

Lemma mkGridGraph_bend_edges_grid3 :
  (∀ i j, getEdg grid3 (Port 1 1 i) (Port 1 1 j) = bendEdge pens3 i j)
  ∧ countBends grid3 1 1 = 20%nat.
Proof.
  apply (mkGridGraph_bend_edges box3 1 0.25 pens3 3 3 grid3 1 1 grid3_built);
    lia.
Defined.

(** * Further results on the grid graph *)

(** In the grid the constructor returns, the traversal edge from port i of a
    cell to the mirrored port of its neighbour in direction i is open, not
    secondary, without reserved edges, and costs verticalPen for i = 0 and
    4, horizontalPen for i = 2 and 6, and diagonalPen for odd i. *)
Theorem mkGridGraph_traversal_costs (bbox : DBox) (cellSize spacer : float)
    (pens : Penalties) (w h : Z) (g : GridGraph) (x y i x' y' : Z) :
  0 ≤ w < SIZE_MOD → 0 ≤ h < SIZE_MOD →
  mkGridGraph bbox cellSize spacer pens w h = Some g →
  0 ≤ x < w → 0 ≤ y < h → 0 ≤ i < 8 →
  getNeighbor g x y i = Some (Center x' y') →
  getEdg g (Port x y i) (Port x' y' ((i + 4) mod 8))
  = Some (mkGridEdgePL (initCost pens i) false).
Proof.
  intros Hw Hh H Hx Hy Hi Hnb.
  rewrite mkGridGraph_stages in H. destruct (negb _); [done|].
  destruct (linked_wf bbox cellSize spacer pens w h Hw Hh)
    as (Hwf & Hc & HW & HH & HI & Hpl).
  set (g2 := linkPorts (writeNodes (grid0 bbox cellSize spacer pens w h)))
    in *.
  pose proof (kept_writeInitialCosts _ _ HI H) as ((_ & Hidx) & _).
  rewrite (getNeighbor_same_index g2 g) in Hnb by done.
  apply (writeInitialCosts_costSet g2 pens x y i x' y' Hwf Hc); try done.
  unfold in_grid. by rewrite HW, HH.
Qed.

Lemma mkGridGraph_traversal_costs_grid3 :
  getNeighbor grid3 1 1 3 = Some (Center 2 0)
  ∧ getEdg grid3 (Port 1 1 3) (Port 2 0 ((3 + 4) mod 8))
    = Some (mkGridEdgePL (initCost pens3 3) false).
Proof.
  assert (getNeighbor grid3 1 1 3 = Some (Center 2 0)) as Hnb
    by (vm_compute; reflexivity).
  split; [exact Hnb|].
  exact (mkGridGraph_traversal_costs box3 1 0.25 pens3 3 3 grid3 1 1 3 2 0
           ltac:(unfold SIZE_MOD; lia) ltac:(unfold SIZE_MOD; lia)
           grid3_built ltac:(lia) ltac:(lia) ltac:(lia) Hnb).
Defined.

(** openNodeSink gives the cost to each of the eight edges between a center
    and its ports that exists, changing nothing else of these edges, and
    leaves every other edge, the nodes and the index as they are. *)
Theorem openNodeSink_effect (g : GridGraph) (x y : Z) (cost : float) :
  let g' := openNodeSink g (Center x y) cost in
  (∀ i, 0 ≤ i < 8 →
     getEdg g' (Port x y i) (Center x y)
     = setCost cost <$> getEdg g (Port x y i) (Center x y))
  ∧ (∀ a b, (∀ i, 0 ≤ i < 8 → ekey a b ≠ ekey (Port x y i) (Center x y)) →
       getEdg g' a b = getEdg g a b)
  ∧ nds g' = nds g ∧ same_index g g'.
Proof.
  destruct (openNodeSink_loop g x y cost)
    as ((_ & _ & HW & HH & HG & _ & _ & Hn) & Hk).
  cbv zeta in *. split; [|split; [|split; [done|by repeat split]]].
  - intros i Hi. unfold getEdg. rewrite Hk, decide_True; [done|].
    apply sink_keys. by exists i.
  - intros a b Hab. unfold getEdg. rewrite Hk, decide_False; [done|].
    intros (i & Hi & E)%sink_keys. by apply (Hab i).
Qed.

(** In the grid the constructor returns, the eight edges between a center
    and its ports cost infinity, so closing the sink of a center after
    opening it at any cost gives the grid back. *)
Theorem closeNodeSink_openNodeSink (bbox : DBox) (cellSize spacer : float)
    (pens : Penalties) (w h : Z) (g : GridGraph) (x y : Z) (cost : float) :
  mkGridGraph bbox cellSize spacer pens w h = Some g →
  0 ≤ x < w → 0 ≤ y < h →
  (∀ i, 0 ≤ i < 8 →
     getEdg g (Port x y i) (Center x y) = Some (mkGridEdgePL INF true))
  ∧ closeNodeSink (openNodeSink g (Center x y) cost) (Center x y) = g.
Proof.
  intros H Hx Hy.
  assert (∀ i, 0 ≤ i < 8 →
            edgs g !! ekey (Port x y i) (Center x y)
            = Some (mkGridEdgePL INF true)) as Hs.
  { intros i Hi. rewrite ekey_comm.
    fold (getEdg g (Center x y) (Port x y i)).
    rewrite (built_sinks _ _ _ _ _ _ _ _ _ _ _ _ H). by rewrite decide_True. }
  split; [exact Hs|].
  rewrite closeNodeSink_open.
  destruct (openNodeSink_loop g x y cost)
    as ((? & ? & ? & ? & ? & ? & ? & ?) & Hk1).
  destruct (openNodeSink_loop (openNodeSink g (Center x y) cost) x y INF)
    as ((? & ? & ? & ? & ? & ? & ? & ?) & Hk2).
  cbv zeta in *. apply GridGraph_eq; try congruence.
  apply map_eq. intros k. rewrite Hk2, Hk1.
  case_decide as Hin; [|done].
  apply sink_keys in Hin as (i & Hi & ->). by rewrite (Hs i Hi).
Qed.

Lemma closeNodeSink_openNodeSink_grid3 :
  (∀ i, 0 ≤ i < 8 →
     getEdg grid3 (Port 1 1 i) (Center 1 1) = Some (mkGridEdgePL INF true))
  ∧ closeNodeSink (openNodeSink grid3 (Center 1 1) 0) (Center 1 1) = grid3.
Proof.
  apply (closeNodeSink_openNodeSink box3 1 0.25 pens3 3 3 grid3 1 1 0
           grid3_built); lia.
Defined.

(** Between the centers of two neighbouring cells getNEdge finds the
    traversal edge in the direction from the first to the second, and from
    the other side it finds the same edge, its end nodes swapped. *)
Theorem getNEdge_mirror (g : GridGraph) (x y i x' y' : Z) :
  wf g → in_grid g x y → 0 ≤ i < 8 →
  getNeighbor g x y i = Some (Center x' y') →
  getNEdge g (Center x y) (Center x' y')
  = Some (Port x y i, Port x' y' ((i + 4) mod 8))
  ∧ getNEdge g (Center x' y') (Center x y)
    = Some (Port x' y' ((i + 4) mod 8), Port x y i).
Proof.
  intros Hwf Hin Hi Hnb.
  destruct (getNeighbor_back g x y i x' y' (wf_indexed g Hwf) Hin Hi Hnb)
    as [Hin' Hback].
  assert (0 ≤ (i + 4) mod 8 < 8) as Hi' by (apply Z.mod_pos_bound; lia).
  split.
  - apply (edge_search g x y i _ dirs Hwf Hin Hi Hnb);
      [by apply dirs_spec|intros j; apply dirs_spec].
  - destruct (edge_search g x' y' ((i + 4) mod 8) _ dirs Hwf Hin' Hi' Hback)
      as [E _]; [by apply dirs_spec|intros j; apply dirs_spec|].
    unfold getNEdge. rewrite E. cbn [getPort].
    replace (((i + 4) mod 8 + 4) mod 8) with i; [done|].
    each_dir i Hi; reflexivity.
Qed.

Lemma getNEdge_mirror_grid3 :
  getNEdge grid3 (Center 0 0) (Center 1 1)
  = Some (Port 0 0 1, Port 1 1 ((1 + 4) mod 8))
  ∧ getNEdge grid3 (Center 1 1) (Center 0 0)
    = Some (Port 1 1 ((1 + 4) mod 8), Port 0 0 1).
Proof.
  apply (getNEdge_mirror grid3 0 0 1 1 1 grid3_wf);
    [vm_compute; done|lia|vm_compute; reflexivity].
Defined.

(** For the centers of two different cells that are not neighbours,
    getNEdge finds no edge, and balanceEdge dereferences the null pointer it
    got: it has no result. *)
Theorem balanceEdge_apart (g : GridGraph) (x y x' y' : Z) :
  wf g → in_grid g x y → in_grid g x' y' → (x, y) ≠ (x', y') →
  (∀ i, 0 ≤ i < 8 → getNeighbor g x y i ≠ Some (Center x' y')) →
  getNEdge g (Center x y) (Center x' y') = None
  ∧ balanceEdge g (Center x y) (Center x' y') = None.
Proof.
  intros Hwf Hin Hin' Hne Hnb.
  assert (getNEdge g (Center x y) (Center x' y') = None) as E.
  { apply getNEdge_from_none; try done. intros i. apply dirs_spec. }
  split; [exact E|]. unfold balanceEdge.
  rewrite decide_False by congruence. cbn [getNodeCoords]. cbv zeta.
  by rewrite E.
Qed.

Lemma balanceEdge_apart_grid3 :
  getNEdge grid3 (Center 0 0) (Center 2 2) = None
  ∧ balanceEdge grid3 (Center 0 0) (Center 2 2) = None.
Proof.
  apply (balanceEdge_apart grid3 0 0 2 2 grid3_wf);
    [vm_compute; done|vm_compute; done|congruence|].
  intros i Hi. each_dir i Hi; vm_compute; congruence.
Defined.

(** The heuristic does not depend on the direction: from b to a it is what
    it is from a to b, and it is undefined for the one exactly when it is
    for the other. *)
Theorem heurCost_symmetric (g : GridGraph) (xa ya xb yb : Z) :
  heurCost g xb yb xa ya = heurCost g xa ya xb yb.
Proof.
  unfold heurCost. rewrite (Z.eqb_sym xb xa), (Z.eqb_sym yb ya).
  destruct (_ && _); [done|].
  by rewrite (sub64_labs_sym xa xb), (sub64_labs_sym ya yb).
Qed.

(** The operations of the router change no node set, no edge set and no
    index: after addCostVector, removeCostVector and balanceEdge, whatever
    node and vector they get, and after closing and opening a node, the
    grid has the nodes and the edges it had and the same index, so a
    well-formed grid stays well formed; the inverse vector that
    addCostVector returns has eight slots. *)
Theorem mutators_keep_wf (g : GridGraph) :
  (∀ n addC g' inv,
     addCostVector g n addC = Some (g', inv) →
     same_shape g g' ∧ length inv = 8%nat ∧ (wf g → wf g'))
  ∧ (∀ n addC g',
       removeCostVector g n addC = Some g' →
       same_shape g g' ∧ (wf g → wf g'))
  ∧ (∀ a b g',
       balanceEdge g a b = Some g' → same_shape g g' ∧ (wf g → wf g'))
  ∧ (∀ n,
       same_shape g (closeNode g n) ∧ same_shape g (openNode g n)
       ∧ (wf g → wf (closeNode g n) ∧ wf (openNode g n))).
Proof.
  split; [|split; [|split]].
  - intros n addC g' inv H. unfold addCostVector in H.
    assert (same_shape g g' ∧ length inv = 8%nat) as [Hs Hl].
    { revert H.
      apply (foldM_invariant
               (fun s : GridGraph * NodeCost =>
                  same_shape g s.1 ∧ length s.2 = 8%nat)
               (addCostStep n addC) dirs);
        [|split; [apply same_shape_refl|done]].
      intros i [g1 inv1] [g2 inv2] _ [H1 L1] E. cbn [fst snd] in *.
      apply same_shape_addCostStep in E as [E1 E2].
      split; [by eapply same_shape_trans|congruence]. }
    split; [exact Hs|]. split; [exact Hl|].
    intros Hwf. by eapply wf_same_shape.
  - intros n addC g' H. unfold removeCostVector in H.
    assert (same_shape g g') as Hs.
    { revert H.
      apply (foldM_invariant (same_shape g)); [|apply same_shape_refl].
      intros i g1 g2 _ H1 E. apply same_shape_removeCostStep in E.
      by eapply same_shape_trans. }
    split; [exact Hs|]. intros Hwf. by eapply wf_same_shape.
  - intros a b g' H. apply same_shape_balanceEdge in H.
    split; [exact H|]. intros Hwf. by eapply wf_same_shape.
  - intros n. split; [apply same_shape_closeNode|].
    split; [apply same_shape_openNode|].
    intros Hwf. split; (eapply wf_same_shape; [exact Hwf|]);
      [apply same_shape_closeNode|apply same_shape_openNode].
Qed.

Lemma mutators_keep_wf_grid3 :
  ∃ g1 inv,
    addCostVector grid3 (Center 1 1) addC3 = Some (g1, inv)
    ∧ same_shape grid3 g1 ∧ length inv = 8%nat ∧ wf g1.
Proof.
  assert (bool_decide (is_Some (addCostVector grid3 (Center 1 1) addC3))
          = true) as H by (vm_compute; reflexivity).
  apply bool_decide_eq_true in H. destruct H as [[g1 inv] E].
  exists g1, inv. split; [exact E|].
  destruct (mutators_keep_wf grid3) as (Hadd & _).
  destruct (Hadd (Center 1 1) addC3 g1 inv E) as (Hs & Hl & Hw).
  split; [exact Hs|]. split; [exact Hl|]. exact (Hw grid3_wf).
Defined.

(** Opening a node undoes closing it: for an open center of a well-formed
    grid whose neighbours are open and whose traversal edges are open and
    carry no reserved edge, openNode after closeNode gives the grid back. *)
Theorem openNode_closeNode (g : GridGraph) (x y : Z) :
  wf g → in_grid g x y → isClosed g (Center x y) = false →
  (∀ i nb, 0 ≤ i < 8 → getNeighbor g x y i = Some nb →
     isClosed g nb = false
     ∧ ∀ e, getEdg g (Port x y i) (getPort nb ((i + 4) mod 8)) = Some e →
            closed e = false ∧ getResEdges e = []) →
  openNode (closeNode g (Center x y)) (Center x y) = g.
Proof.
  intros Hwf Hin Hopen Hnb.
  destruct (wf_nds g Hwf x y Hin) as [pl Hpl].
  assert (isClosed_ pl = false) as Hplc.
  { unfold isClosed in Hopen. by rewrite Hpl in Hopen. }
  unfold closeNode. rewrite Hopen. cbn [getNodeCoords].
  rewrite (closeNode_loop_exact g) by apply same_index_refl.
  destruct (alter_loop close (omap (linkKey g x y) dirs)
              ltac:(by intros []) g)
    as ((B1 & C1 & W1 & H1 & G1 & Z1 & S1 & N1) & K1).
  cbv zeta in *.
  set (gc := foldl (fun g k => set_edgs (alter close k) g) g
               (omap (linkKey g x y) dirs)) in *.
  unfold openNode.
  assert (isClosed (setClosed (Center x y) true gc) (Center x y) = true)
    as ->.
  { rewrite isClosed_setClosed, decide_True by done.
    rewrite decide_True; [done|]. rewrite N1. by exists pl. }
  cbn [negb getNodeCoords].
  rewrite (openNode_loop_exact g).
  2:{ by repeat split. }
  2:{ intros i nb Hi%dirs_spec Hn.
      destruct (Hnb i nb Hi Hn) as [Hc He]. split.
      - rewrite isClosed_setClosed, decide_False.
        + unfold isClosed. by rewrite N1.
        + pose proof (getNeighbor_neq_self g x y i nb Hwf Hin Hi Hn) as Hne.
          intros ->. by apply Hne.
      - destruct (wf_edge g Hwf x y i nb Hin Hi Hn) as [e E].
        exists (close e). split; [|by apply (He e)].
        unfold getEdg in *. rewrite edgs_setClosed, K1, E.
        rewrite decide_True; [done|]. apply linkKey_elem. by exists i, nb. }
  destruct (alter_loop open (omap (linkKey g x y) dirs)
              ltac:(by intros []) (setClosed (Center x y) true gc))
    as ((B2 & C2 & W2 & H2 & G2 & Z2 & S2 & N2) & K2).
  cbv zeta in *.
  set (go := foldl (fun g k => set_edgs (alter open k) g)
               (setClosed (Center x y) true gc)
               (omap (linkKey g x y) dirs)) in *.
  cbn [setClosed set_nds _bbox _c getXWidth getYHeight _grid _cellSize
       _spacer] in B2, C2, W2, H2, G2, Z2, S2.
  apply GridGraph_eq; cbn [setClosed set_nds _bbox _c getXWidth getYHeight
                            _grid _cellSize _spacer nds edgs];
    try congruence.
  - rewrite N2. cbn [setClosed set_nds nds]. rewrite N1.
    apply map_eq. intros k. destruct (decide (k = Center x y)) as [->|Hk].
    + rewrite !lookup_alter_eq, Hpl. cbn. destruct pl; cbn in *.
      by rewrite Hplc.
    + by rewrite !lookup_alter_ne.
  - apply map_eq. intros k. rewrite K2, edgs_setClosed, K1.
    case_decide as Hin'; [|done].
    apply linkKey_elem in Hin' as (i & nb & Hi & Hn & ->).
    destruct (Hnb i nb Hi Hn) as [_ He]. unfold getEdg in He.
    destruct (edgs g !! ekey (Port x y i) (getPort nb ((i + 4) mod 8)))
      as [e|]; [|done].
    cbn. destruct (He e eq_refl) as [Hc _]. by rewrite open_close.
Qed.

Lemma openNode_closeNode_grid3 :
  openNode (closeNode grid3 (Center 1 1)) (Center 1 1) = grid3.
Proof.
  apply (openNode_closeNode grid3 1 1 grid3_wf);
    [vm_compute; done|vm_compute; reflexivity|].
  intros i nb Hi Hn.
  assert (∃ c, getNeighbor grid3 1 1 i = Some c
               ∧ isClosed grid3 c = false
               ∧ ∃ e, getEdg grid3 (Port 1 1 i) (getPort c ((i + 4) mod 8))
                      = Some e
                      ∧ closed e = false ∧ getResEdges e = [])
    as (c & Hc & Hcl & e & He & Hce & Hre).
  { each_dir i Hi; eexists; (split; [vm_compute; reflexivity|]);
      (split; [vm_compute; reflexivity|]); eexists;
      (split; [vm_compute; reflexivity|]); split; reflexivity. }
  rewrite Hc in Hn. injection Hn as <-. split; [exact Hcl|].
  intros e' He'. rewrite He in He'. injection He' as <-. by split.
Defined.

(** spacingPenalty closes every direction that is taken: when the traversal
    edge of direction i at n carries a reserved edge, slot i of the vector
    it returns holds the sentinel, whatever the other settled edges and the
    edge ordering are. *)
Theorem spacingPenalty_settled_closed (g : GridGraph) (n : GridNode)
    (origNode : CombNode) (e : CombEdge) (x y i : Z) (nb : GridNode)
    (ed : GridEdgePL) :
  getAdjList origNode ≠ [] →
  has (getEdgeOrdering origNode) e = true →
  getNodeCoords n = (x, y) → 0 ≤ i < 8 →
  getNeighbor g x y i = Some nb →
  getEdg g (getPort n i) (getPort nb ((i + 4) mod 8)) = Some ed →
  getResEdges ed ≠ [] →
  ∃ addC,
    spacingPenalty g n origNode e = Some (addC, [])
    ∧ length addC = 8%nat
    ∧ nc_get addC i = SENTINEL.
Proof.
  intros Hadj Hhas Hn Hi Hnb He Hres. unfold spacingPenalty. cbv zeta.
  destruct (getAdjList origNode) as [|a adj] eqn:Ea; [done|].
  rewrite <- Ea. clear Hadj.
  assert ((Z.of_nat (length (getAdjList origNode)) =? 0) = false) as ->.
  { rewrite Ea. cbn [length]. apply Z.eqb_neq. lia. }
  rewrite Hhas. cbn [negb]. eexists. split; [reflexivity|].
  destruct (getResEdges ed) as [|f res] eqn:Er; [done|].
  assert ((i, Some f) ∈ zip dirs (getSettledOutgoingEdges g n)) as Hel.
  { apply (list_elem_of_lookup_2 _ (Z.to_nat i)).
    apply lookup_zip_with_Some. exists i, (Some f).
    split; [done|]. split.
    - each_dir i Hi; reflexivity.
    - rewrite (settled_lookup g n x y i Hn Hi), Hnb, He, Er. done. }
  apply list_elem_of_split in Hel as (l1 & l2 & ->).
  rewrite foldl_app. cbn [foldl].
  set (F := spacingStep (_c g) (getEdgeOrdering origNode) _ e).
  assert (sticky NodeCost0 (foldl F NodeCost0 l1)) as [L1 _].
  { apply sticky_foldl. intros. apply spacingStep_sticky. }
  destruct (spacingStep_shape (_c g) (getEdgeOrdering origNode)
              (wrap (Z.quot 8 (Z.of_nat (length (getAdjList origNode))) - 1))
              e (foldl F NodeCost0 l1) i f) as (c2 & [L2 _] & [L3 H3]).
  fold F in L3, H3.
  assert (sticky (F (foldl F NodeCost0 l1) (i, Some f))
            (foldl F (F (foldl F NodeCost0 l1) (i, Some f)) l2))
    as [L4 H4].
  { apply sticky_foldl. intros. apply spacingStep_sticky. }
  rewrite length_nc_set in L3.
  assert (length c2 = 8%nat) as Hc2 by (rewrite L2, L1; reflexivity).
  split; [congruence|].
  unfold nc_get. rewrite (H4 (Z.to_nat i)); [done|].
  apply H3. unfold nc_set. apply list_lookup_insert_eq. lia.
Qed.

Lemma spacingPenalty_settled_closed_grid3 :
  ∃ addC,
    spacingPenalty grid3_reserved (Center 1 1)
      {| cnId := 1; getAdjList := [5; 7]; getEdgeOrdering := [5; 7] |} 5
    = Some (addC, [])
    ∧ length addC = 8%nat
    ∧ nc_get addC 0 = SENTINEL.
Proof.
  assert (getNeighbor grid3_reserved 1 1 0 = Some (Center 1 2)) as Hnb
    by (vm_compute; reflexivity).
  assert (getEdg grid3_reserved (getPort (Center 1 1) 0)
            (getPort (Center 1 2) ((0 + 4) mod 8))
          = Some {| rawCost := 1; secondary := false; closed := true;
                    getResEdges := [7] |}) as He
    by (vm_compute; reflexivity).
  exact (spacingPenalty_settled_closed grid3_reserved (Center 1 1)
           {| cnId := 1; getAdjList := [5; 7]; getEdgeOrdering := [5; 7] |}
           5 1 1 0 (Center 1 2) _ ltac:(discriminate) eq_refl eq_refl
           ltac:(lia) Hnb He ltac:(discriminate)).
Defined.

(** topoBlockPenalty only blocks: the vector it returns has eight slots, and
    each of them holds 0 or the sentinel. *)
Theorem topoBlockPenalty_slots (g : GridGraph) (n : GridNode)
    (origNode : CombNode) (e : CombEdge) :
  length (topoBlockPenalty g n origNode e) = 8%nat
  ∧ ∀ i, 0 ≤ i < 8 →
      nc_get (topoBlockPenalty g n origNode e) i = 0%float
      ∨ nc_get (topoBlockPenalty g n origNode e) i = SENTINEL.
Proof.
  assert (blocked_or_free (topoBlockPenalty g n origNode e)) as [L F].
  { unfold topoBlockPenalty. cbv zeta. apply foldl_invariant.
    - split; [done|]. unfold NodeCost0. cbn.
      repeat constructor; by left.
    - intros c [i [f|]] _ Hc; [|done]. by apply topoBlockFrom_slots. }
  split; [exact L|]. intros i Hi. unfold nc_get.
  destruct (topoBlockPenalty g n origNode e !! Z.to_nat i) as [v|] eqn:E.
  - cbn. by apply (Forall_lookup_1 _ _ _ _ F E).
  - apply lookup_ge_None in E. lia.
Qed.

(** A node with a single settled edge blocks nothing: when every taken
    direction at n holds the same edge, topoBlockPenalty returns the zero
    vector. *)
Theorem topoBlockPenalty_one_edge (g : GridGraph) (n : GridNode)
    (origNode : CombNode) (e f : CombEdge) :
  (∀ k f', getSettledOutgoingEdges g n !! k = Some (Some f') → f' = f) →
  topoBlockPenalty g n origNode e = NodeCost0.
Proof.
  intros Hall. unfold topoBlockPenalty. cbv zeta.
  apply (foldl_invariant (fun c => c = NodeCost0)); [done|].
  intros c [i [f'|]] Hel ->; [|done].
  apply elem_of_zip_r, list_elem_of_lookup in Hel as [k Hk]. cbn in Hk.
  rewrite (Hall k f' Hk). by apply topoBlockFrom_same.
Qed.

Lemma topoBlockPenalty_one_edge_grid3 :
  getSettledOutgoingEdges grid3_reserved (Center 1 1)
  = [Some 7; None; None; None; None; None; None; None]
  ∧ topoBlockPenalty grid3_reserved (Center 1 1)
      {| cnId := 1; getAdjList := [5; 7]; getEdgeOrdering := [5; 7] |} 5
    = NodeCost0.
Proof.
  assert (getSettledOutgoingEdges grid3_reserved (Center 1 1)
          = [Some 7; None; None; None; None; None; None; None]) as Hs
    by (vm_compute; reflexivity).
  split; [exact Hs|].
  apply (topoBlockPenalty_one_edge grid3_reserved (Center 1 1) _ 5 7).
  intros k f' Hk. rewrite Hs in Hk.
  destruct k as [|k]; [by injection Hk as <-|].
  do 7 (destruct k as [|k]; [discriminate Hk|]). discriminate Hk.
Defined.

(** In the grid the constructor returns no direction is taken: at the
    center of every cell getSettledOutgoingEdges finds no edge, so
    topoBlockPenalty returns the zero vector, and so does spacingPenalty,
    without a warning, for an edge of the ordering of a node that has
    adjacent edges. *)
Theorem mkGridGraph_nothing_settled (bbox : DBox) (cellSize spacer : float)
    (pens : Penalties) (w h : Z) (g : GridGraph) (x y : Z) :
  0 ≤ w < SIZE_MOD → 0 ≤ h < SIZE_MOD →
  mkGridGraph bbox cellSize spacer pens w h = Some g →
  0 ≤ x < w → 0 ≤ y < h →
  getSettledOutgoingEdges g (Center x y) = replicate 8 None
  ∧ (∀ origNode e, topoBlockPenalty g (Center x y) origNode e = NodeCost0)
  ∧ (∀ origNode e,
       getAdjList origNode ≠ [] →
       has (getEdgeOrdering origNode) e = true →
       spacingPenalty g (Center x y) origNode e = Some (NodeCost0, [])).
Proof.
  intros Hw Hh H Hx Hy.
  destruct (built_links bbox cellSize spacer pens w h g Hw Hh H)
    as (Hwf & HW & HH & Hl).
  assert (in_grid g x y) as Hin by (unfold in_grid; by rewrite HW, HH).
  assert (getSettledOutgoingEdges g (Center x y) = replicate 8 None) as Hs.
  { apply list_eq. intros k.
    destruct (decide (k < 8)%nat) as [Hk|Hk].
    - assert (0 ≤ Z.of_nat k < 8) as Hi by lia.
      rewrite lookup_replicate_2 by done.
      rewrite <- (Nat2Z.id k).
      rewrite (settled_lookup g (Center x y) x y _ eq_refl Hi).
      destruct (getNeighbor g x y (Z.of_nat k)) as [nb|] eqn:En; [|done].
      destruct (getNeighbor_Center g x y _ nb Hwf Hin En)
        as (x' & y' & -> & _).
      cbn [getPort]. by rewrite (Hl x y _ x' y' Hin Hi En).
    - rewrite !(proj2 (lookup_ge_None _ _)); [done|..].
      + rewrite length_replicate. lia.
      + rewrite settled_length. lia. }
  split; [exact Hs|]. split.
  - intros origNode e. unfold topoBlockPenalty. rewrite Hs. reflexivity.
  - intros origNode e Hadj Hhas. unfold spacingPenalty. cbv zeta.
    destruct (getAdjList origNode) as [|a adj]; [done|].
    cbn [length]. rewrite (proj2 (Z.eqb_neq _ 0)) by lia.
    rewrite Hhas, Hs. reflexivity.
Qed.

Lemma mkGridGraph_nothing_settled_grid3 :
  getSettledOutgoingEdges grid3 (Center 1 1) = replicate 8 None
  ∧ (∀ origNode e, topoBlockPenalty grid3 (Center 1 1) origNode e = NodeCost0)
  ∧ (∀ origNode e,
       getAdjList origNode ≠ [] →
       has (getEdgeOrdering origNode) e = true →
       spacingPenalty grid3 (Center 1 1) origNode e = Some (NodeCost0, [])).
Proof.
  exact (mkGridGraph_nothing_settled box3 1 0.25 pens3 3 3 grid3 1 1
           ltac:(unfold SIZE_MOD; lia) ltac:(unfold SIZE_MOD; lia)
           grid3_built ltac:(lia) ltac:(lia)).
Defined.

(** Directions are mirrored: in a well-formed grid the neighbour of a cell
    in direction i is the center of another cell of the grid, and that cell
    has the first one as its neighbour in direction (i + 4) mod 8. *)
Theorem getNeighbor_opposite (g : GridGraph) (x y i : Z) (nb : GridNode) :
  wf g → in_grid g x y → 0 ≤ i < 8 →
  getNeighbor g x y i = Some nb →
  ∃ x' y',
    nb = Center x' y' ∧ in_grid g x' y' ∧ (x', y') ≠ (x, y)
    ∧ getNeighbor g x' y' ((i + 4) mod 8) = Some (Center x y).
Proof.
  intros Hwf Hin Hi Hnb.
  destruct (getNeighbor_Center g x y i nb Hwf Hin Hnb) as (x' & y' & -> & _).
  pose proof (getNeighbor_neq_self g x y i _ Hwf Hin Hi Hnb) as Hne.
  destruct (getNeighbor_back g x y i x' y' (wf_indexed g Hwf) Hin Hi Hnb)
    as [Hin' Hback].
  by exists x', y'.
Qed.

Lemma getNeighbor_opposite_grid3 :
  ∃ x' y',
    Center 2 0 = Center x' y' ∧ in_grid grid3 x' y' ∧ (x', y') ≠ (1, 1)
    ∧ getNeighbor grid3 x' y' ((3 + 4) mod 8) = Some (Center 1 1).
Proof.
  assert (in_grid grid3 1 1) as Hin by (vm_compute; done).
  assert (getNeighbor grid3 1 1 3 = Some (Center 2 0)) as Hnb
    by (vm_compute; reflexivity).
  exact (getNeighbor_opposite grid3 1 1 3 (Center 2 0) grid3_wf Hin
           ltac:(lia) Hnb).
Defined.

(** outDegDeviationPenalty never closes a direction.  When the angle in
    degrees, negated and truncated to d, lies between -360 and 360, it has a
    result of eight slots, and slot i holds a tenth of the angle, between 0
    and 180 degrees, between the directions 45 i and (d + 90) mod 360: a
    value between 0 and 18. *)
Theorem outDegDeviationPenalty_slots (degA : float) (d : Z) :
  double_to_int (- degA * (180 / M_PI))%float = Some d →
  - 360 ≤ d ≤ 360 →
  ∃ ret,
    outDegDeviationPenalty degA = Some ret
    ∧ length ret = 8%nat
    ∧ ∀ i, 0 ≤ i < 8 →
        let k := angleBetween ((d + 90) mod 360) (45 * i) in
        0 ≤ k ≤ 180
        ∧ nc_get ret i = (0 + tenth * int_to_double k)%float
        ∧ (0 <=? nc_get ret i)%float = true
        ∧ (nc_get ret i <=? 18)%float = true
        ∧ (nc_get ret i <? -1)%float = false.
Proof.
  intros Hd Hr. unfold outDegDeviationPenalty. cbv zeta.
  rewrite Hd. cbn [mbind option_bind].
  set (d1 := if d <? 0 then d + 360 else d).
  assert (0 ≤ d1 ≤ 360 ∧ (d1 + 90) mod 360 = (d + 90) mod 360) as [Hd1 Hmod].
  { unfold d1. destruct (Z.ltb_spec d 0); split; try lia.
    replace (d + 360 + 90) with (d + 90 + 1 * 360) by lia.
    by rewrite Z.mod_add. }
  destruct (Z.leb_spec (2 ^ 31) (d1 + 90)); [lia|].
  rewrite Z.rem_mod_nonneg by lia. rewrite Hmod.
  pose proof (Z.mod_pos_bound (d + 90) 360 ltac:(lia)) as Hdeg.
  destruct (deviation_loop ((d + 90) mod 360) dirs
              ltac:(intros i; apply dirs_spec) dirs_NoDup NodeCost0 eq_refl)
    as [L Hslot].
  cbv zeta in L, Hslot. eexists. split; [reflexivity|]. split; [exact L|].
  intros i Hi. cbv zeta. rewrite (Hslot i Hi).
  rewrite decide_True by (by apply dirs_spec).
  assert (nc_get NodeCost0 i = 0%float) as ->
    by (each_dir i Hi; reflexivity).
  assert (0 ≤ angleBetween ((d + 90) mod 360) (45 * i) ≤ 180) as Hk
    by (unfold angleBetween; lia).
  split; [exact Hk|]. split; [done|].
  exact (deviation_values _ Hk).
Qed.

Lemma outDegDeviationPenalty_slots_zero :
  ∃ ret,
    outDegDeviationPenalty 0 = Some ret
    ∧ length ret = 8%nat
    ∧ ∀ i, 0 ≤ i < 8 →
        let k := angleBetween ((0 + 90) mod 360) (45 * i) in
        0 ≤ k ≤ 180
        ∧ nc_get ret i = (0 + tenth * int_to_double k)%float
        ∧ (0 <=? nc_get ret i)%float = true
        ∧ (nc_get ret i <=? 18)%float = true
        ∧ (nc_get ret i <? -1)%float = false.
Proof.
  apply (outDegDeviationPenalty_slots 0 0); [vm_compute; reflexivity|lia].
Defined.

(** * Properties of the line-ordering ILP *)

Module OptimProofs.
Import Optim.
Local Open Scope nat_scope.

(** ** Loops with invariants *)

Lemma foldl_seq_invariant {S : Type} (P : nat → S → Prop) (f : S → nat → S)
    (n : nat) (s : S) :
  P 0 s → (∀ i s, i < n → P i s → P (Datatypes.S i) (f s i)) →
  P n (foldl f s (seq 0 n)).
Proof.
  intros H0 Hstep. induction n as [|n IH].
  - done.
  - rewrite seq_S, foldl_app. simpl. apply Hstep; [lia|].
    apply IH. intros i s' Hi. apply Hstep. lia.
Qed.

Lemma foldl_indexed_invariant {A S : Type} (P : nat → S → Prop)
    (f : S → A → S) (l : list A) (s : S) :
  P 0 s → (∀ j a s, l !! j = Some a → P j s → P (Datatypes.S j) (f s a)) →
  P (length l) (foldl f s l).
Proof.
  intros H0 Hstep. induction l as [|a l IH] using rev_ind.
  - done.
  - rewrite foldl_app, length_app. simpl.
    replace (length l + 1) with (Datatypes.S (length l)) by lia.
    apply (Hstep (length l) a).
    + rewrite lookup_app_r by lia. by rewrite Nat.sub_diag.
    + apply IH. intros j b s' Hj. apply Hstep.
      by apply lookup_app_l_Some.
Qed.

(** ** Growing a problem *)

(** [lp'] has the rows and columns of [lp], at their indices, and maybe more. *)
Definition keeps (lp lp' : ILPSolver) : Prop :=
  (∀ i r, rows lp !! i = Some r → rows lp' !! i = Some r)
  ∧ (∀ i c, cols lp !! i = Some c → cols lp' !! i = Some c).

Lemma keeps_refl lp : keeps lp lp.
Proof. by split. Qed.

Lemma keeps_trans lp1 lp2 lp3 : keeps lp1 lp2 → keeps lp2 lp3 → keeps lp1 lp3.
Proof. intros [H1 H2] [H3 H4]. split; eauto. Qed.

Lemma keeps_length_rows lp lp' :
  keeps lp lp' → length (rows lp) ≤ length (rows lp').
Proof.
  intros [H _]. destruct (rows lp) as [|r l] eqn:E using rev_ind; [simpl; lia|].
  clear IHl. specialize (H (length l) r).
  rewrite lookup_app_r, Nat.sub_diag in H by lia.
  specialize (H eq_refl). apply lookup_lt_Some in H.
  rewrite length_app. simpl. lia.
Qed.

Lemma keeps_addCol lp name t obj : keeps lp (addCol name t obj lp).1.
Proof. split; simpl; [done|]. intros i c H. by apply lookup_app_l_Some. Qed.

Lemma keeps_addRow lp name b t : keeps lp (addRow name b t lp).1.
Proof. split; simpl; [|done]. intros i c H. by apply lookup_app_l_Some. Qed.

Lemma keeps_addColToRow lp0 lp row col coef :
  keeps lp0 lp → length (rows lp0) ≤ row →
  keeps lp0 (addColToRow row col coef lp).
Proof.
  intros [H1 H2] Hrow. split; simpl; [|done].
  intros i r Hi. rewrite list_lookup_alter_ne; [by apply H1|].
  apply lookup_lt_Some in Hi. lia.
Qed.

Section Later.

Context {OptGraph : Type}.
Context (getLinePairs : OptEdge → list LinePair).
Context (getEdgePartners : OptNode → OptEdge → LinePair → list OptEdge).
Context (getEdgePartnerPairs : OptNode → OptEdge → LinePair → list EdgePair).
Context (crosses2 : OptGraph → OptNode → OptEdge → OptEdge → PosComPair → bool).
Context (crosses3 : OptGraph → OptNode → OptEdge → EdgePair → PosCom → bool).
Context (getCrossingPenaltySameSeg getCrossingPenaltyDiffSeg : OptNode → Z).

Lemma sameSegRow_keeps lp0 a b linepair node dv lp poscomb lp' :
  keeps lp0 lp →
  sameSegRow a b linepair node dv lp poscomb = Some lp' → keeps lp0 lp'.
Proof.
  intros Hk. unfold sameSegRow. intros H.
  repeat (apply bind_Some in H as (? & _ & H)). cbn in H.
  injection H as <-.
  pose proof (keeps_length_rows _ _ Hk) as Hlen.
  repeat (apply keeps_addColToRow; [|done]).
  eapply keeps_trans; [exact Hk|]. split; simpl; [|done].
  intros i r Hi. by apply lookup_app_l_Some.
Qed.

Lemma sameSegPartner_keeps lp0 og node processed a linepair b lp lp' :
  keeps lp0 lp →
  sameSegPartner crosses2 getCrossingPenaltySameSeg og node processed a
    linepair b lp = Some lp' →
  keeps lp0 lp'.
Proof.
  intros Hk. unfold sameSegPartner. case_decide; [by intros [= <-]|].
  simpl. apply (foldM_invariant (keeps lp0)).
  - intros poscomb s s' _ Hs. destruct (crosses2 _ _ _ _ _).
    + by apply sameSegRow_keeps.
    + by intros [= <-].
  - eapply keeps_trans; [exact Hk|apply keeps_addCol].
Qed.

Lemma writeSameSegConstraints_keeps og g lp lp' :
  writeSameSegConstraints getLinePairs getEdgePartners crosses2
    getCrossingPenaltySameSeg og g lp = Some lp' →
  keeps lp lp'.
Proof.
  unfold writeSameSegConstraints.
  apply (foldM_invariant (keeps lp)); [|apply keeps_refl].
  intros node s s' _ Hs H.
  apply fmap_Some in H as ([processed s1] & H & ->). simpl.
  revert H.
  apply (foldM_invariant (fun ps => keeps lp ps.2)); [|done].
  intros a [pr s2] [pr' s2'] _ Hs2 H. simpl in *.
  apply bind_Some in H as (s3 & H & [= <- <-]).
  revert H. apply (foldM_invariant (keeps lp)); [|done].
  intros linepair s4 s4' _ Hs4.
  apply (foldM_invariant (keeps lp)); [|done].
  intros b s5 s5' _ Hs5. by apply sameSegPartner_keeps.
Qed.

Lemma diffSegRow_keeps lp0 a segs linepair node dv lp poscomb lp' :
  keeps lp0 lp →
  diffSegRow a segs linepair node dv lp poscomb = Some lp' → keeps lp0 lp'.
Proof.
  intros Hk. unfold diffSegRow. intros H.
  repeat (apply bind_Some in H as (? & _ & H)). cbn in H.
  injection H as <-.
  pose proof (keeps_length_rows _ _ Hk) as Hlen.
  repeat (apply keeps_addColToRow; [|done]).
  eapply keeps_trans; [exact Hk|]. split; simpl; [|done].
  intros i r Hi. by apply lookup_app_l_Some.
Qed.

Lemma writeDiffSegConstraints_keeps og g lp lp' :
  writeDiffSegConstraints getLinePairs getEdgePartnerPairs crosses3
    getCrossingPenaltyDiffSeg og g lp = Some lp' →
  keeps lp lp'.
Proof.
  unfold writeDiffSegConstraints.
  apply (foldM_invariant (keeps lp)); [|apply keeps_refl].
  intros node s s' _ Hs.
  apply (foldM_invariant (keeps lp)); [|done].
  intros a s2 s2' _ Hs2.
  apply (foldM_invariant (keeps lp)); [|done].
  intros linepair s3 s3' _ Hs3.
  apply (foldM_invariant (keeps lp)); [|done].
  intros segs s4 s4' _ Hs4. unfold diffSegPartners. simpl.
  apply (foldM_invariant (keeps lp)).
  - intros poscomb s5 s5' _ Hs5. destruct (crosses3 _ _ _ _ _).
    + by apply diffSegRow_keeps.
    + by intros [= <-].
  - eapply keeps_trans; [exact Hs4|apply keeps_addCol].
Qed.

End Later.


(** ** The rows and columns of one segment *)

(** Row [i] is an equation with bound 1 and the coefficients [cs]. *)
Definition rowIs (lp : ILPSolver) (i : nat) (cs : list (nat * Z)) : Prop :=
  ∃ r, rows lp !! i = Some r ∧ bnd r = 1%Z ∧ rowType r = FIX ∧ coefs r = cs.

(** Column [i] has the name [name]. *)
Definition colIs (lp : ILPSolver) (i : nat) (name : VarName) : Prop :=
  ∃ c, cols lp !! i = Some c ∧ colName c = name.

Lemma rowIs_keeps lp lp' i cs : keeps lp lp' → rowIs lp i cs → rowIs lp' i cs.
Proof. intros [H _] (r & Hr & ?). exists r. split; [by apply H|done]. Qed.

Lemma colIs_keeps lp lp' i name :
  keeps lp lp' → colIs lp i name → colIs lp' i name.
Proof. intros [_ H] (c & Hc & ?). exists c. split; [by apply H|done]. Qed.

Lemma rowIs_addRow_new lp name :
  rowIs (addRow name 1 FIX lp).1 (length (rows lp)) [].
Proof.
  eexists. split.
  - simpl. rewrite lookup_app_r by lia. rewrite Nat.sub_diag. reflexivity.
  - done.
Qed.

Lemma rowIs_addColToRow_eq lp i cs col coef :
  rowIs lp i cs → rowIs (addColToRow i col coef lp) i (cs ++ [(col, coef)]).
Proof.
  intros (r & Hr & Hb & Ht & Hc). exists (addCoef col coef r).
  split; [|by rewrite <- Hc]. simpl. by rewrite list_lookup_alter_eq, Hr.
Qed.

Lemma rowIs_addColToRow_ne lp i i' cs col coef :
  i ≠ i' → rowIs lp i cs → rowIs (addColToRow i' col coef lp) i cs.
Proof.
  intros Hne (r & Hr & ?). exists r. split; [|done]. simpl.
  by rewrite list_lookup_alter_ne.
Qed.

Lemma colIs_addColToRow lp i name row col coef :
  colIs lp i name → colIs (addColToRow row col coef lp) i name.
Proof. intros (c & Hc & ?). by exists c. Qed.

Lemma colIs_addCol_new lp name t obj :
  colIs (addCol name t obj lp).1 (length (cols lp)) name.
Proof.
  eexists. split.
  - simpl. rewrite lookup_app_r by lia. rewrite Nat.sub_diag. reflexivity.
  - done.
Qed.

Section Segment.

Context (e : OptEdge) (lp0 : ILPSolver).

Let K := getCardinality (pl e).
Let ls := getLines (pl e).
Let R := length (rows lp0).
Let C := length (cols lp0).

(** The coefficients of the row of position [q] after [j] lines, and of the
    row of line number [j] after [p] positions. *)
Definition slotCoefs (q j : nat) : list (nat * Z) :=
  (fun j' => (C + j' * K + q, 1%Z)) <$> seq 0 j.

Definition lineCoefs (j p : nat) : list (nat * Z) :=
  (fun q => (C + j * K + q, 1%Z)) <$> seq 0 p.

(** [j] lines are done. *)
Record between (lp : ILPSolver) (j : nat) : Prop := {
  bt_keeps : keeps lp0 lp;
  bt_cols : length (cols lp) = C + j * K;
  bt_rows : length (rows lp) = R + K + j;
  bt_slot : ∀ q, q < K → rowIs lp (R + q) (slotCoefs q j);
  bt_line : ∀ j', j' < j → rowIs lp (R + K + j') (lineCoefs j' K);
  bt_name : ∀ j' l q, j' < j → ls !! j' = Some l → q < K →
              colIs lp (C + j' * K + q) (getILPVarName e (line l) q)
}.

(** [j] lines are done and [p] positions of the next line [l]. *)
Record inLine (l : LineOcc) (lp : ILPSolver) (j p : nat) : Prop := {
  il_keeps : keeps lp0 lp;
  il_cols : length (cols lp) = C + j * K + p;
  il_rows : length (rows lp) = R + K + j + 1;
  il_slot : ∀ q, q < K →
              rowIs lp (R + q)
                (slotCoefs q j
                 ++ if decide (q < p) then [(C + j * K + q, 1%Z)] else []);
  il_line : ∀ j', j' < j → rowIs lp (R + K + j') (lineCoefs j' K);
  il_cur : rowIs lp (R + K + j) (lineCoefs j p);
  il_name : ∀ j' l' q, j' < j → ls !! j' = Some l' → q < K →
              colIs lp (C + j' * K + q) (getILPVarName e (line l') q);
  il_name_cur : ∀ q, q < p →
              colIs lp (C + j * K + q) (getILPVarName e (line l) q)
}.

Lemma inLine_step (l : LineOcc) (lp : ILPSolver) (j p : nat) :
  p < K → inLine l lp j p →
  inLine l (addLineVar e l (R + K + j) R lp p) j (S p).
Proof.
  intros Hp [Hk Hc Hr Hslot Hline Hcur Hname Hncur].
  unfold addLineVar, addCol. cbn beta iota zeta.
  set (lp1 := (addCol (getILPVarName e (line l) p) BIN 0 lp).1).
  change ({| cols := _; rows := rows lp |}) with lp1.
  assert (keeps lp lp1) as Hk1 by apply keeps_addCol.
  pose proof (keeps_length_rows _ _ Hk) as Hlen.
  split.
  - repeat (apply keeps_addColToRow; [|fold R; lia]).
    by eapply keeps_trans.
  - simpl. rewrite length_app. simpl. lia.
  - simpl. by rewrite !length_alter.
  - intros q Hq. rewrite Hc. destruct (decide (q = p)) as [->|Hqp].
    + rewrite decide_True by lia.
      specialize (Hslot p Hp). rewrite decide_False in Hslot by lia.
      rewrite app_nil_r in Hslot.
      apply rowIs_addColToRow_eq, rowIs_addColToRow_ne; [lia|].
      by eapply rowIs_keeps.
    + specialize (Hslot q Hq).
      assert ((if decide (q < S p) then [(C + j * K + q, 1%Z)] else [])
              = (if decide (q < p) then [(C + j * K + q, 1%Z)] else []))
        as -> by (repeat case_decide; try done; lia).
      apply rowIs_addColToRow_ne; [lia|].
      apply rowIs_addColToRow_ne; [lia|]. by eapply rowIs_keeps.
  - intros j' Hj'. apply rowIs_addColToRow_ne; [lia|].
    apply rowIs_addColToRow_ne; [lia|]. eapply rowIs_keeps; [done|].
    by apply Hline.
  - rewrite Hc. unfold lineCoefs. rewrite seq_S, fmap_app. simpl.
    apply rowIs_addColToRow_ne; [lia|].
    apply rowIs_addColToRow_eq. by eapply rowIs_keeps.
  - intros j' l' q Hj' Hl' Hq. do 2 apply colIs_addColToRow.
    eapply colIs_keeps; [done|]. by apply Hname.
  - intros q Hq. do 2 apply colIs_addColToRow.
    destruct (decide (q = p)) as [->|Hqp].
    + rewrite <- Hc. apply colIs_addCol_new.
    + eapply colIs_keeps; [done|]. apply Hncur. lia.
Qed.

Lemma addLineVars_between (l : LineOcc) (lp : ILPSolver) (j : nat) :
  ls !! j = Some l → between lp j →
  between (addLineVars e R lp l) (S j).
Proof.
  intros Hl [Hk Hc Hr Hslot Hline Hname]. unfold addLineVars, addRow.
  cbn beta iota zeta. rewrite Hr.
  set (lp1 := (addRow (SumL (getStrRepr (pl e)) (line l)) 1 FIX lp).1).
  change ({| cols := cols lp; rows := _ |}) with lp1.
  assert (keeps lp lp1) as Hk1 by apply keeps_addRow.
  assert (inLine l lp1 j 0) as H0.
  { split.
    - by eapply keeps_trans.
    - simpl. lia.
    - simpl. rewrite length_app. simpl. lia.
    - intros q Hq. rewrite decide_False, app_nil_r by lia.
      eapply rowIs_keeps; [done|]. by apply Hslot.
    - intros j' Hj'. eapply rowIs_keeps; [done|]. by apply Hline.
    - rewrite <- Hr. apply rowIs_addRow_new.
    - intros j' l' q Hj' Hl' Hq. eapply colIs_keeps; [done|]. by apply Hname.
    - intros q Hq. lia. }
  fold K.
  assert (inLine l (foldl (addLineVar e l (R + K + j) R) lp1 (seq 0 K)) j K)
    as HK.
  { apply (foldl_seq_invariant (fun p lp => inLine l lp j p)); [done|].
    intros p lp' Hp Hin. by apply inLine_step. }
  revert HK. generalize (foldl (addLineVar e l (R + K + j) R) lp1 (seq 0 K)).
  intros lp2 [Hk' Hc' Hr' Hslot' Hline' Hcur' Hname' Hncur'].
  split.
  - done.
  - lia.
  - lia.
  - intros q Hq. specialize (Hslot' q Hq).
    rewrite decide_True in Hslot' by done.
    unfold slotCoefs. by rewrite seq_S, fmap_app.
  - intros j' Hj'. destruct (decide (j' = j)) as [->|]; [done|].
    apply Hline'. lia.
  - intros j' l' q Hj' Hl' Hq. destruct (decide (j' = j)) as [->|].
    + assert (l' = l) as -> by congruence. by apply Hncur'.
    + apply (Hname' j' l' q); [lia|done..].
Qed.

(** The rows and columns of the segment stand complete in [lp]. *)
Definition segmentDone (lp : ILPSolver) : Prop :=
  (∀ q, q < K → rowIs lp (R + q) (slotCoefs q (length ls)))
  ∧ (∀ j, j < length ls → rowIs lp (R + K + j) (lineCoefs j K))
  ∧ (∀ j l q, ls !! j = Some l → q < K →
       colIs lp (C + j * K + q) (getILPVarName e (line l) q)).

Lemma addSegment_done :
  keeps lp0 (addSegment lp0 e) ∧ segmentDone (addSegment lp0 e).
Proof.
  unfold addSegment, getNumConstrs. fold R K.
  assert (between
            (foldl (fun lp p => (addRow (SumP (getStrRepr (pl e)) p) 1 FIX lp).1)
               lp0 (seq 0 K)) 0) as H0.
  { assert (∀ n, let lp := foldl
               (fun lp p => (addRow (SumP (getStrRepr (pl e)) p) 1 FIX lp).1)
               lp0 (seq 0 n) in
             keeps lp0 lp ∧ cols lp = cols lp0 ∧ length (rows lp) = R + n
             ∧ ∀ q, q < n → rowIs lp (R + q) []) as Hn.
    { intros n.
      apply (foldl_seq_invariant (fun i lp =>
        keeps lp0 lp ∧ cols lp = cols lp0 ∧ length (rows lp) = R + i
        ∧ ∀ q, q < i → rowIs lp (R + q) [])).
      - split; [apply keeps_refl|]. split; [done|]. split; [unfold R; lia|].
        intros q Hq. lia.
      - intros i lp Hi (Hk & Hc & Hr & Hrows).
        split; [eapply keeps_trans; [done|apply keeps_addRow]|].
        split; [done|]. split; [simpl; rewrite length_app; simpl; lia|].
        intros q Hq. destruct (decide (q = i)) as [->|].
        + rewrite <- Hr. apply rowIs_addRow_new.
        + eapply rowIs_keeps; [apply keeps_addRow|]. apply Hrows. lia. }
    destruct (Hn K) as (Hk & Hc & Hr & Hrows). split.
    - done.
    - rewrite Hc. unfold C. lia.
    - lia.
    - intros q Hq. by apply Hrows.
    - intros j' Hj'. lia.
    - intros j' l q Hj'. lia. }
  revert H0. generalize (foldl
    (fun lp p => (addRow (SumP (getStrRepr (pl e)) p) 1 FIX lp).1)
    lp0 (seq 0 K)).
  intros lp1 H1.
  assert (between (foldl (addLineVars e R) lp1 ls) (length ls)) as Hend.
  { apply (foldl_indexed_invariant (fun j lp => between lp j)); [done|].
    intros j l lp Hl Hb. by apply addLineVars_between. }
  destruct Hend as [Hk Hc Hr Hslot Hline Hname].
  split; [done|]. split; [done|]. split; [done|].
  intros j l q Hl Hq. apply (Hname j l q); [|done..].
  by apply lookup_lt_Some in Hl.
Qed.

End Segment.


Lemma segmentDone_keeps e lp0 lp lp' :
  keeps lp lp' → segmentDone e lp0 lp → segmentDone e lp0 lp'.
Proof.
  intros Hk (H1 & H2 & H3). split; [|split].
  - intros q Hq. eapply rowIs_keeps; [done|]. by apply H1.
  - intros j Hj. eapply rowIs_keeps; [done|]. by apply H2.
  - intros j l q Hl Hq. eapply colIs_keeps; [done|]. by apply H3.
Qed.

(** ** The names of the columns *)

Lemma bind_singleton_fmap {A B : Type} (f : A → B) (l : list A) :
  (x ← l; [f x]) = f <$> l.
Proof. induction l as [|a l IH]; [done|]. by rewrite bind_cons, IH. Qed.

Lemma bind_nil {A B : Type} (f : A → list B) : ([] ≫= f) = [].
Proof. done. Qed.

Lemma names_addLineVar e l row rowA lp p :
  colName <$> cols (addLineVar e l row rowA lp p)
  = (colName <$> cols lp) ++ [getILPVarName e (line l) p].
Proof. unfold addLineVar. simpl. by rewrite fmap_app. Qed.

Lemma names_addLineVars e rowA lp l :
  colName <$> cols (addLineVars e rowA lp l)
  = (colName <$> cols lp)
    ++ (getILPVarName e (line l) <$> seq 0 (getCardinality (pl e))).
Proof.
  unfold addLineVars, addRow. cbn beta iota zeta.
  generalize (length (rows lp)). intros row.
  change (colName <$> cols lp) with
    (colName <$> cols {| cols := cols lp;
       rows := rows lp ++ [{| rowName := SumL (getStrRepr (pl e)) (line l);
                              bnd := 1; rowType := FIX; coefs := [] |}] |}).
  generalize ({| cols := cols lp;
       rows := rows lp ++ [{| rowName := SumL (getStrRepr (pl e)) (line l);
                              bnd := 1; rowType := FIX; coefs := [] |}] |}).
  intros lp1. induction (getCardinality (pl e)) as [|n IH].
  - simpl. by rewrite app_nil_r.
  - rewrite seq_S, foldl_app, fmap_app. cbn [foldl].
    rewrite names_addLineVar, IH. by rewrite <- app_assoc.
Qed.

Lemma names_lines e rowA (ls : list LineOcc) :
  ∀ lp,
    colName <$> cols (foldl (addLineVars e rowA) lp ls)
    = (colName <$> cols lp)
      ++ (l ← ls; p ← seq 0 (getCardinality (pl e));
          [getILPVarName e (line l) p]).
Proof.
  induction ls as [|l ls IH]; intros lp.
  - cbn [foldl]. by rewrite bind_nil, app_nil_r.
  - cbn [foldl]. rewrite bind_cons, IH, names_addLineVars, <- app_assoc.
    by rewrite bind_singleton_fmap.
Qed.

Lemma cols_slots e lp (n : nat) :
  cols (foldl (fun lp p => (addRow (SumP (getStrRepr (pl e)) p) 1 FIX lp).1)
          lp (seq 0 n))
  = cols lp.
Proof.
  induction n as [|n IH]; [done|]. by rewrite seq_S, foldl_app.
Qed.

Lemma names_addSegment lp e :
  colName <$> cols (addSegment lp e) = (colName <$> cols lp) ++ xnames [e].
Proof.
  unfold addSegment. rewrite names_lines, cols_slots.
  unfold xnames. by rewrite bind_cons, bind_nil, app_nil_r.
Qed.

Lemma xnames_cons e es : xnames (e :: es) = xnames [e] ++ xnames es.
Proof. unfold xnames. by rewrite !bind_cons, bind_nil, app_nil_r. Qed.

(** ** All segments *)

Lemma addSegments_segments (g : list OptNode) (lp : ILPSolver) :
  addSegments g lp = foldl addSegment lp (segments g).
Proof.
  unfold addSegments, segments. revert lp.
  induction g as [|n g IH]; intros lp; [done|].
  simpl. rewrite foldl_app, <- IH. f_equal.
  generalize (getAdjList n). intros l. revert lp.
  induction l as [|e l IHl]; intros lp; [done|].
  simpl. rewrite filter_cons. case_decide as H1; case_decide as H2;
    try done; simpl; by rewrite IHl.
Qed.

Lemma segments_done (es : list OptEdge) :
  ∀ lp,
    keeps lp (foldl addSegment lp es)
    ∧ colName <$> cols (foldl addSegment lp es)
      = (colName <$> cols lp) ++ xnames es
    ∧ ∀ e, e ∈ es →
        ∃ lp0, segmentDone e lp0 (foldl addSegment lp es).
Proof.
  induction es as [|e es IH]; intros lp.
  { split; [apply keeps_refl|]. split; [by rewrite app_nil_r|].
    intros e He. by apply not_elem_of_nil in He. }
  cbn [foldl]. destruct (IH (addSegment lp e)) as (Hk & Hn & Hd).
  destruct (addSegment_done e lp) as [Hk1 Hd1].
  split; [by eapply keeps_trans|]. split.
  - by rewrite Hn, names_addSegment, (xnames_cons e es), <- app_assoc.
  - intros e' [->|He']%elem_of_cons.
    + exists lp. by eapply segmentDone_keeps.
    + by apply Hd.
Qed.

(** ** Columns by name *)

Lemma findCol_first (name : VarName) (l : list Col) :
  ∀ i n c,
    l !! i = Some c → colName c = name →
    (∀ i' c', i' < i → l !! i' = Some c' → colName c' ≠ name) →
    findCol name l n = Some (n + i).
Proof.
  induction l as [|c0 l IH]; intros i n c Hi Hc Hfirst; [done|].
  simpl. destruct i as [|i].
  - simpl in Hi. injection Hi as ->. rewrite decide_True by done.
    f_equal. lia.
  - rewrite decide_False by (apply (Hfirst 0 c0); [lia|done]).
    rewrite (IH i (S n) c); [f_equal; lia|done..|].
    intros i' c' Hi' Hc'. apply (Hfirst (S i') c'); [lia|done].
Qed.

Lemma getVarByName_unique (lp1 lp : ILPSolver) (i : nat) (name : VarName) :
  keeps lp1 lp → NoDup (colName <$> cols lp1) → colIs lp1 i name →
  getVarByName lp name = Some i.
Proof.
  intros [_ Hk] Hnd (c & Hc & Hname). unfold getVarByName.
  apply (findCol_first name (cols lp) i 0 c); [by apply Hk|done|].
  intros i' c' Hi' Hc' Heq.
  assert (is_Some (cols lp1 !! i')) as [c'' Hc''].
  { apply lookup_lt_is_Some. apply lookup_lt_Some in Hc. lia. }
  pose proof (Hk _ _ Hc'') as Hc3. rewrite Hc' in Hc3. injection Hc3 as <-.
  assert (i' = i); [|lia].
  apply (NoDup_lookup (colName <$> cols lp1) i' i name); [done|..].
  - by rewrite list_lookup_fmap, Hc'', <- Heq.
  - by rewrite list_lookup_fmap, Hc, <- Hname.
Qed.

(** ** Sums *)

Lemma sumZ_by_index {A : Type} (f : A → Z) (g : nat → Z) (l : list A) :
  ∀ n, (∀ j a, l !! j = Some a → f a = g (n + j)) →
  sumZ (f <$> l) = sumZ (g <$> seq n (length l)).
Proof.
  induction l as [|a l IH]; intros n H; [done|].
  simpl. rewrite (H 0 a), Nat.add_0_r by done. f_equal.
  apply IH. intros j b Hj. rewrite (H (S j) b) by done. f_equal. lia.
Qed.

Lemma sumZ_ext {A : Type} (f g : A → Z) (l : list A) :
  (∀ a, a ∈ l → f a = g a) → sumZ (f <$> l) = sumZ (g <$> l).
Proof.
  induction l as [|a l IH]; intros H; [done|].
  simpl. rewrite (H a) by (by left). f_equal. apply IH.
  intros b Hb. apply H. by right.
Qed.

Lemma rowSum_ones (sol : nat → Z) (r : Row) (f : nat → nat) (n : nat) :
  coefs r = (fun j => (f j, 1%Z)) <$> seq 0 n →
  rowSum sol r = sumZ ((fun j => sol (f j)) <$> seq 0 n).
Proof.
  intros H. unfold rowSum. rewrite H, <- list_fmap_compose.
  apply sumZ_ext. intros j _. simpl. lia.
Qed.

Lemma rowIs_holds (lp : ILPSolver) (sol : nat → Z) (i : nat) (f : nat → nat)
    (n : nat) :
  feasible lp sol → rowIs lp i ((fun j => (f j, 1%Z)) <$> seq 0 n) →
  sumZ ((fun j => sol (f j)) <$> seq 0 n) = 1%Z.
Proof.
  intros [_ Hrows] (r & Hr & Hb & Ht & Hc).
  specialize (Hrows r (list_elem_of_lookup_2 _ _ _ Hr)).
  unfold rowHolds in Hrows. rewrite Ht, Hb in Hrows.
  by rewrite <- (rowSum_ones sol r f n).
Qed.

Lemma NoDup_fmap_eq {A B : Type} (f : A → B) (l : list A) (x y : A) :
  NoDup (f <$> l) → x ∈ l → y ∈ l → f x = f y → x = y.
Proof.
  intros Hnd [i Hi]%list_elem_of_lookup [j Hj]%list_elem_of_lookup Hf.
  assert (i = j) as ->; [|congruence].
  apply (NoDup_lookup (f <$> l) i j (f x)); [done|..];
    rewrite list_lookup_fmap; [by rewrite Hi|by rewrite Hj, Hf].
Qed.

(** The names are distinct when the segments have distinct string
    representations and the lines of a segment are distinct. *)
Lemma xnames_NoDup (es : list OptEdge) :
  NoDup ((fun e => getStrRepr (pl e)) <$> es) →
  (∀ e, e ∈ es → NoDup (line <$> getLines (pl e))) →
  NoDup (xnames es).
Proof.
  intros Hes Hlines. unfold xnames. apply NoDup_bind.
  - intros e1 e2 v He1 He2 H1 H2.
    apply list_elem_of_bind in H1 as (l1 & H1 & _).
    apply list_elem_of_bind in H1 as (p1 & ->%list_elem_of_singleton & _).
    apply list_elem_of_bind in H2 as (l2 & H2 & _).
    apply list_elem_of_bind in H2 as (p2 & H2%list_elem_of_singleton & _).
    injection H2 as Hr _ _.
    by apply (NoDup_fmap_eq (fun e => getStrRepr (pl e)) es).
  - intros e He. apply NoDup_bind.
    + intros l1 l2 v Hl1 Hl2 H1 H2.
      apply list_elem_of_bind in H1 as (p1 & ->%list_elem_of_singleton & _).
      apply list_elem_of_bind in H2 as (p2 & H2%list_elem_of_singleton & _).
      injection H2 as Hl _.
      by apply (NoDup_fmap_eq line (getLines (pl e))); [apply Hlines|..].
    + intros l Hl. apply NoDup_bind.
      * intros p1 p2 v _ _ ->%list_elem_of_singleton H2%list_elem_of_singleton.
        by injection H2.
      * intros p _. apply NoDup_singleton.
      * apply NoDup_seq.
    + eapply NoDup_fmap_1, Hlines, He.
  - by eapply NoDup_fmap_1.
Qed.

(** The problem after the first [k] segments: the columns are the
    assignment variables of these, and the rows and columns of the next
    segment follow them. *)
Lemma segments_done_at (es : list OptEdge) (lp : ILPSolver) (k : nat)
    (e : OptEdge) :
  es !! k = Some e →
  segmentDone e (foldl addSegment lp (take k es)) (foldl addSegment lp es)
  ∧ length (cols (foldl addSegment lp (take k es)))
    = length (cols lp) + length (xnames (take k es)).
Proof.
  intros Hk. split.
  - rewrite <- (take_drop_middle es k e Hk) at 2.
    rewrite foldl_app. cbn [foldl].
    destruct (addSegment_done e (foldl addSegment lp (take k es)))
      as [_ Hd].
    destruct (segments_done (drop (S k) es)
                (addSegment (foldl addSegment lp (take k es)) e))
      as (Hkeep & _).
    by eapply segmentDone_keeps.
  - destruct (segments_done (take k es) lp) as (_ & Hn & _).
    apply (f_equal length) in Hn.
    by rewrite length_app, !length_fmap in Hn.
Qed.

(** The column of x(s,l,p) for line number [j] and position [p] of the
    [k]-th segment [e]: createProblem adds the columns segment by segment,
    in a segment line by line, and for a line position by position. *)
Definition xcol (es : list OptEdge) (k : nat) (e : OptEdge) (j p : nat)
    : nat :=
  length (xnames (take k es)) + j * getCardinality (pl e) + p.

Section Problem.

Context {OptGraph : Type}.
Context (getLinePairs : OptEdge → list LinePair).
Context (getEdgePartners : OptNode → OptEdge → LinePair → list OptEdge).
Context (getEdgePartnerPairs : OptNode → OptEdge → LinePair → list EdgePair).
Context (crosses2 : OptGraph → OptNode → OptEdge → OptEdge → PosComPair → bool).
Context (crosses3 : OptGraph → OptNode → OptEdge → EdgePair → PosCom → bool).
Context (getCrossingPenaltySameSeg getCrossingPenaltyDiffSeg : OptNode → Z).

(** C2.  In every feasible solution of the problem that createProblem
    builds, for every segment s of the component, the k-th in the order in
    which createProblem meets them: the column added for line number j and
    position p of s is named x_(s,l,p) and has the value 0 or 1; the values
    of the lines of s at a position p < K(s) sum to 1; and the values of a
    line of s over the positions 0..K(s)-1 sum to 1.  When the names of the
    assignment variables are pairwise distinct, the value found by the name
    x_(s,l,p) is that of this column, and the two sums hold for the values
    found by name. *)
Theorem createProblem_assignment (og : OptGraph) (g : list OptNode)
    (lp : ILPSolver) (sol : nat → Z) :
  createProblem getLinePairs getEdgePartners getEdgePartnerPairs crosses2
    crosses3 getCrossingPenaltySameSeg getCrossingPenaltyDiffSeg og g
  = Some lp →
  feasible lp sol →
  ∀ k e, segments g !! k = Some e →
    let x j p := sol (xcol (segments g) k e j p) in
    (∀ j l p, getLines (pl e) !! j = Some l → p < getCardinality (pl e) →
       colIs lp (xcol (segments g) k e j p) (getILPVarName e (line l) p)
       ∧ (0 ≤ x j p ≤ 1)%Z)
    ∧ (∀ p, p < getCardinality (pl e) →
         sumZ ((fun j => x j p) <$> seq 0 (length (getLines (pl e))))
         = 1%Z)
    ∧ (∀ j, j < length (getLines (pl e)) →
         sumZ ((fun p => x j p) <$> seq 0 (getCardinality (pl e))) = 1%Z)
    ∧ (NoDup (xnames (segments g)) →
       (∀ j l p, getLines (pl e) !! j = Some l →
          p < getCardinality (pl e) →
          xval lp sol e (line l) p = x j p)
       ∧ (∀ p, p < getCardinality (pl e) →
            sumZ ((fun l => xval lp sol e (line l) p) <$> getLines (pl e))
            = 1%Z)
       ∧ (∀ l, l ∈ getLines (pl e) →
            sumZ ((fun p => xval lp sol e (line l) p)
                  <$> seq 0 (getCardinality (pl e))) = 1%Z)).
Proof.
  unfold createProblem. intros Hcreate Hfeas k e He.
  apply bind_Some in Hcreate as (lp2 & Hsame & Hdiff).
  apply writeSameSegConstraints_keeps in Hsame.
  apply writeDiffSegConstraints_keeps in Hdiff.
  rewrite addSegments_segments in Hsame.
  destruct (segments_done (segments g) getSolver) as (_ & Hnames & _).
  simpl in Hnames.
  destruct (segments_done_at (segments g) getSolver k e He) as [Hd1 HC].
  cbn [getSolver cols length] in HC. rewrite Nat.add_0_l in HC.
  set (lp0 := foldl addSegment getSolver (take k (segments g))) in *.
  set (lp1 := foldl addSegment getSolver (segments g)) in *.
  assert (keeps lp1 lp) as Hk by (by eapply keeps_trans).
  pose proof (segmentDone_keeps e lp0 lp1 lp Hk Hd1) as (Hslot & Hline & Hcol).
  destruct Hd1 as (_ & _ & Hcol1).
  cbv zeta. unfold xcol. rewrite <- HC.
  split; [|split; [|split]].
  - intros j l p Hl Hp. split; [by apply Hcol|].
    destruct (Hcol j l p Hl Hp) as (c & Hc & _).
    destruct Hfeas as [Hbin _]. by eapply Hbin.
  - intros p Hp. exact (rowIs_holds lp sol _ _ _ Hfeas (Hslot p Hp)).
  - intros j Hj. exact (rowIs_holds lp sol _ _ _ Hfeas (Hline j Hj)).
  - intros Hnd. rewrite <- Hnames in Hnd.
    assert (∀ j l q, getLines (pl e) !! j = Some l →
              q < getCardinality (pl e) →
              xval lp sol e (line l) q
              = sol (length (cols lp0) + j * getCardinality (pl e) + q))
      as Hx.
    { intros j l q Hl Hq. unfold xval.
      by rewrite (getVarByName_unique lp1 lp _ _ Hk Hnd (Hcol1 j l q Hl Hq)). }
    split; [exact Hx|]. split.
    + intros p Hp. rewrite <- (rowIs_holds lp sol _ _ _ Hfeas (Hslot p Hp)).
      apply (sumZ_by_index _ (fun j => sol (_ + j * _ + p)) _ 0).
      intros j l Hl. by apply Hx.
    + intros l [j Hl]%list_elem_of_lookup.
      rewrite <- (rowIs_holds lp sol _ _ _ Hfeas
                    (Hline j (lookup_lt_Some _ _ _ Hl))).
      apply sumZ_ext. intros q Hq%elem_of_seq. apply (Hx j); [done|lia].
Qed.

End Problem.

(** ** Checking a concrete solution *)

Definition rowHoldsb (sol : nat → Z) (r : Row) : bool :=
  match rowType r with
  | FIX => bool_decide (rowSum sol r = bnd r)
  | UP => bool_decide (rowSum sol r ≤ bnd r)%Z
  end.

Definition feasibleb (lp : ILPSolver) (sol : nat → Z) : bool :=
  forallb (fun i => bool_decide (0 ≤ sol i ≤ 1)%Z) (seq 0 (length (cols lp)))
  && forallb (rowHoldsb sol) (rows lp).

Lemma feasibleb_feasible (lp : ILPSolver) (sol : nat → Z) :
  feasibleb lp sol = true → feasible lp sol.
Proof.
  unfold feasibleb. rewrite andb_true_iff, !forallb_forall.
  intros [Hc Hr]. split.
  - intros i c Hi. apply lookup_lt_Some in Hi.
    apply (bool_decide_unpack _), Is_true_true, Hc, list_elem_of_In, elem_of_seq.
    lia.
  - intros r Hin%list_elem_of_In. specialize (Hr r Hin).
    unfold rowHoldsb in Hr. unfold rowHolds.
    destruct (rowType r); by apply bool_decide_eq_true in Hr.
Qed.

(** ** Two segments through a junction *)

Definition lineA : LineOcc := {| line := 10%Z; relatives := [10%Z] |}.
Definition lineB : LineOcc := {| line := 20%Z; relatives := [20%Z] |}.

Definition segA : OptEdge :=
  {| edgeAddr := 101; getFrom := 1; getTo := 2;
     pl := {| etgs := [{| etg := 1; dir := false; order := 0;
                          wasCut := false |};
                       {| etg := 2; dir := true; order := 0;
                          wasCut := false |}];
              getLines := [lineA; lineB]; getCardinality := 2;
              getStrRepr := "a" |} |}.

Definition segB : OptEdge :=
  {| edgeAddr := 102; getFrom := 2; getTo := 3;
     pl := {| etgs := [{| etg := 3; dir := true; order := 0;
                          wasCut := false |}];
              getLines := [lineA; lineB]; getCardinality := 2;
              getStrRepr := "b" |} |}.

Definition comp : list OptNode :=
  [{| nodeAddr := 1; getAdjList := [segA] |};
   {| nodeAddr := 2; getAdjList := [segA; segB] |};
   {| nodeAddr := 3; getAdjList := [segB] |}].

(** At the junction the two lines continue from one segment into the other;
    they cross when their order differs between the two. *)
Definition partners (n : OptNode) (a : OptEdge) (_ : LinePair)
    : list OptEdge :=
  if decide (nodeAddr n = 2%Z) then
    if decide (edgeAddr a = 101%Z) then [segB] else [segA]
  else [].

Definition swapped (_ : unit) (_ : OptNode) (_ _ : OptEdge)
    (pc : PosComPair) : bool :=
  negb (Bool.eqb (pc.1.1 <? pc.2.1) (pc.1.2 <? pc.2.2)).

Abbreviation compProblem :=
  (createProblem (fun _ => [(lineA, lineB)]) partners (fun _ _ _ => [])
     swapped (fun _ _ _ _ _ => false) (fun _ => 1%Z) (fun _ => 1%Z) tt comp).

(** Line 10 at position 0 and line 20 at position 1 in both segments; the
    columns are those of segment a, of segment b, and the crossing
    indicator. *)
Definition compSol (i : nat) : Z :=
  if decide (i ∈ [0; 3; 4; 7]) then 1%Z else 0%Z.

(** The problem of the component: 9 columns and 10 rows. *)
Definition compLp : ILPSolver := default getSolver compProblem.

Lemma compProblem_built : compProblem = Some compLp.
Proof.
  unfold compLp.
  assert (bool_decide (is_Some compProblem) = true) as H
    by (vm_compute; reflexivity).
  apply bool_decide_eq_true in H. by destruct H as [lp ->].
Qed.

Lemma compSol_feasible : feasible compLp compSol.
Proof. apply feasibleb_feasible. vm_compute. reflexivity. Qed.

Lemma comp_names : NoDup (xnames (segments comp)).
Proof. apply (bool_decide_unpack _). vm_compute. exact I. Qed.

Lemma createProblem_assignment_comp :
  compProblem = Some compLp
  ∧ length (cols compLp) = 9 ∧ length (rows compLp) = 10
  ∧ NoDup (xnames (segments comp))
  ∧ feasible compLp compSol
  ∧ ∀ k e, segments comp !! k = Some e →
      let x j p := compSol (xcol (segments comp) k e j p) in
      (∀ j l p, getLines (pl e) !! j = Some l →
         p < getCardinality (pl e) →
         colIs compLp (xcol (segments comp) k e j p)
           (getILPVarName e (line l) p)
         ∧ (0 ≤ x j p ≤ 1)%Z)
      ∧ (∀ p, p < getCardinality (pl e) →
           sumZ ((fun j => x j p) <$> seq 0 (length (getLines (pl e))))
           = 1%Z)
      ∧ (∀ j, j < length (getLines (pl e)) →
           sumZ ((fun p => x j p) <$> seq 0 (getCardinality (pl e)))
           = 1%Z)
      ∧ (NoDup (xnames (segments comp)) →
         (∀ j l p, getLines (pl e) !! j = Some l →
            p < getCardinality (pl e) →
            xval compLp compSol e (line l) p = x j p)
         ∧ (∀ p, p < getCardinality (pl e) →
              sumZ ((fun l => xval compLp compSol e (line l) p)
                    <$> getLines (pl e)) = 1%Z)
         ∧ (∀ l, l ∈ getLines (pl e) →
              sumZ ((fun p => xval compLp compSol e (line l) p)
                    <$> seq 0 (getCardinality (pl e))) = 1%Z)).
Proof.
  split; [exact compProblem_built|].
  split; [vm_compute; reflexivity|].
  split; [vm_compute; reflexivity|].
  split; [exact comp_names|]. split; [exact compSol_feasible|].
  exact (createProblem_assignment _ _ _ _ _ _ _ tt comp compLp compSol
           compProblem_built compSol_feasible).
Defined.


(** ** Extraction *)




Lemma foldM_app {A S : Type} (f : A → S → option S) (l1 l2 : list A) (s : S) :
  foldM f (l1 ++ l2) s = foldM f l1 s ≫= foldM f l2.
Proof.
  revert s. induction l1 as [|a l1 IH]; intros s; [done|].
  simpl. destruct (f a s); [apply IH|done].
Qed.


Section ExtractionFacts.

Context (getVarVal : VarName → float) (linePos : Z → Line → nat).


End ExtractionFacts.

(** The solved values of [compSol], by name. *)
Definition compVal (v : VarName) : float :=
  if decide (v ∈ [XVar "a" 10%Z 0; XVar "a" 20%Z 1;
                  XVar "b" 10%Z 0; XVar "b" 20%Z 1])
  then 1%float else 0%float.

(** Line 10 lies at position 0 and line 20 at position 1 of every original
    edge. *)
Definition compPos (_ : Z) (l : Line) : nat :=
  if decide (l = 10%Z) then 0 else 1.



(** The names of the component are distinct for this reason. *)
Lemma xnames_NoDup_comp :
  NoDup ((fun e => getStrRepr (pl e)) <$> segments comp)
  ∧ (∀ e, e ∈ segments comp → NoDup (line <$> getLines (pl e)))
  ∧ NoDup (xnames (segments comp)).
Proof.
  assert (NoDup ((fun e => getStrRepr (pl e)) <$> segments comp)) as H1
    by (apply (bool_decide_unpack _); vm_compute; exact I).
  assert (∀ e, e ∈ segments comp → NoDup (line <$> getLines (pl e))) as H2.
  { intros e He. apply list_elem_of_In in He. vm_compute in He.
    destruct He as [<-|[<-|[]]];
      apply (bool_decide_unpack _); vm_compute; exact I. }
  split; [exact H1|]. split; [exact H2|].
  exact (xnames_NoDup (segments comp) H1 H2).
Defined.

(** ** Pairs of different positions *)

Lemma skip_length {B : Type} (g : nat → list B) (n p : nat) (l : list nat) :
  (∀ q, p ≠ q → length (g q) = n) → NoDup l →
  length (l ≫= fun q => if decide (p = q) then [] else g q)
  = (length l - (if decide (p ∈ l) then 1 else 0)) * n.
Proof.
  intros Hg. induction l as [|x l IH]; intros Hnd; [done|].
  apply NoDup_cons in Hnd as [Hx Hnd].
  rewrite bind_cons, length_app, IH by done. cbn [length].
  destruct (decide (p = x)) as [<-|Hne].
  - rewrite (decide_True (P := p ∈ p :: l)) by (by left).
    rewrite (decide_False (P := p ∈ l)) by done. cbn [length]. lia.
  - rewrite (Hg x Hne).
    destruct (decide (p ∈ l)) as [Hin|Hin].
    + rewrite decide_True by (by right).
      destruct l as [|y l']; [by apply elem_of_nil in Hin|].
      cbn [length]. lia.
    + rewrite decide_False; [lia|].
      intros [?|?]%elem_of_cons; done.
Qed.

Lemma length_bind_const {A B : Type} (f : A → list B) (n : nat)
    (l : list A) :
  (∀ x, x ∈ l → length (f x) = n) → length (l ≫= f) = length l * n.
Proof.
  induction l as [|x l IH]; intros Hf; [done|].
  rewrite bind_cons, length_app, IH, Hf; [cbn [length]; lia|by left|].
  intros y Hy. apply Hf. by right.
Qed.

Section Pairs.

Context {B : Type} (K : nat) (g : nat → nat → list B).

(** The shape of the loops of getPositionCombinations: all pairs of
    positions below [K], those of equal positions skipped. *)
Definition pairsOf : list B :=
  p ← seq 0 K;
  q ← seq 0 K;
  if decide (p = q) then [] else g p q.

Lemma pairsOf_length (n : nat) :
  (∀ p q, p ≠ q → length (g p q) = n) →
  length pairsOf = K * (K - 1) * n.
Proof.
  intros Hg. unfold pairsOf.
  rewrite (length_bind_const _ ((K - 1) * n)).
  - rewrite length_seq. lia.
  - intros p Hp%elem_of_seq.
    rewrite (skip_length (g p) n p) by (auto || apply NoDup_seq).
    rewrite length_seq, decide_True; [done|]. apply elem_of_seq. lia.
Qed.

Lemma pairsOf_elem (z : B) :
  z ∈ pairsOf ↔ ∃ p q, p < K ∧ q < K ∧ p ≠ q ∧ z ∈ g p q.
Proof.
  unfold pairsOf. rewrite list_elem_of_bind. split.
  - intros (p & Hz & Hp%elem_of_seq).
    apply list_elem_of_bind in Hz as (q & Hz & Hq%elem_of_seq).
    destruct (decide (p = q)) as [?|Hne]; [by apply elem_of_nil in Hz|].
    exists p, q. repeat split; (lia || done).
  - intros (p & q & Hp & Hq & Hne & Hz). exists p.
    split; [|apply elem_of_seq; lia].
    apply list_elem_of_bind. exists q.
    split; [|apply elem_of_seq; lia]. by rewrite decide_False.
Qed.

Lemma pairsOf_NoDup :
  (∀ p q, NoDup (g p q)) →
  (∀ p q p' q' z, z ∈ g p q → z ∈ g p' q' → p = p' ∧ q = q') →
  NoDup pairsOf.
Proof.
  intros Hnd Hinj. unfold pairsOf. apply NoDup_bind; [| |apply NoDup_seq].
  - intros p p' z _ _ Hz Hz'.
    apply list_elem_of_bind in Hz as (q & Hz & _).
    apply list_elem_of_bind in Hz' as (q' & Hz' & _).
    destruct (decide (p = q)); [by apply elem_of_nil in Hz|].
    destruct (decide (p' = q')); [by apply elem_of_nil in Hz'|].
    by destruct (Hinj p q p' q' z).
  - intros p _. apply NoDup_bind; [| |apply NoDup_seq].
    + intros q q' z _ _ Hz Hz'.
      destruct (decide (p = q)); [by apply elem_of_nil in Hz|].
      destruct (decide (p = q')); [by apply elem_of_nil in Hz'|].
      by destruct (Hinj p q p q' z).
    + intros q _. case_decide; [apply NoDup_nil_2|apply Hnd].
Qed.

End Pairs.

Lemma getPositionCombinations_pairs (a : OptEdge) :
  getPositionCombinations a
  = pairsOf (getCardinality (pl a)) (fun p q => [(p, q)]).
Proof. reflexivity. Qed.

Lemma getPositionCombinations2_pairs (a b : OptEdge) :
  getPositionCombinations2 a b
  = pairsOf (getCardinality (pl a)) (fun pA pB =>
      pairsOf (getCardinality (pl b)) (fun qA qB => [((pA, qA), (pB, qB))])).
Proof. reflexivity. Qed.

(** ** The loop of extractPosition *)

Section ExtractionLoop.

Context (getVarVal : VarName → float) (linePos : Z → Line → nat).

(** The lines of segment [e] that the solution puts at position [tp]. *)
Definition chosenLines (e : OptEdge) (tp : nat) : list LineOcc → list LineOcc :=
  filter (fun lo =>
    (0.5 <? getVarVal (getILPVarName e (line lo) tp))%float = true).

Lemma extractPosition_loop (e : OptEdge) (etgp : EtgPart) (frontDir : bool)
    (tp : nat) (l : list LineOcc) :
  ∀ (found : bool) (hc : HierarOrderCfg),
    match
      foldM (fun lo '(found, hc) =>
        let val := getVarVal (getILPVarName e (line lo) tp) in
        if (0.5 <? val)%float then
          let hc :=
            foldl (fun hc rel =>
              let p := linePos (etg etgp) rel in
              placeRelative etgp frontDir p hc) hc (relatives lo) in
          if found : bool then None else Some (true, hc)
        else Some (found, hc)) l (found, hc)
    with
    | Some (found', _) =>
        Nat.b2n found + length (chosenLines e tp l) ≤ 1
        ∧ found' = bool_decide (Nat.b2n found + length (chosenLines e tp l) = 1)
    | None => 2 ≤ Nat.b2n found + length (chosenLines e tp l)
    end.
Proof.
  induction l as [|lo l IH]; intros found hc.
  - cbn. destruct found; cbn; split; (lia || done).
  - cbn [foldM]. cbv zeta. unfold chosenLines in *.
    destruct (0.5 <? getVarVal (getILPVarName e (line lo) tp))%float eqn:E.
    + rewrite filter_cons_True by done. cbn [length].
      destruct found; [cbn; lia|].
      match goal with
      | |- context [foldM ?f l (true, ?h)] => specialize (IH true h)
      end.
      destruct (foldM _ l _) as [[found' hc']|]; cbn [Nat.b2n] in *.
      * destruct IH as [H1 ->]. split; [lia|].
        apply bool_decide_ext. lia.
      * lia.
    + rewrite filter_cons_False by (by rewrite E).
      apply IH.
Qed.

End ExtractionLoop.

(** The position pairs of a segment are the pairs of two different
    positions below its cardinality, each of them once: K (K - 1) pairs for
    cardinality K, and never a position with itself. *)
Theorem getPositionCombinations_spec (a : OptEdge) :
  (∀ p q, (p, q) ∈ getPositionCombinations a
          ↔ p < getCardinality (pl a) ∧ q < getCardinality (pl a) ∧ p ≠ q)
  ∧ NoDup (getPositionCombinations a)
  ∧ length (getPositionCombinations a)
    = getCardinality (pl a) * (getCardinality (pl a) - 1).
Proof.
  rewrite getPositionCombinations_pairs. split; [|split].
  - intros p q. rewrite pairsOf_elem. split.
    + intros (p' & q' & Hp & Hq & Hne & Hz).
      apply list_elem_of_singleton in Hz as [= -> ->]. done.
    + intros (Hp & Hq & Hne). exists p, q.
      by rewrite list_elem_of_singleton.
  - apply pairsOf_NoDup.
    + intros p q. apply NoDup_singleton.
    + intros p q p' q' z Hz Hz'.
      apply list_elem_of_singleton in Hz as ->.
      by apply list_elem_of_singleton in Hz' as [= -> ->].
  - rewrite (pairsOf_length _ _ 1); [lia|done].
Qed.

(** The position pairs of two segments a and b combine two different
    positions in a with two different positions in b, the first of each
    for the one line and the second for the other; each combination occurs
    once, Ka (Ka - 1) Kb (Kb - 1) in all. *)
Theorem getPositionCombinations2_spec (a b : OptEdge) :
  (∀ pA qA pB qB,
     ((pA, qA), (pB, qB)) ∈ getPositionCombinations2 a b
     ↔ pA < getCardinality (pl a) ∧ pB < getCardinality (pl a) ∧ pA ≠ pB
       ∧ qA < getCardinality (pl b) ∧ qB < getCardinality (pl b) ∧ qA ≠ qB)
  ∧ NoDup (getPositionCombinations2 a b)
  ∧ length (getPositionCombinations2 a b)
    = getCardinality (pl a) * (getCardinality (pl a) - 1)
      * (getCardinality (pl b) * (getCardinality (pl b) - 1)).
Proof.
  rewrite getPositionCombinations2_pairs. split; [|split].
  - intros pA qA pB qB. rewrite pairsOf_elem. split.
    + intros (p & p' & Hp & Hp' & Hne & Hz).
      apply pairsOf_elem in Hz as (q & q' & Hq & Hq' & Hne' & Hz).
      apply list_elem_of_singleton in Hz as [= -> -> -> ->]. done.
    + intros (Hp & Hp' & Hne & Hq & Hq' & Hne'). exists pA, pB.
      do 3 (split; [done|]). apply pairsOf_elem. exists qA, qB.
      by rewrite list_elem_of_singleton.
  - apply pairsOf_NoDup.
    + intros p p'. apply pairsOf_NoDup.
      * intros q q'. apply NoDup_singleton.
      * intros q q' r r' z Hz Hz'.
        apply list_elem_of_singleton in Hz as ->.
        by apply list_elem_of_singleton in Hz' as [= -> ->].
    + intros p p' r r' z Hz Hz'.
      apply pairsOf_elem in Hz as (q & q' & _ & _ & _ & Hz).
      apply pairsOf_elem in Hz' as (s & s' & _ & _ & _ & Hz').
      apply list_elem_of_singleton in Hz as ->.
      by apply list_elem_of_singleton in Hz' as [= -> _ -> _].
  - rewrite (pairsOf_length _ _
               (getCardinality (pl b) * (getCardinality (pl b) - 1)));
      [lia|].
    intros p p' _. rewrite (pairsOf_length _ _ 1); [lia|done].
Qed.

(** extractPosition has a result exactly when one line of the segment has a
    value above 0.5 at the position: with none the assertion after the loop
    fails, with two or more the assertion in it. *)
Theorem extractPosition_defined (getVarVal : VarName → float)
    (linePos : Z → Line → nat) (e : OptEdge) (etgp : EtgPart)
    (frontDir : bool) (tp : nat) (hc : HierarOrderCfg) :
  is_Some (extractPosition getVarVal linePos e etgp frontDir tp hc)
  ↔ length (chosenLines getVarVal e tp (getLines (pl e))) = 1.
Proof.
  unfold extractPosition.
  pose proof (extractPosition_loop getVarVal linePos e etgp frontDir tp
                (getLines (pl e)) false hc) as H.
  destruct (foldM _ (getLines (pl e)) (false, hc)) as [[found hc']|];
    cbn [mbind option_bind Nat.b2n] in *.
  - destruct H as [H1 ->]. case_bool_decide as Hd.
    + split; [intros _; lia|by eexists].
    + split; [by intros [? ?]|intros ?; lia].
  - split; [by intros [? ?]|intros ?; lia].
Qed.

(** ** From a feasible solution to the order *)

Lemma sumZ_count {A : Type} (f : A → Z) (l : list A) :
  (∀ a, a ∈ l → (0 ≤ f a ≤ 1)%Z) →
  sumZ (f <$> l) = Z.of_nat (length (filter (fun a => f a = 1%Z) l)).
Proof.
  induction l as [|a l IH]; intros H; [done|].
  cbn [fmap list_fmap sumZ foldr]. fold (sumZ (f <$> l)).
  rewrite IH by (intros b Hb; apply H; by right).
  pose proof (H a ltac:(by left)) as Ha.
  destruct (decide (f a = 1%Z)) as [E|E].
  - rewrite filter_cons_True by done. cbn [length]. lia.
  - rewrite filter_cons_False by done. lia.
Qed.

Lemma length_filter_iff {A : Type} (P Q : A → Prop)
    `{!∀ a, Decision (P a)} `{!∀ a, Decision (Q a)} (l : list A) :
  (∀ a, a ∈ l → P a ↔ Q a) →
  length (filter P l) = length (filter Q l).
Proof.
  induction l as [|a l IH]; intros Hiff; [done|].
  pose proof (Hiff a ltac:(by left)) as Ha.
  specialize (IH (fun b Hb => Hiff b ltac:(by right))).
  destruct (decide (P a)) as [HP|HP].
  - rewrite !filter_cons_True by tauto. cbn [length]. by rewrite IH.
  - rewrite !filter_cons_False by tauto. done.
Qed.

Lemma foldM_is_Some {A S : Type} (f : A → S → option S) (l : list A) :
  (∀ a s, a ∈ l → is_Some (f a s)) → ∀ s, is_Some (foldM f l s).
Proof.
  induction l as [|a l IH]; intros H s; cbn [foldM]; [by eexists|].
  destruct (H a s ltac:(by left)) as [s' ->].
  apply IH. intros b t Hb. apply H. by right.
Qed.

Section Solved.

Context {OptGraph : Type}.
Context (getLinePairs : OptEdge → list LinePair).
Context (getEdgePartners : OptNode → OptEdge → LinePair → list OptEdge).
Context (getEdgePartnerPairs : OptNode → OptEdge → LinePair → list EdgePair).
Context (crosses2 : OptGraph → OptNode → OptEdge → OptEdge → PosComPair → bool).
Context (crosses3 : OptGraph → OptNode → OptEdge → EdgePair → PosCom → bool).
Context (getCrossingPenaltySameSeg getCrossingPenaltyDiffSeg : OptNode → Z).

(** In a feasible solution the values of the lines of a segment at one
    position are 0 or 1 and sum to 1. *)
Lemma position_sum (og : OptGraph) (g : list OptNode) (lp : ILPSolver)
    (sol : nat → Z) (e : OptEdge) (p : nat) :
  createProblem getLinePairs getEdgePartners getEdgePartnerPairs crosses2
    crosses3 getCrossingPenaltySameSeg getCrossingPenaltyDiffSeg og g
  = Some lp →
  NoDup (xnames (segments g)) →
  feasible lp sol →
  e ∈ segments g → p < getCardinality (pl e) →
  sumZ ((fun l => xval lp sol e (line l) p) <$> getLines (pl e)) = 1%Z
  ∧ ∀ l, l ∈ getLines (pl e) → (0 ≤ xval lp sol e (line l) p ≤ 1)%Z.
Proof.
  unfold createProblem. intros Hcreate Hnd Hfeas He Hp.
  apply bind_Some in Hcreate as (lp2 & Hsame & Hdiff).
  apply writeSameSegConstraints_keeps in Hsame.
  apply writeDiffSegConstraints_keeps in Hdiff.
  rewrite addSegments_segments in Hsame.
  destruct (segments_done (segments g) getSolver) as (_ & Hnames & Hdone).
  simpl in Hnames. rewrite <- Hnames in Hnd.
  set (lp1 := foldl addSegment getSolver (segments g)) in *.
  assert (keeps lp1 lp) as Hk by (by eapply keeps_trans).
  destruct (Hdone e He) as (lp0 & Hd1).
  pose proof (segmentDone_keeps e lp0 lp1 lp Hk Hd1) as (Hslot & _ & Hcol').
  destruct Hd1 as (_ & _ & Hcol).
  assert (∀ j l, getLines (pl e) !! j = Some l →
            xval lp sol e (line l) p
            = sol (length (cols lp0) + j * getCardinality (pl e) + p))
    as Hx.
  { intros j l Hl. unfold xval.
    by rewrite (getVarByName_unique lp1 lp _ _ Hk Hnd (Hcol j l p Hl Hp)). }
  split.
  - rewrite <- (rowIs_holds lp sol _ _ _ Hfeas (Hslot p Hp)).
    apply (sumZ_by_index _ (fun j => sol (_ + j * _ + p)) _ 0).
    intros j l Hl. by apply Hx.
  - intros l [j Hl]%list_elem_of_lookup. rewrite (Hx j l Hl).
    destruct (Hcol' j l p Hl Hp) as (c & Hc & _).
    destruct Hfeas as [Hbin _]. by eapply Hbin.
Qed.

End Solved.

Section Solution.

Context {OptGraph : Type}.
Context (getLinePairs : OptEdge → list LinePair).
Context (getEdgePartners : OptNode → OptEdge → LinePair → list OptEdge).
Context (getEdgePartnerPairs : OptNode → OptEdge → LinePair → list EdgePair).
Context (crosses2 : OptGraph → OptNode → OptEdge → OptEdge → PosComPair → bool).
Context (crosses3 : OptGraph → OptNode → OptEdge → EdgePair → PosCom → bool).
Context (getCrossingPenaltySameSeg getCrossingPenaltyDiffSeg : OptNode → Z).

(** The constraints of createProblem assure the assertions of the
    extraction.  Let the names of the assignment variables be pairwise
    distinct, and let the solver report a value above 0.5 for x(s,l,p)
    exactly when a feasible solution of the problem gives it the value 1.
    Then at every position of every segment exactly one line has a value
    above 0.5, and getConfigurationFromSolution has a result, whatever the
    configuration it starts from. *)
Theorem solution_extractable (og : OptGraph) (g : list OptNode)
    (lp : ILPSolver) (sol : nat → Z) (getVarVal : VarName → float)
    (linePos : Z → Line → nat) :
  createProblem getLinePairs getEdgePartners getEdgePartnerPairs crosses2
    crosses3 getCrossingPenaltySameSeg getCrossingPenaltyDiffSeg og g
  = Some lp →
  NoDup (xnames (segments g)) →
  feasible lp sol →
  (∀ e l p, e ∈ segments g → l ∈ getLines (pl e) →
     p < getCardinality (pl e) →
     (0.5 <? getVarVal (getILPVarName e (line l) p))%float = true
     ↔ xval lp sol e (line l) p = 1%Z) →
  (∀ e p, e ∈ segments g → p < getCardinality (pl e) →
     length (chosenLines getVarVal e p (getLines (pl e))) = 1)
  ∧ ∀ hc, is_Some (getConfigurationFromSolution getVarVal linePos hc g).
Proof.
  intros Hcreate Hnd Hfeas Hval.
  assert (∀ e p, e ∈ segments g → p < getCardinality (pl e) →
            length (chosenLines getVarVal e p (getLines (pl e))) = 1)
    as Hone.
  { intros e p He Hp.
    destruct (position_sum _ _ _ _ _ _ _ og g lp sol e p
                Hcreate Hnd Hfeas He Hp) as [Hsum Hbin].
    rewrite sumZ_count in Hsum by done.
    unfold chosenLines.
    rewrite (length_filter_iff _
               (fun l => xval lp sol e (line l) p = 1%Z)); [lia|].
    intros l Hl. by apply Hval. }
  split; [exact Hone|].
  intros hc. unfold getConfigurationFromSolution. revert hc.
  apply foldM_is_Some. intros n hc Hn. revert hc.
  apply foldM_is_Some. intros e hc He.
  case_decide as Hfrom; [by eexists|].
  assert (e ∈ segments g) as Hseg.
  { unfold segments. apply list_elem_of_bind. exists n.
    split; [|done]. apply list_elem_of_filter. split; [|done].
    by destruct (decide (getFrom e = nodeAddr n)). }
  destruct (etgs (pl e)) as [|front rest] eqn:Eetgs; [by eexists|].
  revert hc. apply foldM_is_Some. intros etgp hc _.
  destruct (wasCut etgp); [by eexists|].
  revert hc. apply foldM_is_Some. intros tp hc Htp%elem_of_seq.
  unfold extractPosition.
  pose proof (extractPosition_loop getVarVal linePos e etgp (dir front) tp
                (getLines (pl e)) false hc) as H.
  destruct (foldM _ (getLines (pl e)) (false, hc)) as [[found hc']|];
    cbn [mbind option_bind Nat.b2n] in *.
  - destruct H as [_ ->]. rewrite bool_decide_true; [by eexists|].
    rewrite Hone; [done|done|lia].
  - rewrite Hone in H; [lia|done|lia].
Qed.

End Solution.

Lemma solution_extractable_comp :
  (∀ e p, e ∈ segments comp → p < getCardinality (pl e) →
     length (chosenLines compVal e p (getLines (pl e))) = 1)
  ∧ ∀ hc, is_Some (getConfigurationFromSolution compVal compPos hc comp).
Proof.
  apply (solution_extractable _ _ _ _ _ _ _ tt comp compLp compSol compVal
           compPos compProblem_built comp_names compSol_feasible).
  intros e l p He Hl Hp.
  change (segments comp) with [segA; segB] in He.
  apply elem_of_cons in He as [->|He];
    [|apply list_elem_of_singleton in He as ->].
  - change (getLines (pl segA)) with [lineA; lineB] in Hl.
    change (getCardinality (pl segA)) with 2 in Hp.
    apply elem_of_cons in Hl as [->|Hl];
      [|apply list_elem_of_singleton in Hl as ->];
      (destruct p as [|[|p]]; [| |lia]); vm_compute; by split.
  - change (getLines (pl segB)) with [lineA; lineB] in Hl.
    change (getCardinality (pl segB)) with 2 in Hp.
    apply elem_of_cons in Hl as [->|Hl];
      [|apply list_elem_of_singleton in Hl as ->];
      (destruct p as [|[|p]]; [| |lia]); vm_compute; by split.
Defined.

(** ** Rows of the crossing constraints *)

Lemma foldM_mid {A S : Type} (R : S → S → Prop) (f : A → S → option S)
    (l : list A) :
  (∀ s, R s s) → (∀ s1 s2 s3, R s1 s2 → R s2 s3 → R s1 s3) →
  (∀ a s s', a ∈ l → f a s = Some s' → R s s') →
  ∀ a s s', a ∈ l → foldM f l s = Some s' →
  ∃ s1 s2, R s s1 ∧ f a s1 = Some s2 ∧ R s2 s'.
Proof.
  intros Hrefl Htrans. induction l as [|b l IH]; intros Hstep a s s' Ha H.
  { by apply elem_of_nil in Ha. }
  cbn [foldM] in H. destruct (f b s) as [t|] eqn:E; [|done].
  assert (∀ b' u u', b' ∈ l → f b' u = Some u' → R u u') as Hstep'.
  { intros b' u u' Hb'. apply Hstep. by right. }
  apply elem_of_cons in Ha as [->|Ha].
  - exists s, t. split; [done|]. split; [done|].
    revert H. apply (foldM_invariant (R t)); [|done].
    intros c u u' Hc Hu Hf. eapply Htrans; [exact Hu|]. by eapply Hstep'.
  - destruct (IH Hstep' a t s' Ha H) as (s1 & s2 & H1 & H2 & H3).
    exists s1, s2. split; [|done]. eapply Htrans; [|exact H1].
    eapply Hstep; [by left|done].
Qed.

Lemma foldM_keeps {A : Type} (f : A → ILPSolver → option ILPSolver)
    (l : list A) (lp lp' : ILPSolver) :
  (∀ a s s', a ∈ l → f a s = Some s' → keeps s s') →
  foldM f l lp = Some lp' → keeps lp lp'.
Proof.
  intros Hstep. apply (foldM_invariant (keeps lp)); [|apply keeps_refl].
  intros a s s' Ha Hs H. eapply keeps_trans; [exact Hs|by eapply Hstep].
Qed.

Lemma findCol_Some (name : VarName) (l : list Col) :
  ∀ n k, findCol name l n = Some k →
    ∃ i c, k = n + i ∧ l !! i = Some c ∧ colName c = name
           ∧ ∀ i' c', i' < i → l !! i' = Some c' → colName c' ≠ name.
Proof.
  induction l as [|c0 l IH]; intros n k H; [done|].
  cbn [findCol] in H. destruct (decide (colName c0 = name)) as [E|E].
  - injection H as <-. exists 0, c0. split; [lia|]. split; [done|].
    split; [done|]. intros; lia.
  - destruct (IH _ _ H) as (i & c & -> & Hi & Hc & Hfirst).
    exists (S i), c. split; [lia|]. split; [done|]. split; [done|].
    intros [|i'] c' Hlt Hc'.
    + injection Hc' as <-. done.
    + apply (Hfirst i' c'); [lia|done].
Qed.

(** A name that is found keeps its column when columns are added. *)
Lemma getVarByName_keeps (lp lp' : ILPSolver) (name : VarName) (k : nat) :
  keeps lp lp' → getVarByName lp name = Some k →
  getVarByName lp' name = Some k.
Proof.
  intros [_ Hk] H. unfold getVarByName in *.
  apply findCol_Some in H as (i & c & -> & Hi & Hc & Hfirst).
  apply (findCol_first name (cols lp') i 0 c); [by apply Hk|done|].
  intros i' c' Hlt Hc'.
  assert (is_Some (cols lp !! i')) as [c'' Hc''].
  { apply lookup_lt_is_Some. apply lookup_lt_Some in Hi. lia. }
  pose proof (Hk _ _ Hc'') as Hc3.
  assert (c' = c'') as -> by congruence.
  by apply (Hfirst i' c'').
Qed.

(** A row of the final problem holds in a feasible solution. *)
Lemma kept_row_holds (lp0 lp : ILPSolver) (sol : nat → Z) (i : nat)
    (r : Row) :
  keeps lp0 lp → feasible lp sol → rows lp0 !! i = Some r → rowHolds sol r.
Proof.
  intros [Hk _] [_ Hrows] Hr. apply Hrows.
  eapply list_elem_of_lookup_2. by apply Hk.
Qed.

Lemma diffSegRow_row (a : OptEdge) (segs : EdgePair) (linepair : LinePair)
    (node : OptNode) (dv : nat) (lp lp' : ILPSolver) (poscomb : PosCom) :
  diffSegRow a segs linepair node dv lp poscomb = Some lp' →
  ∃ cA cB r,
    getVarByName lp (getILPVarName a (line linepair.1) poscomb.1) = Some cA
    ∧ getVarByName lp (getILPVarName a (line linepair.2) poscomb.2) = Some cB
    ∧ rows lp' !! length (rows lp) = Some r
    ∧ bnd r = 1%Z ∧ rowType r = UP
    ∧ coefs r = [(cA, 1%Z); (cB, 1%Z); (dv, (-1)%Z)].
Proof.
  unfold diffSegRow. intros H.
  apply bind_Some in H as (cA & HA & H).
  apply bind_Some in H as (cB & HB & H).
  cbn in H. injection H as <-.
  exists cA, cB. eexists. split; [done|]. split; [done|].
  split.
  { cbn [addColToRow rows].
    rewrite !list_lookup_alter_eq, lookup_app_r, Nat.sub_diag by lia.
    reflexivity. }
  done.
Qed.

Lemma sameSegRow_row (a b : OptEdge) (linepair : LinePair)
    (node : OptNode) (dv : nat) (lp lp' : ILPSolver) (poscomb : PosComPair) :
  sameSegRow a b linepair node dv lp poscomb = Some lp' →
  ∃ cA cB cA' cB' r,
    getVarByName lp (getILPVarName a (line linepair.1) poscomb.1.1) = Some cA
    ∧ getVarByName lp (getILPVarName a (line linepair.2) poscomb.2.1)
      = Some cB
    ∧ getVarByName lp (getILPVarName b (line linepair.1) poscomb.1.2)
      = Some cA'
    ∧ getVarByName lp (getILPVarName b (line linepair.2) poscomb.2.2)
      = Some cB'
    ∧ rows lp' !! length (rows lp) = Some r
    ∧ bnd r = 3%Z ∧ rowType r = UP
    ∧ coefs r
      = [(cA, 1%Z); (cB, 1%Z); (cA', 1%Z); (cB', 1%Z); (dv, (-1)%Z)].
Proof.
  unfold sameSegRow. intros H.
  apply bind_Some in H as (cA & HA & H).
  apply bind_Some in H as (cB & HB & H).
  apply bind_Some in H as (cA' & HA' & H).
  apply bind_Some in H as (cB' & HB' & H).
  cbn in H. injection H as <-.
  exists cA, cB, cA', cB'. eexists. do 4 (split; [done|]).
  split.
  { cbn [addColToRow rows].
    rewrite !list_lookup_alter_eq, lookup_app_r, Nat.sub_diag by lia.
    reflexivity. }
  done.
Qed.

Lemma foldM_at {A : Type} (f : A → ILPSolver → option ILPSolver)
    (l : list A) (a : A) (lp lp' : ILPSolver) :
  foldM f l lp = Some lp' → a ∈ l →
  (∀ b s s', b ∈ l → f b s = Some s' → keeps s s') →
  ∃ s1 s2, keeps lp s1 ∧ f a s1 = Some s2 ∧ keeps s2 lp'.
Proof.
  intros H Ha Hstep.
  exact (foldM_mid keeps f l keeps_refl keeps_trans Hstep a lp lp' Ha H).
Qed.

Lemma wrap_mul3 (a b c : Z) :
  wrap (wrap (wrap a * b) * c) = wrap (a * b * c).
Proof.
  unfold wrap.
  rewrite (Z.mul_mod_idemp_l a b SIZE_MOD) by (unfold SIZE_MOD; lia).
  by rewrite (Z.mul_mod_idemp_l (a * b) c SIZE_MOD)
    by (unfold SIZE_MOD; lia).
Qed.

Lemma rowSum_coefs (sol : nat → Z) (r : Row) (cs : list (nat * Z)) :
  coefs r = cs → rowSum sol r = sumZ ((fun '(c, k) => (k * sol c)%Z) <$> cs).
Proof. by intros <-. Qed.

Section CrossingRows.

Context {OptGraph : Type}.
Context (getLinePairs : OptEdge → list LinePair).
Context (getEdgePartners : OptNode → OptEdge → LinePair → list OptEdge).
Context (getEdgePartnerPairs : OptNode → OptEdge → LinePair → list EdgePair).
Context (crosses2 : OptGraph → OptNode → OptEdge → OptEdge → PosComPair → bool).
Context (crosses3 : OptGraph → OptNode → OptEdge → EdgePair → PosCom → bool).
Context (getCrossingPenaltySameSeg getCrossingPenaltyDiffSeg : OptNode → Z).

Lemma diffSegPartners_keeps og node a linepair segs lp lp' :
  diffSegPartners crosses3 getCrossingPenaltyDiffSeg og node a linepair segs
    lp = Some lp' →
  keeps lp lp'.
Proof.
  unfold diffSegPartners. simpl.
  apply (foldM_invariant (keeps lp)); [|apply keeps_addCol].
  intros poscomb s s' _ Hs. destruct (crosses3 _ _ _ _ _).
  - by apply diffSegRow_keeps.
  - by intros [= <-].
Qed.

(** The row of one crossing between a segment and a pair of segments. *)
Lemma diffSegPartners_row og node a linepair segs poscomb lp lp' :
  diffSegPartners crosses3 getCrossingPenaltyDiffSeg og node a linepair segs
    lp = Some lp' →
  poscomb ∈ getPositionCombinations a →
  crosses3 og node a segs poscomb = true →
  ∃ lp1 dec c cA cB i r,
    keeps lp1 lp'
    ∧ cols lp1 !! dec = Some c
    ∧ colName c
      = XDec (getStrRepr (pl a))
          (getStrRepr (pl segs.1) +:+ getStrRepr (pl segs.2))
          (line linepair.1) (line linepair.2) (nodeAddr node)
    ∧ objCoef c
      = wrap (getCrossingPenaltyDiffSeg node
              * Z.of_nat (length (relatives linepair.1))
              * Z.of_nat (length (relatives linepair.2)))
    ∧ getVarByName lp1 (getILPVarName a (line linepair.1) poscomb.1)
      = Some cA
    ∧ getVarByName lp1 (getILPVarName a (line linepair.2) poscomb.2)
      = Some cB
    ∧ rows lp' !! i = Some r ∧ bnd r = 1%Z ∧ rowType r = UP
    ∧ coefs r = [(cA, 1%Z); (cB, 1%Z); (dec, (-1)%Z)].
Proof.
  unfold diffSegPartners, addCol. cbv beta iota zeta.
  intros H Hpc Hcross.
  eapply foldM_at in H; [|exact Hpc|].
  2:{ intros b s s' _. destruct (crosses3 og node a segs b).
      - apply diffSegRow_keeps, keeps_refl.
      - intros [= <-]. apply keeps_refl. }
  destruct H as (s1 & s2 & K1 & H & K2). rewrite Hcross in H.
  pose proof (diffSegRow_keeps s1 _ _ _ _ _ _ _ _ (keeps_refl s1) H) as K3.
  apply diffSegRow_row in H as (cA & cB & r & HA & HB & Hr & Hb & Ht & Hc).
  exists s1, (length (cols lp)). eexists. exists cA, cB.
  exists (length (rows s1)), r.
  split; [by eapply keeps_trans|]. split.
  { destruct K1 as [_ K1]. apply K1. cbn [cols].
    rewrite lookup_app_r, Nat.sub_diag by lia. reflexivity. }
  split; [done|]. split; [apply wrap_mul3|].
  do 2 (split; [done|]). split; [|done].
  destruct K2 as [K2 _]. by apply K2.
Qed.

(** The row of one crossing between two segments. *)
Lemma sameSegPartner_row og node processed a linepair b poscomb lp lp' :
  sameSegPartner crosses2 getCrossingPenaltySameSeg og node processed a
    linepair b lp = Some lp' →
  edgeAddr b ∉ processed →
  poscomb ∈ getPositionCombinations2 a b →
  crosses2 og node a b poscomb = true →
  ∃ lp1 dec c cA cB cA' cB' i r,
    keeps lp1 lp'
    ∧ cols lp1 !! dec = Some c
    ∧ colName c
      = XDec (getStrRepr (pl a)) (getStrRepr (pl b))
          (line linepair.1) (line linepair.2) (nodeAddr node)
    ∧ objCoef c
      = wrap (getCrossingPenaltySameSeg node
              * Z.of_nat (length (relatives linepair.1))
              * Z.of_nat (length (relatives linepair.2)))
    ∧ getVarByName lp1 (getILPVarName a (line linepair.1) poscomb.1.1)
      = Some cA
    ∧ getVarByName lp1 (getILPVarName a (line linepair.2) poscomb.2.1)
      = Some cB
    ∧ getVarByName lp1 (getILPVarName b (line linepair.1) poscomb.1.2)
      = Some cA'
    ∧ getVarByName lp1 (getILPVarName b (line linepair.2) poscomb.2.2)
      = Some cB'
    ∧ rows lp' !! i = Some r ∧ bnd r = 3%Z ∧ rowType r = UP
    ∧ coefs r
      = [(cA, 1%Z); (cB, 1%Z); (cA', 1%Z); (cB', 1%Z); (dec, (-1)%Z)].
Proof.
  unfold sameSegPartner, addCol. intros H Hpr Hpc Hcross.
  rewrite decide_False in H by done. cbv beta iota zeta in H.
  eapply foldM_at in H; [|exact Hpc|].
  2:{ intros b' s s' _. destruct (crosses2 og node a b b').
      - apply sameSegRow_keeps, keeps_refl.
      - intros [= <-]. apply keeps_refl. }
  destruct H as (s1 & s2 & K1 & H & K2). rewrite Hcross in H.
  pose proof (sameSegRow_keeps s1 _ _ _ _ _ _ _ _ (keeps_refl s1) H) as K3.
  apply sameSegRow_row in H
    as (cA & cB & cA' & cB' & r & HA & HB & HA' & HB' & Hr & Hb & Ht & Hc).
  exists s1, (length (cols lp)). eexists. exists cA, cB, cA', cB'.
  exists (length (rows s1)), r.
  split; [by eapply keeps_trans|]. split.
  { destruct K1 as [_ K1]. apply K1. cbn [cols].
    rewrite lookup_app_r, Nat.sub_diag by lia. reflexivity. }
  split; [done|]. split; [apply wrap_mul3|].
  do 4 (split; [done|]). split; [|done].
  destruct K2 as [K2 _]. by apply K2.
Qed.

(** The loop of writeSameSegConstraints over the segments of a node, at one
    of them: the segments before it, and it, are the processed ones. *)
Lemma sameSeg_node_at og node (before after : list OptEdge)
    (segmentA : OptEdge) (lp lp' : ILPSolver) :
  snd <$>
    foldM (fun segmentA '(processed, lp) =>
      let processed := edgeAddr segmentA :: processed in
      lp ← foldM (fun linepair lp =>
        foldM (sameSegPartner crosses2 getCrossingPenaltySameSeg og node
                 processed segmentA linepair)
          (getEdgePartners node segmentA linepair) lp)
        (getLinePairs segmentA) lp;
      Some (processed, lp))
      (before ++ segmentA :: after) ([], lp) = Some lp' →
  ∃ la lb,
    foldM (fun linepair lp =>
      foldM (sameSegPartner crosses2 getCrossingPenaltySameSeg og node
               (edgeAddr segmentA :: reverse (edgeAddr <$> before))
               segmentA linepair)
        (getEdgePartners node segmentA linepair) lp)
      (getLinePairs segmentA) la = Some lb
    ∧ keeps lb lp'.
Proof.
  set (F := fun (segmentA : OptEdge) (s : list Z * ILPSolver) => _).
  intros H. apply fmap_Some in H as ([pr l'] & H & ->). cbn [snd].
  rewrite foldM_app in H. apply bind_Some in H as ([pr1 l1] & H1 & H2).
  assert (∀ l pr0 l0 pr2 l2,
            foldM F l (pr0, l0) = Some (pr2, l2) →
            pr2 = reverse (edgeAddr <$> l) ++ pr0 ∧ keeps l0 l2) as Hloop.
  { induction l as [|e l IH]; intros pr0 l0 pr2 l2 E.
    - cbn in E. injection E as <- <-. split; [done|apply keeps_refl].
    - cbn [foldM] in E. destruct (F e (pr0, l0)) as [[pr3 l3]|] eqn:E3;
        [|done].
      unfold F in E3. cbv zeta in E3.
      apply bind_Some in E3 as (l4 & E4 & [= <- <-]).
      destruct (IH _ _ _ _ E) as [-> K]. split.
      + rewrite fmap_cons, reverse_cons, <- app_assoc. done.
      + eapply keeps_trans; [|exact K]. revert E4. apply foldM_keeps.
        intros lpair s s' _. apply foldM_keeps.
        intros b t t' _. apply sameSegPartner_keeps, keeps_refl. }
  destruct (Hloop _ _ _ _ _ H1) as [-> _]. rewrite app_nil_r in H2.
  cbn [foldM] in H2.
  destruct (F segmentA (reverse (edgeAddr <$> before), l1))
    as [[pr3 l3]|] eqn:E3; [|done].
  unfold F in E3. cbv zeta in E3.
  apply bind_Some in E3 as (l4 & E4 & [= <- <-]).
  exists l1, l4. split; [exact E4|].
  by destruct (Hloop _ _ _ _ _ H2) as [_ K].
Qed.

End CrossingRows.

Section Crossings.

Context {OptGraph : Type}.
Context (getLinePairs : OptEdge → list LinePair).
Context (getEdgePartners : OptNode → OptEdge → LinePair → list OptEdge).
Context (getEdgePartnerPairs : OptNode → OptEdge → LinePair → list EdgePair).
Context (crosses2 : OptGraph → OptNode → OptEdge → OptEdge → PosComPair → bool).
Context (crosses3 : OptGraph → OptNode → OptEdge → EdgePair → PosCom → bool).
Context (getCrossingPenaltySameSeg getCrossingPenaltyDiffSeg : OptNode → Z).

(** A crossing of two lines between two segments is counted.  Let segmentB
    be a partner of segmentA for the line pair at the node, neither
    segmentA nor a segment before it in the adjacency list of the node, and
    let the position combination cross.  Then the problem has a binary
    column x_dec for them whose objective coefficient is the penalty of the
    node times the numbers of relatives of the two lines, taken in size_t
    (modulo 2^64), and in every feasible solution the values of the four
    assignment variables of the combination minus that of x_dec are at most
    3: if the lines take these positions, x_dec is 1. *)
Theorem sameSeg_crossing_counted (og : OptGraph) (g : list OptNode)
    (lp : ILPSolver) (sol : nat → Z) (node : OptNode)
    (before after : list OptEdge) (segmentA segmentB : OptEdge)
    (linepair : LinePair) (poscomb : PosComPair) :
  createProblem getLinePairs getEdgePartners getEdgePartnerPairs crosses2
    crosses3 getCrossingPenaltySameSeg getCrossingPenaltyDiffSeg og g
  = Some lp →
  feasible lp sol →
  node ∈ g →
  getAdjList node = before ++ segmentA :: after →
  linepair ∈ getLinePairs segmentA →
  segmentB ∈ getEdgePartners node segmentA linepair →
  edgeAddr segmentB ≠ edgeAddr segmentA →
  (∀ b, b ∈ before → edgeAddr segmentB ≠ edgeAddr b) →
  poscomb ∈ getPositionCombinations2 segmentA segmentB →
  crosses2 og node segmentA segmentB poscomb = true →
  let xA := xval lp sol segmentA (line linepair.1) poscomb.1.1 in
  let xB := xval lp sol segmentA (line linepair.2) poscomb.2.1 in
  let xA' := xval lp sol segmentB (line linepair.1) poscomb.1.2 in
  let xB' := xval lp sol segmentB (line linepair.2) poscomb.2.2 in
  ∃ dec c,
    cols lp !! dec = Some c
    ∧ colName c
      = XDec (getStrRepr (pl segmentA)) (getStrRepr (pl segmentB))
          (line linepair.1) (line linepair.2) (nodeAddr node)
    ∧ objCoef c
      = wrap (getCrossingPenaltySameSeg node
              * Z.of_nat (length (relatives linepair.1))
              * Z.of_nat (length (relatives linepair.2)))
    ∧ (xA + xB + xA' + xB' - sol dec ≤ 3)%Z
    ∧ (xA = 1%Z → xB = 1%Z → xA' = 1%Z → xB' = 1%Z → sol dec = 1%Z).
Proof.
  intros Hcreate Hfeas Hn Hadj Hlp HB Hne Hbefore Hpc Hcross.
  unfold createProblem in Hcreate.
  apply bind_Some in Hcreate as (lp2 & Hsame & Hdiff).
  apply writeDiffSegConstraints_keeps in Hdiff.
  unfold writeSameSegConstraints in Hsame.
  eapply foldM_at in Hsame; [|exact Hn|].
  2:{ intros n s s' _ H.
      by apply (writeSameSegConstraints_keeps getLinePairs getEdgePartners
                  crosses2 getCrossingPenaltySameSeg og [n]);
        unfold writeSameSegConstraints; cbn [foldM]; rewrite H. }
  destruct Hsame as (l1a & l1b & _ & H1 & K1).
  rewrite Hadj in H1.
  apply sameSeg_node_at in H1 as (l2a & l2b & H2 & K2).
  eapply foldM_at in H2; [|exact Hlp|].
  2:{ intros lpair s s' _. apply foldM_keeps.
      intros b t t' _. apply sameSegPartner_keeps, keeps_refl. }
  destruct H2 as (l3a & l3b & _ & H3 & K3).
  eapply foldM_at in H3; [|exact HB|].
  2:{ intros b t t' _. apply sameSegPartner_keeps, keeps_refl. }
  destruct H3 as (l4a & l4b & _ & H4 & K4).
  apply (sameSegPartner_row _ _ _ _ _ _ _ _ poscomb) in H4
    as (l5 & dec & c & cA & cB & cA' & cB' & i & r & K5 & Hc & Hname & Hobj
        & HA & HB' & HA' & HB'' & Hr & Hb & Ht & Hcoefs);
    [|..|done|done].
  2:{ intros [E|E]%elem_of_cons; [done|].
      apply elem_of_reverse, list_elem_of_fmap in E as (b & E & Hb).
      by apply (Hbefore b). }
  assert (keeps l4b lp) as K.
  { repeat (eapply keeps_trans; [eassumption|]). apply keeps_refl. }
  assert (keeps l5 lp) as K' by (by eapply keeps_trans).
  cbv zeta. unfold xval.
  rewrite (getVarByName_keeps l5 lp _ _ K' HA),
    (getVarByName_keeps l5 lp _ _ K' HB'),
    (getVarByName_keeps l5 lp _ _ K' HA'),
    (getVarByName_keeps l5 lp _ _ K' HB'').
  pose proof (kept_row_holds l4b lp sol i r K Hfeas Hr) as Hrow.
  unfold rowHolds in Hrow. rewrite Ht, Hb, (rowSum_coefs sol r _ Hcoefs) in Hrow.
  cbn in Hrow.
  destruct K' as [_ Kc]. pose proof (Kc _ _ Hc) as Hc'.
  destruct Hfeas as [Hbin _]. pose proof (Hbin _ _ Hc') as Hd.
  exists dec, c. do 3 (split; [done|]). split; lia.
Qed.

(** A crossing of two lines between a segment and a pair of segments is
    counted.  For a pair of segments that getEdgePartnerPairs gives for
    segmentA and the line pair at the node, and a pair of positions that
    crosses, the problem has a binary column x_dec whose objective
    coefficient is the penalty of the node times the numbers of relatives
    of the two lines, taken in size_t (modulo 2^64), and in every feasible
    solution the values of the two assignment variables minus that of x_dec
    are at most 1: if the lines take these positions, x_dec is 1. *)
Theorem diffSeg_crossing_counted (og : OptGraph) (g : list OptNode)
    (lp : ILPSolver) (sol : nat → Z) (node : OptNode)
    (segmentA : OptEdge) (linepair : LinePair) (segs : EdgePair)
    (poscomb : PosCom) :
  createProblem getLinePairs getEdgePartners getEdgePartnerPairs crosses2
    crosses3 getCrossingPenaltySameSeg getCrossingPenaltyDiffSeg og g
  = Some lp →
  feasible lp sol →
  node ∈ g →
  segmentA ∈ getAdjList node →
  linepair ∈ getLinePairs segmentA →
  segs ∈ getEdgePartnerPairs node segmentA linepair →
  poscomb ∈ getPositionCombinations segmentA →
  crosses3 og node segmentA segs poscomb = true →
  let xA := xval lp sol segmentA (line linepair.1) poscomb.1 in
  let xB := xval lp sol segmentA (line linepair.2) poscomb.2 in
  ∃ dec c,
    cols lp !! dec = Some c
    ∧ colName c
      = XDec (getStrRepr (pl segmentA))
          (getStrRepr (pl segs.1) +:+ getStrRepr (pl segs.2))
          (line linepair.1) (line linepair.2) (nodeAddr node)
    ∧ objCoef c
      = wrap (getCrossingPenaltyDiffSeg node
              * Z.of_nat (length (relatives linepair.1))
              * Z.of_nat (length (relatives linepair.2)))
    ∧ (xA + xB - sol dec ≤ 1)%Z
    ∧ (xA = 1%Z → xB = 1%Z → sol dec = 1%Z).
Proof.
  intros Hcreate Hfeas Hn Ha Hlp Hsegs Hpc Hcross.
  unfold createProblem in Hcreate.
  apply bind_Some in Hcreate as (lp2 & _ & Hdiff).
  unfold writeDiffSegConstraints in Hdiff.
  eapply foldM_at in Hdiff; [|exact Hn|].
  2:{ intros n s s' _. apply foldM_keeps. intros a t t' _.
      apply foldM_keeps. intros lpair u u' _. apply foldM_keeps.
      intros sg v v' _. apply diffSegPartners_keeps. }
  destruct Hdiff as (l1a & l1b & _ & H1 & K1).
  eapply foldM_at in H1; [|exact Ha|].
  2:{ intros a t t' _. apply foldM_keeps. intros lpair u u' _.
      apply foldM_keeps. intros sg v v' _. apply diffSegPartners_keeps. }
  destruct H1 as (l2a & l2b & _ & H2 & K2).
  eapply foldM_at in H2; [|exact Hlp|].
  2:{ intros lpair u u' _. apply foldM_keeps.
      intros sg v v' _. apply diffSegPartners_keeps. }
  destruct H2 as (l3a & l3b & _ & H3 & K3).
  eapply foldM_at in H3; [|exact Hsegs|].
  2:{ intros sg v v' _. apply diffSegPartners_keeps. }
  destruct H3 as (l4a & l4b & _ & H4 & K4).
  apply (diffSegPartners_row _ _ _ _ _ _ _ poscomb) in H4
    as (l5 & dec & c & cA & cB & i & r & K5 & Hc & Hname & Hobj
        & HA & HB & Hr & Hb & Ht & Hcoefs); [|done..].
  assert (keeps l4b lp) as K.
  { repeat (eapply keeps_trans; [eassumption|]). apply keeps_refl. }
  assert (keeps l5 lp) as K' by (by eapply keeps_trans).
  cbv zeta. unfold xval.
  rewrite (getVarByName_keeps l5 lp _ _ K' HA),
    (getVarByName_keeps l5 lp _ _ K' HB).
  pose proof (kept_row_holds l4b lp sol i r K Hfeas Hr) as Hrow.
  unfold rowHolds in Hrow. rewrite Ht, Hb, (rowSum_coefs sol r _ Hcoefs) in Hrow.
  cbn in Hrow.
  destruct K' as [_ Kc]. pose proof (Kc _ _ Hc) as Hc'.
  destruct Hfeas as [Hbin _]. pose proof (Hbin _ _ Hc') as Hd.
  exists dec, c. do 3 (split; [done|]). split; lia.
Qed.

End Crossings.

(** In the component, line 10 before line 20 in segment a and after it in
    segment b: the two cross at the junction, and the last column, the
    crossing indicator, is 1. *)
Definition compCross (i : nat) : Z :=
  if decide (i ∈ [0; 3; 5; 6; 8]) then 1%Z else 0%Z.

Lemma compCross_feasible : feasible compLp compCross.
Proof. apply feasibleb_feasible. vm_compute. reflexivity. Qed.

Lemma sameSeg_crossing_counted_comp :
  feasible compLp compCross
  ∧ xval compLp compCross segA 10%Z 0 = 1%Z
  ∧ xval compLp compCross segA 20%Z 1 = 1%Z
  ∧ xval compLp compCross segB 10%Z 1 = 1%Z
  ∧ xval compLp compCross segB 20%Z 0 = 1%Z
  ∧ ∃ dec c,
      cols compLp !! dec = Some c
      ∧ colName c = XDec "a" "b" 10%Z 20%Z 2%Z
      ∧ objCoef c = wrap (1 * Z.of_nat 1 * Z.of_nat 1)
      ∧ (xval compLp compCross segA 10%Z 0
         + xval compLp compCross segA 20%Z 1
         + xval compLp compCross segB 10%Z 1
         + xval compLp compCross segB 20%Z 0
         - compCross dec ≤ 3)%Z
      ∧ compCross dec = 1%Z.
Proof.
  assert (xval compLp compCross segA 10%Z 0 = 1%Z) as H1
    by (vm_compute; reflexivity).
  assert (xval compLp compCross segA 20%Z 1 = 1%Z) as H2
    by (vm_compute; reflexivity).
  assert (xval compLp compCross segB 10%Z 1 = 1%Z) as H3
    by (vm_compute; reflexivity).
  assert (xval compLp compCross segB 20%Z 0 = 1%Z) as H4
    by (vm_compute; reflexivity).
  split; [exact compCross_feasible|]. do 4 (split; [assumption|]).
  assert ({| nodeAddr := 2; getAdjList := [segA; segB] |} ∈ comp) as Hn
    by (by apply (list_elem_of_lookup_2 comp 1)).
  assert ((lineA, lineB) ∈ [(lineA, lineB)]) as Hlp by (by left).
  assert (segB ∈ [segB]) as HB by (by left).
  assert (edgeAddr segB ≠ edgeAddr segA) as Hne by discriminate.
  assert (∀ b : OptEdge, b ∈ [] → edgeAddr segB ≠ edgeAddr b) as Hbef
    by (intros b Hb; by apply elem_of_nil in Hb).
  assert (((0, 1), (1, 0)) ∈ getPositionCombinations2 segA segB) as Hpc
    by (apply (bool_decide_unpack _); vm_compute; exact I).
  destruct (sameSeg_crossing_counted _ _ _ _ _ _ _ tt comp compLp compCross
              {| nodeAddr := 2; getAdjList := [segA; segB] |} [] [segB]
              segA segB (lineA, lineB) ((0, 1), (1, 0))
              compProblem_built compCross_feasible Hn eq_refl Hlp HB Hne
              Hbef Hpc eq_refl)
    as (dec & c & Hc & Hname & Hobj & Hsum & Hone).
  exists dec, c. split; [exact Hc|]. split; [exact Hname|].
  split; [exact Hobj|]. split; [exact Hsum|].
  exact (Hone H1 H2 H3 H4).
Defined.

(** ** A fork *)

(** Segment a carries two lines to a junction, where the one continues in
    segment b and the other in segment c; they cross in the junction when
    their order in a is the opposite of that of b and c. *)
Definition forkA : OptEdge :=
  {| edgeAddr := 201; getFrom := 1; getTo := 2;
     pl := {| etgs := [{| etg := 1; dir := true; order := 0;
                          wasCut := false |}];
              getLines := [lineA; lineB]; getCardinality := 2;
              getStrRepr := "a" |} |}.

Definition forkB : OptEdge :=
  {| edgeAddr := 202; getFrom := 2; getTo := 3;
     pl := {| etgs := [{| etg := 2; dir := true; order := 0;
                          wasCut := false |}];
              getLines := [lineA]; getCardinality := 1;
              getStrRepr := "b" |} |}.

Definition forkC : OptEdge :=
  {| edgeAddr := 203; getFrom := 2; getTo := 4;
     pl := {| etgs := [{| etg := 3; dir := true; order := 0;
                          wasCut := false |}];
              getLines := [lineB]; getCardinality := 1;
              getStrRepr := "c" |} |}.

Definition fork : list OptNode :=
  [{| nodeAddr := 1; getAdjList := [forkA] |};
   {| nodeAddr := 2; getAdjList := [forkA; forkB; forkC] |};
   {| nodeAddr := 3; getAdjList := [forkB] |};
   {| nodeAddr := 4; getAdjList := [forkC] |}].

Definition forkLinePairs (e : OptEdge) : list LinePair :=
  if decide (edgeAddr e = 201%Z) then [(lineA, lineB)] else [].

Definition forkPairs (n : OptNode) (a : OptEdge) (_ : LinePair)
    : list EdgePair :=
  if decide (nodeAddr n = 2%Z) then
    if decide (edgeAddr a = 201%Z) then [(forkB, forkC)] else []
  else [].

Definition forkCrosses (_ : unit) (_ : OptNode) (_ : OptEdge) (_ : EdgePair)
    (pc : PosCom) : bool :=
  pc.2 <? pc.1.

Abbreviation forkProblem :=
  (createProblem forkLinePairs (fun _ _ _ => []) forkPairs
     (fun _ _ _ _ _ => false) forkCrosses (fun _ => 1%Z) (fun _ => 3%Z)
     tt fork).

Definition forkLp : ILPSolver := default getSolver forkProblem.

(** Line 20 before line 10 in segment a, against the order of b and c: the
    two cross at the junction, and the last column, the crossing indicator,
    is 1. *)
Definition forkCross (i : nat) : Z :=
  if decide (i ∈ [1; 2; 4; 5; 6]) then 1%Z else 0%Z.

Lemma forkProblem_built : forkProblem = Some forkLp.
Proof.
  unfold forkLp.
  assert (bool_decide (is_Some forkProblem) = true) as H
    by (vm_compute; reflexivity).
  apply bool_decide_eq_true in H. by destruct H as [lp ->].
Qed.

Lemma forkCross_feasible : feasible forkLp forkCross.
Proof. apply feasibleb_feasible. vm_compute. reflexivity. Qed.

Lemma diffSeg_crossing_counted_fork :
  feasible forkLp forkCross
  ∧ xval forkLp forkCross forkA 10%Z 1 = 1%Z
  ∧ xval forkLp forkCross forkA 20%Z 0 = 1%Z
  ∧ ∃ dec c,
      cols forkLp !! dec = Some c
      ∧ colName c = XDec "a" ("b" +:+ "c") 10%Z 20%Z 2%Z
      ∧ objCoef c = wrap (3 * Z.of_nat 1 * Z.of_nat 1)
      ∧ (xval forkLp forkCross forkA 10%Z 1
         + xval forkLp forkCross forkA 20%Z 0 - forkCross dec ≤ 1)%Z
      ∧ forkCross dec = 1%Z.
Proof.
  assert (xval forkLp forkCross forkA 10%Z 1 = 1%Z) as H1
    by (vm_compute; reflexivity).
  assert (xval forkLp forkCross forkA 20%Z 0 = 1%Z) as H2
    by (vm_compute; reflexivity).
  split; [exact forkCross_feasible|]. do 2 (split; [assumption|]).
  assert ({| nodeAddr := 2; getAdjList := [forkA; forkB; forkC] |} ∈ fork)
    as Hn by (by apply (list_elem_of_lookup_2 fork 1)).
  assert (forkA ∈ [forkA; forkB; forkC]) as Ha by (by left).
  assert ((lineA, lineB) ∈ forkLinePairs forkA) as Hlp by (by left).
  assert ((forkB, forkC)
          ∈ forkPairs {| nodeAddr := 2;
                         getAdjList := [forkA; forkB; forkC] |}
              forkA (lineA, lineB)) as Hsegs by (by left).
  assert ((1, 0) ∈ getPositionCombinations forkA) as Hpc
    by (apply (bool_decide_unpack _); vm_compute; exact I).
  destruct (diffSeg_crossing_counted _ _ _ _ _ _ _ tt fork forkLp forkCross
              {| nodeAddr := 2; getAdjList := [forkA; forkB; forkC] |}
              forkA (lineA, lineB) (forkB, forkC) (1, 0)
              forkProblem_built forkCross_feasible Hn Ha Hlp Hsegs Hpc
              eq_refl)
    as (dec & c & Hc & Hname & Hobj & Hsum & Hone).
  exists dec, c. split; [exact Hc|]. split; [exact Hname|].
  split; [exact Hobj|]. split; [exact Hsum|].
  exact (Hone H1 H2).
Defined.

(** ** The variables that the crossing constraints look up *)

Lemma findCol_is_Some (name : VarName) (l : list Col) :
  ∀ n, name ∈ colName <$> l → is_Some (findCol name l n).
Proof.
  induction l as [|c l IH]; intros n H; [by apply elem_of_nil in H|].
  cbn [findCol]. case_decide as E; [by eexists|].
  apply IH. rewrite fmap_cons in H.
  apply elem_of_cons in H as [H|H]; [by subst|done].
Qed.

Lemma xnames_elem (es : list OptEdge) (e : OptEdge) (r : Line) (p : nat) :
  e ∈ es → r ∈ line <$> getLines (pl e) → p < getCardinality (pl e) →
  getILPVarName e r p ∈ xnames es.
Proof.
  intros He Hr Hp. apply list_elem_of_fmap in Hr as (l & -> & Hl).
  unfold xnames. apply list_elem_of_bind. exists e. split; [|done].
  apply list_elem_of_bind. exists l. split; [|done].
  apply list_elem_of_bind. exists p. split; [by left|].
  apply elem_of_seq. lia.
Qed.

(** Every assignment variable of the segments is found in a problem that
    extends the one addSegments built. *)
Lemma getVarByName_segments (g : list OptNode) (lp : ILPSolver)
    (e : OptEdge) (r : Line) (p : nat) :
  keeps (addSegments g getSolver) lp →
  e ∈ segments g → r ∈ line <$> getLines (pl e) →
  p < getCardinality (pl e) →
  is_Some (getVarByName lp (getILPVarName e r p)).
Proof.
  intros Hk He Hr Hp.
  assert (is_Some (getVarByName (addSegments g getSolver)
                     (getILPVarName e r p))) as [k Hk'].
  { unfold getVarByName. apply findCol_is_Some.
    rewrite addSegments_segments.
    destruct (segments_done (segments g) getSolver) as (_ & -> & _).
    cbn [getSolver cols fmap list_fmap app]. by apply xnames_elem. }
  exists k. by eapply getVarByName_keeps.
Qed.

Lemma sameSegRow_total (a b : OptEdge) (linepair : LinePair)
    (node : OptNode) (dv : nat) (lp : ILPSolver) (poscomb : PosComPair) :
  is_Some (getVarByName lp (getILPVarName a (line linepair.1) poscomb.1.1)) →
  is_Some (getVarByName lp (getILPVarName a (line linepair.2) poscomb.2.1)) →
  is_Some (getVarByName lp (getILPVarName b (line linepair.1) poscomb.1.2)) →
  is_Some (getVarByName lp (getILPVarName b (line linepair.2) poscomb.2.2)) →
  is_Some (sameSegRow a b linepair node dv lp poscomb).
Proof.
  intros [? H1] [? H2] [? H3] [? H4]. unfold sameSegRow.
  rewrite H1, H2, H3, H4. cbn. by eexists.
Qed.

Lemma diffSegRow_total (a : OptEdge) (segs : EdgePair) (linepair : LinePair)
    (node : OptNode) (dv : nat) (lp : ILPSolver) (poscomb : PosCom) :
  is_Some (getVarByName lp (getILPVarName a (line linepair.1) poscomb.1)) →
  is_Some (getVarByName lp (getILPVarName a (line linepair.2) poscomb.2)) →
  is_Some (diffSegRow a segs linepair node dv lp poscomb).
Proof.
  intros [? H1] [? H2]. unfold diffSegRow.
  rewrite H1, H2. cbn. by eexists.
Qed.

Section Success.

Context {OptGraph : Type}.
Context (getLinePairs : OptEdge → list LinePair).
Context (getEdgePartners : OptNode → OptEdge → LinePair → list OptEdge).
Context (getEdgePartnerPairs : OptNode → OptEdge → LinePair → list EdgePair).
Context (crosses2 : OptGraph → OptNode → OptEdge → OptEdge → PosComPair → bool).
Context (crosses3 : OptGraph → OptNode → OptEdge → EdgePair → PosCom → bool).
Context (getCrossingPenaltySameSeg getCrossingPenaltyDiffSeg : OptNode → Z).

(** createProblem finds every variable it looks up, so none of its
    assertions fails, when every edge at a node of the component is one of
    its segments, the two lines of every line pair of an edge are lines of
    that edge, and every partner of an edge for a line pair is a segment of
    the component that has the two lines. *)
Theorem createProblem_succeeds (og : OptGraph) (g : list OptNode) :
  (∀ node a, node ∈ g → a ∈ getAdjList node → a ∈ segments g) →
  (∀ node a linepair,
     node ∈ g → a ∈ getAdjList node → linepair ∈ getLinePairs a →
     line linepair.1 ∈ line <$> getLines (pl a)
     ∧ line linepair.2 ∈ line <$> getLines (pl a)) →
  (∀ node a linepair b,
     node ∈ g → a ∈ getAdjList node → linepair ∈ getLinePairs a →
     b ∈ getEdgePartners node a linepair →
     b ∈ segments g
     ∧ line linepair.1 ∈ line <$> getLines (pl b)
     ∧ line linepair.2 ∈ line <$> getLines (pl b)) →
  is_Some
    (createProblem getLinePairs getEdgePartners getEdgePartnerPairs crosses2
       crosses3 getCrossingPenaltySameSeg getCrossingPenaltyDiffSeg og g).
Proof.
  intros Hseg Hlines Hpartners. unfold createProblem. cbv zeta.
  set (lp1 := addSegments g getSolver).
  assert (∃ lp2, writeSameSegConstraints getLinePairs getEdgePartners
                   crosses2 getCrossingPenaltySameSeg og g lp1 = Some lp2
                 ∧ keeps lp1 lp2) as (lp2 & -> & K2).
  { unfold writeSameSegConstraints.
    apply (foldM_total (keeps lp1)); [|apply keeps_refl].
    intros node lp Hn Hk.
    match goal with
    | |- ∃ s', snd <$> foldM ?F ?l ?s0 = Some s' ∧ _ =>
        assert (∃ ps, foldM F l s0 = Some ps ∧ keeps lp1 ps.2)
          as ([pr lp'] & E & K);
          [apply (foldM_total (fun ps => keeps lp1 ps.2)); [|done]
          |rewrite E; by exists lp']
    end.
    intros a [pr s] Ha Ks. cbn [snd] in Ks. cbv zeta.
    match goal with
    | |- ∃ s', (foldM ?F ?l ?s0 ≫= _) = Some s' ∧ _ =>
        assert (∃ lp', foldM F l s0 = Some lp' ∧ keeps lp1 lp')
          as (lp' & E & K);
          [apply (foldM_total (keeps lp1)); [|done]
          |rewrite E; by eexists]
    end.
    intros linepair s1 Hlp K1.
    apply (foldM_total (keeps lp1)); [|done].
    intros b s2 Hb Ks2.
    destruct (Hlines node a linepair Hn Ha Hlp) as [HlA HlB].
    destruct (Hpartners node a linepair b Hn Ha Hlp Hb)
      as (Hbseg & HlA' & HlB').
    assert (is_Some (sameSegPartner crosses2 getCrossingPenaltySameSeg og
                       node (edgeAddr a :: pr) a linepair b s2))
      as [s3 E3].
    { unfold sameSegPartner. case_decide; [by eexists|].
      unfold addCol. cbv beta iota zeta.
      match goal with
      | |- is_Some (foldM ?F ?l ?s0) =>
          assert (∃ lp', foldM F l s0 = Some lp' ∧ keeps lp1 lp')
            as (lp' & E & K);
            [apply (foldM_total (keeps lp1))|rewrite E; by eexists]
      end.
      - intros poscomb s4 Hpc Ks4.
        destruct (crosses2 og node a b poscomb); [|by exists s4].
        rewrite getPositionCombinations2_pairs in Hpc.
        apply pairsOf_elem in Hpc as (pA & pB & HpA & HpB & _ & Hpc).
        apply pairsOf_elem in Hpc as (qA & qB & HqA & HqB & _ & Hpc).
        apply list_elem_of_singleton in Hpc as ->. cbn [fst snd].
        assert (is_Some (sameSegRow a b linepair node (length (cols s2)) s4
                           ((pA, qA), (pB, qB)))) as [s5 E5].
        { apply sameSegRow_total; cbn [fst snd];
            apply (getVarByName_segments g); eauto. }
        exists s5. split; [done|]. by eapply sameSegRow_keeps.
      - eapply keeps_trans; [exact Ks2|].
        apply (keeps_addCol s2). }
    exists s3. split; [done|]. by eapply sameSegPartner_keeps. }
  cbn [mbind option_bind].
  unfold writeDiffSegConstraints.
  match goal with
  | |- is_Some (foldM ?F ?l ?s0) =>
      assert (∃ lp', foldM F l s0 = Some lp' ∧ keeps lp1 lp')
        as (lp' & E & K);
        [apply (foldM_total (keeps lp1)); [|done]|rewrite E; by eexists]
  end.
  intros node s Hn Ks. apply (foldM_total (keeps lp1)); [|done].
  intros a s1 Ha Ks1. apply (foldM_total (keeps lp1)); [|done].
  intros linepair s2 Hlp Ks2. apply (foldM_total (keeps lp1)); [|done].
  intros segs s3 Hsegs Ks3.
  destruct (Hlines node a linepair Hn Ha Hlp) as [HlA HlB].
  unfold diffSegPartners, addCol. cbv beta iota zeta.
  apply (foldM_total (keeps lp1)).
  - intros poscomb s4 Hpc Ks4.
    destruct (crosses3 og node a segs poscomb); [|by exists s4].
    rewrite getPositionCombinations_pairs in Hpc.
    apply pairsOf_elem in Hpc as (p & q & Hp & Hq & _ & Hpc).
    apply list_elem_of_singleton in Hpc as ->. cbn [fst snd].
    assert (is_Some (diffSegRow a segs linepair node (length (cols s3)) s4
                       (p, q))) as [s5 E5].
    { apply diffSegRow_total; cbn [fst snd];
        apply (getVarByName_segments g); eauto. }
    exists s5. split; [done|]. by eapply diffSegRow_keeps.
  - eapply keeps_trans; [exact Ks3|]. apply (keeps_addCol s3).
Qed.

End Success.

Lemma createProblem_succeeds_comp : is_Some compProblem.
Proof.
  assert (∀ node, node ∈ comp →
            ∀ a, a ∈ getAdjList node → a = segA ∨ a = segB) as Hadj.
  { intros node Hn a Ha. unfold comp in Hn.
    repeat (apply elem_of_cons in Hn as [->|Hn]);
      [..|by apply elem_of_nil in Hn]; cbn [getAdjList] in Ha;
      repeat (apply elem_of_cons in Ha as [->|Ha]);
      try (by apply elem_of_nil in Ha); auto. }
  assert (∀ a, a = segA ∨ a = segB →
            a ∈ segments comp
            ∧ 10%Z ∈ line <$> getLines (pl a)
            ∧ 20%Z ∈ line <$> getLines (pl a)) as Hseg.
  { change (segments comp) with [segA; segB].
    intros a [-> | ->]; (split; [|split; [by left|by right; left]]).
    - by left.
    - by right; left. }
  apply createProblem_succeeds.
  - intros node a Hn Ha. by apply Hseg, (Hadj node).
  - intros node a linepair Hn Ha Hlp.
    apply list_elem_of_singleton in Hlp as ->.
    destruct (Hseg a (Hadj node Hn a Ha)) as (_ & H1 & H2). by split.
  - intros node a linepair b Hn Ha Hlp Hb.
    apply list_elem_of_singleton in Hlp as ->.
    apply Hseg. unfold partners in Hb.
    repeat case_decide;
      first [apply list_elem_of_singleton in Hb as ->; auto
            |by apply elem_of_nil in Hb].
Defined.

End OptimProofs.
